(** * wnd-charm utilities: the tile sampler and the column normaliser

    A shallow embedding of [wndcharm/utils.py]: the class
    [SampleImageTiles] (constructor and the generator method [sample]) and
    the function [normalize_by_columns], followed by the properties that
    are checked against them.

    Python integers are unbounded: they are [Z], and Python 2's [/] on two
    integers is the floor division [Z.div].  numpy's float64 is IEEE 754
    binary64: it is [spec_float] at precision 53 and maximal exponent
    1024. *)

From Stdlib Require Import String ZArith List Lia Bool.
From Stdlib Require Import Floats.SpecFloat.
Import ListNotations.
Open Scope Z_scope.

(** ** Python exceptions *)

Module Py.

(** The built-in exception classes this module can meet (Python 2
    hierarchy), and their direct base class. *)
Inductive exc_class :=
| BaseException | Exception | StandardError | ArithmeticError
| FloatingPointError | ZeroDivisionError | ValueError | TypeError
| AttributeError.

Definition base (c : exc_class) : option exc_class :=
  match c with
  | BaseException => None
  | Exception => Some BaseException
  | StandardError => Some Exception
  | ArithmeticError => Some StandardError
  | FloatingPointError => Some ArithmeticError
  | ZeroDivisionError => Some ArithmeticError
  | ValueError => Some StandardError
  | TypeError => Some StandardError
  | AttributeError => Some StandardError
  end.

Definition exc_class_eqb (a b : exc_class) : bool :=
  match a, b with
  | BaseException, BaseException | Exception, Exception
  | StandardError, StandardError | ArithmeticError, ArithmeticError
  | FloatingPointError, FloatingPointError
  | ZeroDivisionError, ZeroDivisionError
  | ValueError, ValueError | TypeError, TypeError
  | AttributeError, AttributeError => true
  | _, _ => false
  end.

(** [issubclass c d]: [d] is [c] or one of its bases.  The hierarchy is
    four levels deep, so four hops up are enough. *)
Fixpoint issubclass_fuel (n : nat) (c d : exc_class) : bool :=
  exc_class_eqb c d ||
  match n with
  | O => false
  | S n' => match base c with
            | Some b => issubclass_fuel n' b d
            | None => false
            end
  end.

Definition issubclass := issubclass_fuel 4.

Record exception := { cls : exc_class; message : string }.

(** The outcome of a call: a value, or a raised exception. *)
Inductive result (A : Type) :=
| Return (a : A)
| Raise (e : exception).
Arguments Return {A} a.
Arguments Raise {A} e.

End Py.
Import Py.

(** ** The SWIG-wrapped image primitive *)

Module wndcharm.

(** [wndcharm.ImageMatrix]: the fields of the C++ object that the Python
    code reads, and its pixel plane. *)
Record ImageMatrix := {
  width : Z;
  height : Z;
  pixel : Z -> Z -> Z
}.

(** [wndcharm.ImageMatrix()]: a new, empty matrix. *)
Definition new_ImageMatrix : ImageMatrix :=
  {| width := 0; height := 0; pixel := fun _ _ => 0 |}.

(** Modelled from the spec: the C++ method [ImageMatrix::submatrix] is not
    part of the Python source.  The spec describes it as the operation
    that fills the target with the closed pixel rectangle
    [[x1,x2] x [y1,y2]] of the receiver. *)
Definition submatrix (original : ImageMatrix) (x1 y1 x2 y2 : Z)
  : ImageMatrix :=
  {| width := x2 - x1 + 1;
     height := y2 - y1 + 1;
     pixel := fun i j => pixel original (x1 + i) (y1 + j) |}.

End wndcharm.
Import wndcharm.

(** ** class SampleImageTiles *)

(** The values [image_in] can be bound to. *)
Inductive PyObject :=
| PyStr (s : string)
| PyImageMatrix (im : ImageMatrix)
| PyInt (n : Z)
| PyNone.

(** An instance of the class.  The four cursor attributes are created by
    [sample], not by [__init__]; the record carries them from the start
    (as 0) and [sample] writes each of them before it reads it. *)
Record SampleImageTiles := {
  image : ImageMatrix;
  tile_width : Z;
  tile_height : Z;
  tiles_x : Z;
  tiles_y : Z;
  samples : Z;
  current_row : Z;
  current_col : Z;
  current_x : Z;
  current_y : Z
}.

(** Python 2 [a / b] on integers. *)
Definition py_div (a b : Z) : result Z :=
  if b =? 0
  then Raise {| cls := ZeroDivisionError;
                message := "integer division or modulo by zero" |}
  else Return (a / b).

Section Construction.

(** The outside world of [__init__]: [os.path.exists], and
    [ImageMatrix.OpenImage], which loads the file into the receiver and
    returns a status (1 on success). *)
Variable exists_ : string -> bool.
Variable OpenImage : ImageMatrix -> string -> Z * ImageMatrix.

(** Lines 202-211: binding [self.image]. *)
Definition init_image (image_in : PyObject) : result ImageMatrix :=
  match image_in with
  | PyStr path =>
      if negb (exists_ path)
      then Raise {| cls := ValueError;
                    message := "The file '" ++ path ++
                      "' doesn't exist, maybe you need to specify the full path?" |}
      else
        let '(status, im) := OpenImage new_ImageMatrix path in
        if negb (1 =? status)
        then Raise {| cls := ValueError;
                      message := "Could not build an ImageMatrix from " ++
                        path ++ ", check the file." |}
        else Return im
  | PyImageMatrix im => Return im
  | _ => Raise {| cls := ValueError;
                  message := "image parameter 'image_in' is not a string or a wndcharm.ImageMatrix" |}
  end.

(** Lines 213-224: the tiling parameters. *)
Definition init_tiling (im : ImageMatrix) (x y : Z) (is_fixed : bool)
  : result SampleImageTiles :=
  if is_fixed then
    match py_div (width im) x with
    | Raise e => Raise e
    | Return tx =>
        match py_div (height im) y with
        | Raise e => Raise e
        | Return ty =>
            Return {| image := im;
                      tile_width := x; tile_height := y;
                      tiles_x := tx; tiles_y := ty;
                      samples := tx * ty;
                      current_row := 0; current_col := 0;
                      current_x := 0; current_y := 0 |}
        end
    end
  else
    match py_div (width im) x with
    | Raise e => Raise e
    | Return tw =>
        match py_div (height im) y with
        | Raise e => Raise e
        | Return th =>
            Return {| image := im;
                      tile_width := tw; tile_height := th;
                      tiles_x := x; tiles_y := y;
                      samples := x * y;
                      current_row := 0; current_col := 0;
                      current_x := 0; current_y := 0 |}
        end
    end.

Definition init (image_in : PyObject) (x y : Z) (is_fixed : bool)
  : result SampleImageTiles :=
  match init_image image_in with
  | Raise e => Raise e
  | Return im => init_tiling im x y is_fixed
  end.

End Construction.

(** *** The generator [sample]

    A generator is a coroutine: its body runs from one [yield] to the
    next each time the caller asks for an item.  The control points at
    which the body can stand are the states of a machine; the instance
    [self] is the store the body and the caller share. *)

(** The local variables bound on lines 227-231. *)
Record locals := {
  l_width : Z;
  l_height : Z;
  l_max_x : Z;
  l_max_y : Z;
  l_original : ImageMatrix
}.

(** An [ImageMatrix] object made by the body: its identity (the number of
    objects the pass had made before it) and its contents. *)
Record tile := {
  oid : nat;
  bb : Z * Z * Z * Z;
  px_plane : ImageMatrix
}.

Inductive gen :=
| NotStarted                        (* created; the body has not run *)
| OuterTest (l : locals)            (* at the test of line 234 *)
| InnerTest (l : locals)            (* at the test of line 237 *)
| Yielded (l : locals) (t : tile)   (* suspended at line 242 *)
| Finished.                         (* the body returned: StopIteration *)

Record machine := {
  self : SampleImageTiles;
  pc : gen;
  allocated : nat                   (* ImageMatrix objects made so far *)
}.

Definition set_row_y (s : SampleImageTiles) (row y : Z) :=
  {| image := image s; tile_width := tile_width s;
     tile_height := tile_height s; tiles_x := tiles_x s;
     tiles_y := tiles_y s; samples := samples s;
     current_row := row; current_col := current_col s;
     current_x := current_x s; current_y := y |}.

Definition set_col_x (s : SampleImageTiles) (col x : Z) :=
  {| image := image s; tile_width := tile_width s;
     tile_height := tile_height s; tiles_x := tiles_x s;
     tiles_y := tiles_y s; samples := samples s;
     current_row := current_row s; current_col := col;
     current_x := x; current_y := current_y s |}.

(** One move of the body, from a control point to the next one. *)
Definition step (m : machine) : machine :=
  let s := self m in
  match pc m with
  | NotStarted =>
      (* lines 227-233 *)
      let l := {| l_width := tile_width s; l_height := tile_height s;
                  l_max_x := width (image s); l_max_y := height (image s);
                  l_original := image s |} in
      {| self := set_row_y s 0 0; pc := OuterTest l;
         allocated := allocated m |}
  | OuterTest l =>
      (* line 234, then 235-236 *)
      if current_y s + l_height l <=? l_max_y l
      then {| self := set_col_x s 0 0; pc := InnerTest l;
              allocated := allocated m |}
      else {| self := s; pc := Finished; allocated := allocated m |}
  | InnerTest l =>
      (* line 237, then 238-242, or 245-246 when the test fails *)
      if current_x s + l_width l <=? l_max_x l
      then
        let box := (current_x s, current_y s,
                    current_x s + l_width l - 1,
                    current_y s + l_height l - 1) in
        let '(x1, y1, x2, y2) := box in
        let new_px_plane :=
          {| oid := allocated m; bb := box;
             px_plane := submatrix (l_original l) x1 y1 x2 y2 |} in
        {| self := s; pc := Yielded l new_px_plane;
           allocated := S (allocated m) |}
      else {| self := set_row_y s (current_row s + 1)
                                  (current_y s + l_height l);
              pc := OuterTest l; allocated := allocated m |}
  | Yielded l _ =>
      (* the caller resumes the body: lines 243-244 *)
      {| self := set_col_x s (current_col s + 1)
                             (current_x s + l_width l);
         pc := InnerTest l; allocated := allocated m |}
  | Finished => m
  end.

(** What the caller has in hand while the body is suspended at the
    [yield]: the tile, and the instance with its cursor. *)
Record yielded := {
  y_tile : tile;
  y_self : SampleImageTiles
}.

Definition observe (m : machine) : list yielded :=
  match pc m with
  | Yielded _ t => [ {| y_tile := t; y_self := self m |} ]
  | _ => []
  end.

(** [run n m]: [n] moves from [m], with everything yielded on the way. *)
Fixpoint run (n : nat) (m : machine) : list yielded * machine :=
  match n with
  | O => ([], m)
  | S n' =>
      let m1 := step m in
      let '(ys, m2) := run n' m1 in
      (observe m1 ++ ys, m2)
  end.

(** [self.sample()] on an instance: a generator that has not started. *)
Definition sample (s : SampleImageTiles) : machine :=
  {| self := s; pc := NotStarted; allocated := 0 |}.

(** Consuming the generator to its end, as a [for] loop does, within
    [fuel] moves: the items, and the instance afterwards. *)
Definition sample_all (fuel : nat) (s : SampleImageTiles)
  : option (list yielded * SampleImageTiles) :=
  let '(ys, m) := run fuel (sample s) in
  match pc m with
  | Finished => Some (ys, self m)
  | _ => None
  end.

(** ** numpy: float64, error settings, arrays and masked arrays *)

Module np.

(** *** float64 *)

Definition prec : Z := 53.
Definition emax : Z := 1024.
Definition float64 := spec_float.

Definition fsub : float64 -> float64 -> float64 := SFsub prec emax.
Definition fmul : float64 -> float64 -> float64 := SFmul prec emax.
Definition fdiv : float64 -> float64 -> float64 := SFdiv prec emax.
Definition of_Z (z : Z) : float64 := binary_normalize prec emax z 0 false.

Definition isnan (x : float64) : bool :=
  match x with S754_nan => true | _ => false end.

Definition isinf (x : float64) : bool :=
  match x with S754_infinity _ => true | _ => false end.

Definition isfinite (x : float64) : bool :=
  match x with S754_nan | S754_infinity _ => false | _ => true end.

(** C's [<=] and [>=] on doubles: false as soon as an operand is NaN. *)
Definition le (a b : float64) : bool := SFleb a b.
Definition ge (a b : float64) : bool :=
  match SFcompare a b with
  | Some (Gt | Eq) => true
  | _ => false
  end.

(** The inner loops of the ufuncs [np.minimum] and [np.maximum]: the
    first operand when it is NaN or wins the comparison, the second one
    otherwise (so a NaN on either side comes out). *)
Definition minimum (in1 in2 : float64) : float64 :=
  if le in1 in2 || isnan in1 then in1 else in2.
Definition maximum (in1 in2 : float64) : float64 :=
  if ge in1 in2 || isnan in1 then in1 else in2.

Definition zero : float64 := S754_zero false.
Definition one : float64 := of_Z 1.
Definition hundred : float64 := of_Z 100.
Definition pinf : float64 := S754_infinity false.
Definition ninf : float64 := S754_infinity true.
Definition nan : float64 := S754_nan.

(** [np.finfo(float).tiny], the least positive normal number 2^-1022. *)
Definition tiny : float64 := S754_finite false (2 ^ 52) (-1074).

(** [numpy.ma.default_fill_value] of a float array. *)
Definition default_fill_value : float64 := of_Z (10 ^ 20).

(** *** The floating-point error settings ([np.seterr], [np.geterr]) *)

Inductive errmode :=
| err_ignore | err_warn | err_raise | err_call | err_print | err_log.

Record errsettings := {
  divide : errmode;
  over : errmode;
  under : errmode;
  invalid : errmode
}.

Definition all_ (m : errmode) : errsettings :=
  {| divide := m; over := m; under := m; invalid := m |}.

(** *** Arrays *)

(** A two-dimensional float64 array: its number of columns (kept apart,
    an array may have no row) and its rows. *)
Record ndarray := {
  ncols : nat;
  rows : list (list float64)
}.

(** One-dimensional arrays, plain or masked ([numpy.ma.MaskedArray]). *)
Inductive array1 :=
| ndarray1 (d : list float64)
| MaskedArray1 (d : list float64) (m : list bool).

Definition getdata (a : array1) : list float64 :=
  match a with ndarray1 d => d | MaskedArray1 d _ => d end.

(** [getmaskarray]: the mask, all [False] for an array without one. *)
Definition getmaskarray (a : array1) : list bool :=
  match a with
  | ndarray1 d => repeat false (length d)
  | MaskedArray1 _ m => m
  end.

Definition is_masked_array (a : array1) : bool :=
  match a with ndarray1 _ => false | MaskedArray1 _ _ => true end.

Fixpoint zip_with {A B C : Type} (f : A -> B -> C)
  (l : list A) (l' : list B) : list C :=
  match l, l' with
  | a :: t, b :: t' => f a b :: zip_with f t t'
  | _, _ => []
  end.

(** Broadcasting a vector along the rows of an array with [k] columns:
    it has [k] entries, or one entry that is repeated. *)
Definition broadcast_to {A : Type} (k : nat) (v : list A)
  : option (list A) :=
  if Nat.eqb (length v) k then Some v
  else match v with
       | [a] => Some (repeat a k)
       | _ => None
       end.

(** Broadcasting two vectors against each other. *)
Definition broadcast2 {A B C : Type} (f : A -> B -> C)
  (u : list A) (v : list B) : option (list C) :=
  if Nat.eqb (length u) (length v) then Some (zip_with f u v)
  else match u, v with
       | [a], _ => Some (map (f a) v)
       | _, [b] => Some (map (fun a => f a b) u)
       | _, _ => None
       end.

(** [np.where(cond, x, other)] for a scalar [x], along one row. *)
Definition where_ (cond : list bool) (x : float64) (other : list float64)
  : list float64 :=
  zip_with (fun (c : bool) o => if c then x else o) cond other.

End np.
Import np.

(** ** The state [normalize_by_columns] runs in *)

(** The caller's array [full_stack], which the function changes in place,
    and the error settings of numpy, which it sets and restores. *)
Record world := {
  errs : errsettings;
  full_stack : ndarray
}.

(** Computations that read and write the world and can raise. *)
Definition M (A : Type) : Type := world -> result A * world.

Definition ret {A : Type} (a : A) : M A := fun w => (Return a, w).

Definition bind {A B : Type} (c : M A) (k : A -> M B) : M B :=
  fun w =>
    match c w with
    | (Return a, w') => k a w'
    | (Raise e, w') => (Raise e, w')
    end.

Definition raise {A : Type} (c : exc_class) (msg : string) : M A :=
  fun w => (Raise {| cls := c; message := msg |}, w).

Declare Scope monad_scope.
Delimit Scope monad_scope with monad.
Notation "x <- c ;; k" := (bind c (fun x => k))
  (at level 61, c at next level, right associativity) : monad_scope.
Notation "c ;; k" := (bind c (fun _ => k))
  (at level 61, right associativity) : monad_scope.
Open Scope monad_scope.

(** [np.seterr]: called with [all='ignore'] on line 145 and with the
    saved settings as keywords on line 165; it installs the settings it
    is given and returns those that were in force. *)
Definition seterr (new : errsettings) : M errsettings :=
  fun w => (Return (errs w), {| errs := new; full_stack := full_stack w |}).

Definition get_stack : M ndarray := fun w => (Return (full_stack w), w).

(** Writing into [full_stack]: the array keeps its shape. *)
Definition set_rows (w : world) (r : list (list float64)) : world :=
  {| errs := errs w;
     full_stack := {| ncols := ncols (full_stack w); rows := r |} |}.

Definition put_rows (r : list (list float64)) : M unit :=
  fun w => (Return tt, set_rows w r).

Definition broadcast_error : string :=
  "operands could not be broadcast together".

Definition lift_broadcast {A : Type} (o : option A) : M A :=
  match o with
  | Some a => ret a
  | None => raise ValueError broadcast_error
  end.

(** *** Masked reductions along axis 0 *)

(** [np.ma.masked_invalid(a, copy=False)]: a masked view of [a] that
    shares its data; only the mask is new. *)
Definition masked_invalid (r : list (list float64)) : list (list bool) :=
  map (map (fun x => negb (isfinite x))) r.

(** [MaskedArray.filled(v)]. *)
Definition filled (v : float64) (r : list (list float64))
  (mask : list (list bool)) : list (list float64) :=
  zip_with (zip_with (fun x (b : bool) => if b then v else x)) r mask.

(** [ndarray.max(axis=0)] or [min]: the ufunc's reduction down each
    column, which needs a first row to start from. *)
Definition reduce_axis0 (f : float64 -> float64 -> float64)
  (r : list (list float64)) : M (list float64) :=
  match r with
  | [] => raise ValueError
            "zero-size array to reduction operation which has no identity"
  | r0 :: rs => ret (fold_left (zip_with f) rs r0)
  end.

(** [mask.all(axis=0)]. *)
Definition all_axis0 (k : nat) (mask : list (list bool)) : list bool :=
  fold_left (zip_with andb) mask (repeat true k).

(** [MaskedArray.max(axis=0)] ([extreme = np.maximum], filling with
    -inf) and [MaskedArray.min(axis=0)] ([np.minimum], +inf): the masked
    entries are filled with the neutral value, the columns reduced, and
    a column that was masked throughout comes out masked, its datum
    overwritten with the result's fill value. *)
Definition ma_reduce_axis0 (extreme : float64 -> float64 -> float64)
  (neutral : float64) (a : ndarray) (mask : list (list bool))
  : M array1 :=
  let newmask := all_axis0 (ncols a) mask in
  d <- reduce_axis0 extreme (filled neutral (rows a) mask) ;;
  ret (MaskedArray1
         (zip_with (fun x (b : bool) => if b then default_fill_value else x)
                   d newmask)
         newmask).

(** *** The steps of the function *)

(** Line 153, [full_stack.clip(mins, maxs, full_stack)] with array
    bounds: numpy (as of the Python 2 releases) computes
    [np.maximum(np.minimum(a, maxs), mins)], each ufunc writing into
    [full_stack]. *)
Definition clip (mins maxs : array1) : M unit :=
  a <- get_stack ;;
  hi <- lift_broadcast (broadcast_to (ncols a) (getdata maxs)) ;;
  put_rows (map (fun r => zip_with minimum r hi) (rows a)) ;;
  a <- get_stack ;;
  lo <- lift_broadcast (broadcast_to (ncols a) (getdata mins)) ;;
  put_rows (map (fun r => zip_with maximum r lo) (rows a)).

(** Line 158, [MaskedArray.__isub__]: the mask of the other operand is
    added to the view's mask, and the data are decreased by the other
    operand where the view is not masked, by 0 where it is. *)
Definition isub (mask : list (list bool)) (other : array1)
  : M (list (list bool)) :=
  a <- get_stack ;;
  om <- lift_broadcast (broadcast_to (ncols a) (getmaskarray other)) ;;
  od <- lift_broadcast (broadcast_to (ncols a) (getdata other)) ;;
  let mask' := map (fun mr => zip_with orb mr om) mask in
  put_rows
    (zip_with (fun r mr => zip_with fsub r (where_ mr zero od))
              (rows a) mask') ;;
  ret mask'.

(** Line 159, [maxs - mins]: elementwise on plain arrays; on masked
    arrays the result is masked where either operand is, and carries
    the left operand's datum there. *)
Definition sub1 (a b : array1) : M array1 :=
  d <- lift_broadcast (broadcast2 fsub (getdata a) (getdata b)) ;;
  if is_masked_array a || is_masked_array b then
    m <- lift_broadcast (broadcast2 orb (getmaskarray a) (getmaskarray b)) ;;
    da <- lift_broadcast (broadcast2 (fun x (_ : float64) => x)
                                     (getdata a) (getdata b)) ;;
    ret (MaskedArray1
           (zip_with (fun (bx : bool * float64) y =>
                        if fst bx then y else snd bx)
                     (zip_with pair m d) da)
           m)
  else ret (ndarray1 d).

(** [numpy.ma.core._DomainSafeDivide]: the positions where dividing is
    not safe, [absolute(a) * tiny >= absolute(b)]. *)
Definition domain_safe_divide (a b : float64) : bool :=
  ge (fmul (SFabs a) tiny) (SFabs b).

(** Line 159, [MaskedArray.__idiv__]: the view is masked also where the
    divisor is masked or the division is not safe, and the data are
    divided by the divisor where the view is not masked, by 1 where it
    is. *)
Definition idiv (mask : list (list bool)) (other : array1)
  : M (list (list bool)) :=
  a <- get_stack ;;
  od <- lift_broadcast (broadcast_to (ncols a) (getdata other)) ;;
  om <- lift_broadcast (broadcast_to (ncols a) (getmaskarray other)) ;;
  let dom_mask :=
    map (fun r => zip_with domain_safe_divide r od) (rows a) in
  let new_mask := map (fun dr => zip_with orb om dr) dom_mask in
  let mask' := zip_with (zip_with orb) mask new_mask in
  put_rows
    (zip_with (fun r mr => zip_with fdiv r (where_ mr one od))
              (rows a) mask') ;;
  ret mask'.

(** ** normalize_by_columns *)

Definition normalize_by_columns (mins maxs : option array1)
  : M (array1 * array1) :=
  oldsettings <- seterr (all_ err_ignore) ;;
  bounds <-
    match mins, maxs with
    | Some mins, Some maxs => ret (mins, maxs)
    | _, _ =>
        a <- get_stack ;;
        let full_stack_m := masked_invalid (rows a) in
        maxs <- ma_reduce_axis0 maximum ninf a full_stack_m ;;
        mins <- ma_reduce_axis0 minimum pinf a full_stack_m ;;
        ret (mins, maxs)
    end ;;
  let '(mins, maxs) := bounds in
  clip mins maxs ;;
  a <- get_stack ;;
  let full_stack_m := masked_invalid (rows a) in
  full_stack_m <- isub full_stack_m mins ;;
  range <- sub1 maxs mins ;;
  full_stack_m <- idiv full_stack_m range ;;
  a <- get_stack ;;
  put_rows (map (map (fun x => fmul x hundred))
                (filled zero (rows a) full_stack_m)) ;;
  seterr oldsettings ;;
  ret (mins, maxs).

(** ** The module's globals and [initialize_module] *)

(** A [ComputationTask] as the loop of lines 47-52 reads it: its [type],
    and the two enumerators the type is compared with, which SWIG
    exposes as attributes of every task.  The [name] tells the tasks
    apart. *)
Record ComputationTask := {
  name : string;
  type : Z;
  ImageTransformTask : Z;
  FeatureAlgorithmTask : Z
}.

(** What the module keeps between calls: its two lists, lines 33-34,
    and numpy's error settings. *)
Record globals := {
  Algorithms : list ComputationTask;
  Transforms : list ComputationTask;
  np_errs : errsettings
}.

(** The body of the [for] loop, lines 48-52. *)
Definition register (g : globals) (task : ComputationTask) : globals :=
  if type task =? ImageTransformTask task then
    {| Algorithms := Algorithms g;
       Transforms := Transforms g ++ [task];
       np_errs := np_errs g |}
  else if type task =? FeatureAlgorithmTask task then
    {| Algorithms := Algorithms g ++ [task];
       Transforms := Transforms g;
       np_errs := np_errs g |}
  else g.

(** [initialize_module()], where [all_tasks] is what
    [wndcharm.ComputationTaskInstances.getInstances()] returns. *)
Definition initialize_module (all_tasks : list ComputationTask)
  (g : globals) : globals :=
  let g' := fold_left register all_tasks g in
  {| Algorithms := Algorithms g';
     Transforms := Transforms g';
     np_errs := all_ err_raise |}.

(** Importing the module: lines 33-34, then line 248. *)
Definition import_module (all_tasks : list ComputationTask)
  (errs0 : errsettings) : globals :=
  initialize_module all_tasks
    {| Algorithms := []; Transforms := []; np_errs := errs0 |}.

(** ** The decorator [output_railroad_switch] *)

(** The objects the wrapper handles: strings, [None], and any other
    object (a file, a stream, a number, ...) by its identity. *)
Inductive object :=
| None_
| Str (s : string)
| Ref (id : nat).

(** [**kwargs]: a dict with string keys.  [dict_get] is both the test
    [k in kwargs] and the lookup [kwargs[k]]; [dict_del] is
    [del kwargs[k]]. *)
Definition dict := list (string * object).

Fixpoint dict_get (k : string) (d : dict) : option object :=
  match d with
  | [] => None
  | (k', v) :: d' => if String.eqb k k' then Some v else dict_get k d'
  end.

Fixpoint dict_del (k : string) (d : dict) : dict :=
  match d with
  | [] => []
  | (k', v) :: d' =>
      if String.eqb k k' then dict_del k d' else (k', v) :: dict_del k d'
  end.

Section Decorator.

(** Everything outside the interpreter: the files, the streams and what
    has been written to them. *)
Variable OS : Type.

(** The interpreter's binding of [sys.stdout], and the outside. *)
Record interp := {
  sys_stdout : object;
  os : OS
}.

Definition IO (A : Type) : Type := interp -> result A * interp.

Definition io_ret {A : Type} (a : A) : IO A := fun w => (Return a, w).

Definition io_bind {A B : Type} (c : IO A) (k : A -> IO B) : IO B :=
  fun w =>
    match c w with
    | (Return a, w') => k a w'
    | (Raise e, w') => (Raise e, w')
    end.

(** [try: body finally: final]: [final] runs however [body] ends, and
    the outcome is that of [body] unless [final] raises. *)
Definition try_finally {A : Type} (body : IO A) (final : IO unit) : IO A :=
  fun w =>
    let '(r, w1) := body w in
    match final w1 with
    | (Return _, w2) => (r, w2)
    | (Raise e, w2) => (Raise e, w2)
    end.

Declare Scope io_scope.
Notation "x <- c ;; k" := (io_bind c (fun x => k))
  (at level 61, c at next level, right associativity) : io_scope.
Notation "c ;; k" := (io_bind c (fun _ => k))
  (at level 61, right associativity) : io_scope.
Local Open Scope io_scope.

(** The operations of the outside: the [print] statement while
    [sys.stdout] is bound to the given object, the built-in [open], and
    the method [close] of an object.  Each can raise. *)
Variable print_to : object -> string -> OS -> result unit * OS.
Variable open_ : object -> object -> OS -> result object * OS.
Variable close : object -> OS -> result unit * OS.

(** How [str.format] renders an object. *)
Variable format_ : object -> string.

(** The decorated function, which may print and may rebind
    [sys.stdout], and its [__name__]. *)
Variable method_that_prints_output : list object -> dict -> IO object.
Variable __name__ : string.

Definition outside {A : Type} (f : OS -> result A * OS) : IO A :=
  fun w =>
    let '(r, o) := f (os w) in
    (r, {| sys_stdout := sys_stdout w; os := o |}).

Definition get_stdout : IO object := fun w => (Return (sys_stdout w), w).

Definition set_stdout (o : object) : IO unit :=
  fun w => (Return tt, {| sys_stdout := o; os := os w |}).

Definition print_ (s : string) : IO unit :=
  out <- get_stdout ;; outside (print_to out s).

Definition quote : string := String (Ascii.ascii_of_nat 34) EmptyString.

(** The texts of lines 96-97 and 107-108. *)
Definition saving_to_file (output_filepath mode : object) : string :=
  "Saving output of function " ++ quote ++ __name__ ++ "()" ++ quote
  ++ " to file " ++ quote ++ format_ output_filepath ++ quote
  ++ ", mode " ++ quote ++ format_ mode ++ quote.

Definition saving_to_stream : string :=
  "Saving output of function " ++ quote ++ __name__ ++ "()" ++ quote
  ++ " to stream".

(** Lines 85-118. *)
Definition print_method_wrapper (args : list object) (kwargs : dict)
  : IO object :=
  match dict_get "output_filepath" kwargs with
  | Some output_filepath =>
      let kwargs := dict_del "output_filepath" kwargs in
      let '(mode, kwargs) :=
        match dict_get "mode" kwargs with
        | Some mode => (mode, dict_del "mode" kwargs)
        | None => (Str "w", kwargs)
        end in
      print_ (saving_to_file output_filepath mode) ;;
      backup <- get_stdout ;;
      f <- outside (open_ output_filepath mode) ;;
      set_stdout f ;;
      retval <- method_that_prints_output args kwargs ;;
      out <- get_stdout ;;
      outside (close out) ;;
      set_stdout backup ;;
      io_ret retval
  | None =>
      match dict_get "output_stream" kwargs with
      | Some output_stream =>
          let kwargs := dict_del "output_stream" kwargs in
          print_ saving_to_stream ;;
          backup <- get_stdout ;;
          retval <- try_finally
                      (set_stdout output_stream ;;
                       method_that_prints_output args kwargs)
                      (set_stdout backup) ;;
          io_ret retval
      | None =>
          retval <- method_that_prints_output args kwargs ;;
          io_ret retval
      end
  end.

(** Line 120: the decorator returns the wrapper. *)
Definition output_railroad_switch : list object -> dict -> IO object :=
  print_method_wrapper.

End Decorator.

Arguments sys_stdout {OS} _.
Arguments os {OS} _.

(** A world to run the wrapper in: the outside is the list of the
    texts printed so far, each with the object [sys.stdout] was bound
    to, and the files opened and closed. *)
Inductive event :=
| Printed (to : object) (text : string)
| Opened (path mode : object)
| Closed (o : object).

Definition log_print (to : object) (text : string) (l : list event)
  : result unit * list event :=
  (Return tt, l ++ [Printed to text]).

Definition log_open (path mode : object) (l : list event)
  : result object * list event :=
  (Return (Ref (length l)), l ++ [Opened path mode]).

Definition log_close (o : object) (l : list event)
  : result unit * list event :=
  (Return tt, l ++ [Closed o]).

Definition show (o : object) : string :=
  match o with
  | None_ => "None"
  | Str s => s
  | Ref _ => "<object>"
  end.

(** A function that prints its keywords' names and returns [None], and
    one that prints and then raises. *)
Definition report (args : list object) (kwargs : dict)
  : IO (list event) object :=
  fun w =>
    (Return None_,
     {| sys_stdout := sys_stdout w;
        os := os w ++ [Printed (sys_stdout w)
                               (String.concat "," (map fst kwargs))] |}).

Definition failing (args : list object) (kwargs : dict)
  : IO (list event) object :=
  fun w =>
    (Raise {| cls := ValueError; message := "no report" |},
     {| sys_stdout := sys_stdout w;
        os := os w ++ [Printed (sys_stdout w) "starting"] |}).

Definition console : interp (list event) :=
  {| sys_stdout := Ref 0; os := [] |}.

(** A function that takes no [output_filepath]: it raises when it is
    given one. *)
Definition picky (args : list object) (kwargs : dict)
  : IO (list event) object :=
  match dict_get "output_filepath" kwargs with
  | Some _ => failing args kwargs
  | None => report args kwargs
  end.

(** Keywords for the two ways of redirecting, and the state in which
    the function runs after [open]. *)
Definition kw_stream : dict := [("output_stream"%string, Ref 7)].

Definition kw_file : dict :=
  [("output_filepath"%string, Str "out.txt");
   ("output_stream"%string, Ref 7)].

Definition announced : list event :=
  [Printed (Ref 0)
     (saving_to_file show "failing" (Str "out.txt") (Str "w"))].

Definition redirected : interp (list event) :=
  {| sys_stdout := Ref 1;
     os := announced ++ [Opened (Str "out.txt") (Str "w")] |}.

(** ** What a pass of [sample] is expected to yield

    The instance with its cursor at a given place, and the tiles of a
    grid in row-major order; the theorems below compare [run] with
    them. *)

Definition with_cursor (s : SampleImageTiles) (row col x y : Z)
  : SampleImageTiles :=
  {| image := image s; tile_width := tile_width s;
     tile_height := tile_height s; tiles_x := tiles_x s;
     tiles_y := tiles_y s; samples := samples s;
     current_row := row; current_col := col;
     current_x := x; current_y := y |}.

Definition locals_of (s : SampleImageTiles) : locals :=
  {| l_width := tile_width s; l_height := tile_height s;
     l_max_x := width (image s); l_max_y := height (image s);
     l_original := image s |}.

(** The item yielded for the tile in row [r] and column [c], when [a]
    objects were made before it. *)
Definition tile_at (s : SampleImageTiles) (a : nat) (r c : Z) : yielded :=
  let x := c * tile_width s in
  let y := r * tile_height s in
  {| y_tile :=
       {| oid := a;
          bb := (x, y, x + tile_width s - 1, y + tile_height s - 1);
          px_plane := submatrix (image s) x y (x + tile_width s - 1)
                                (y + tile_height s - 1) |};
     y_self := with_cursor s r c x y |}.

(** Columns [c], [c+1], ..., [c+n-1] of row [r]. *)
Definition row_from (s : SampleImageTiles) (a : nat) (r c : Z) (n : nat)
  : list yielded :=
  map (fun i => tile_at s (a + i) r (c + Z.of_nat i)) (seq 0 n).

(** Rows [r], ..., [r+n-1], each of [nx] columns. *)
Definition rows_from (s : SampleImageTiles) (nx : nat) (a : nat) (r : Z)
  (n : nat) : list yielded :=
  flat_map (fun j => row_from s (a + j * nx) (r + Z.of_nat j) 0 nx)
           (seq 0 n).

Definition grid (s : SampleImageTiles) (nx ny : nat) : list yielded :=
  rows_from s nx 0 0 ny.

(** The fields [__init__] sets are the same in [s] and [s']. *)
Definition same_configuration (s s' : SampleImageTiles) : Prop :=
  image s' = image s /\
  tile_width s' = tile_width s /\ tile_height s' = tile_height s /\
  tiles_x s' = tiles_x s /\ tiles_y s' = tiles_y s /\
  samples s' = samples s.

(** [isinstance(o, str) or isinstance(o, wndcharm.ImageMatrix)]. *)
Definition is_image_source (o : PyObject) : bool :=
  match o with PyStr _ | PyImageMatrix _ => true | _ => false end.

(** ** Concrete inputs *)

(** An image of the given size whose pixel at [(i, j)] holds its own
    index in row-major order. *)
Definition ramp (w h : Z) : ImageMatrix :=
  {| width := w; height := h; pixel := fun i j => i + w * j |}.

(** A file system without any file. *)
Definition no_file (path : string) : bool := false.
Definition cannot_open (im : ImageMatrix) (path : string)
  : Z * ImageMatrix := (0, im).

(** The instance made from an image handle of the given size. *)
Definition sampler_of (w h x y : Z) (is_fixed : bool)
  : result SampleImageTiles :=
  init no_file cannot_open (PyImageMatrix (ramp w h)) x y is_fixed.

(** The same instance written out, for the inputs used below. *)
Definition count_10_10_4_4 : SampleImageTiles :=
  {| image := ramp 10 10; tile_width := 2; tile_height := 2;
     tiles_x := 4; tiles_y := 4; samples := 16;
     current_row := 0; current_col := 0; current_x := 0; current_y := 0 |}.

Definition count_3_3_5_1 : SampleImageTiles :=
  {| image := ramp 3 3; tile_width := 0; tile_height := 3;
     tiles_x := 5; tiles_y := 1; samples := 5;
     current_row := 0; current_col := 0; current_x := 0; current_y := 0 |}.

(** ** What [normalize_by_columns] does to one entry

    The steps of lines 153-162 at a single position: [v] is the entry,
    [lo] and [hi] the bounds of its column and [mlo], [mhi] their mask
    bits (both [false] for plain arrays). *)

(** Line 153. *)
Definition clip_entry (lo hi v : float64) : float64 :=
  maximum (minimum v hi) lo.

(** The mask bit of the entry after line 158. *)
Definition masked_after_isub (lo hi : float64) (mlo : bool) (v : float64)
  : bool :=
  negb (isfinite (clip_entry lo hi v)) || mlo.

(** The datum after line 158. *)
Definition shifted_entry (lo hi : float64) (mlo : bool) (v : float64)
  : float64 :=
  fsub (clip_entry lo hi v)
       (if masked_after_isub lo hi mlo v then zero else lo).

(** The datum of [maxs - mins] in the entry's column. *)
Definition range_entry (lo hi : float64) (mlo mhi : bool) : float64 :=
  if mhi || mlo then hi else fsub hi lo.

(** The mask bit of the entry after line 159. *)
Definition masked_after_idiv (lo hi : float64) (mlo mhi : bool)
  (v : float64) : bool :=
  masked_after_isub lo hi mlo v
  || ((mhi || mlo)
      || domain_safe_divide (shifted_entry lo hi mlo v)
                            (range_entry lo hi mlo mhi)).

(** The datum after line 159, "after rescaling". *)
Definition rescaled_entry (lo hi : float64) (mlo mhi : bool) (v : float64)
  : float64 :=
  fdiv (shifted_entry lo hi mlo v)
       (if masked_after_idiv lo hi mlo mhi v then one
        else range_entry lo hi mlo mhi).

(** The entry written back on line 162. *)
Definition normalize_entry (lo hi : float64) (mlo mhi : bool) (v : float64)
  : float64 :=
  fmul (if masked_after_idiv lo hi mlo mhi v then zero
        else rescaled_entry lo hi mlo mhi v)
       hundred.

(** The bounds of the columns side by side, and a row against them. *)
Definition column_bounds (lo hi : list float64) (mlo mhi : list bool)
  : list (float64 * float64 * (bool * bool)) :=
  combine (combine lo hi) (combine mlo mhi).

Definition normalize_row (lo hi : list float64) (mlo mhi : list bool)
  (r : list float64) : list float64 :=
  zip_with (fun v (c : float64 * float64 * (bool * bool)) =>
              normalize_entry (fst (fst c)) (snd (fst c))
                              (fst (snd c)) (snd (snd c)) v)
           r (column_bounds lo hi mlo mhi).

(** Arrays as numpy makes them: every row of a two-dimensional array has
    [ncols] entries; the mask of a masked array has the shape of its
    data. *)
Definition well_formed (a : ndarray) : Prop :=
  Forall (fun r => length r = ncols a) (rows a).

Definition well_formed1 (a : array1) : Prop :=
  length (getmaskarray a) = length (getdata a).

(** A finite float64 is a [spec_float] whose mantissa and exponent are
    those of a binary64 number. *)
Definition valid (x : float64) : Prop := valid_binary prec emax x = true.

(** ** Concrete arrays *)

Definition world_of (k : nat) (r : list (list float64)) : world :=
  {| errs := all_ err_raise;
     full_stack := {| ncols := k; rows := r |} |}.

(** ** The derived bounds, in the spec's words

    The bounds are taken "per column from the matrix itself, treating
    NaN, +Inf, and -Inf as absent from the min/max reduction".
    [column j r] is
    column [j] of the rows [r]; its bound is the extreme of its finite
    entries, and masked when it has none. *)
Definition column (j : nat) (r : list (list float64)) : list float64 :=
  map (fun row => nth j row nan) r.

Definition bound_skipping_invalid (extreme : float64 -> float64 -> float64)
  (c : list float64) : float64 * bool :=
  match filter isfinite c with
  | [] => (default_fill_value, true)
  | x :: xs => (fold_left extreme xs x, false)
  end.

(** The bounds lines 148-150 derive from an array with at least one
    row. *)
Definition derived (extreme : float64 -> float64 -> float64)
  (neutral : float64) (a : ndarray) : array1 :=
  let mask := masked_invalid (rows a) in
  let newmask := all_axis0 (ncols a) mask in
  let f := filled neutral (rows a) mask in
  MaskedArray1
    (zip_with (fun x (b : bool) => if b then default_fill_value else x)
              (fold_left (zip_with extreme) (tl f) (hd [] f))
              newmask)
    newmask.

Definition derived_mins : ndarray -> array1 := derived minimum pinf.
Definition derived_maxs : ndarray -> array1 := derived maximum ninf.

(** A 1 x 2 array, three-entry bounds that do not fit it, and the
    one-column arrays of the spec's examples. *)
Definition stack_1x2 : world := world_of 2 [[of_Z 1; of_Z 2]].
Definition mins3 : array1 := ndarray1 [of_Z 0; of_Z 0; of_Z 0].
Definition maxs3 : array1 := ndarray1 [of_Z 1; of_Z 1; of_Z 1].

Definition column_of (l : list Z) : list (list float64) :=
  map (fun z => [of_Z z]) l.

(** ** Reading float64 values as integers

    The least exponent of a binary64 number is [emin = -1074]: every
    finite float64 is an integer multiple of [2 ^ emin], and [F2Z] is
    that multiple.  [mag m e] locates the number [m * 2 ^ e] between
    two powers of two: [2 ^ (mag m e - 1) <= m * 2 ^ e < 2 ^ mag m e]. *)
Definition emin : Z := SpecFloat.emin prec emax.
Definition fexp : Z -> Z := SpecFloat.fexp prec emax.

Definition F2Z (x : float64) : Z :=
  match x with
  | S754_finite s m e => cond_Zopp s (Zpos m * 2 ^ (e - emin))
  | _ => 0
  end.

Definition mag (m : positive) (e : Z) : Z := Zpos (digits2_pos m) + e.

(** The shape of what the rounding of a non-negative mantissa returns:
    a zero, or a number [m * 2 ^ e] of magnitude at most [k] and
    exponent at most [x]; an infinity only when [x] is beyond the
    greatest exponent; never NaN. *)
Definition rounded_within (s : bool) (k x : Z) (r : float64) : Prop :=
  match r with
  | S754_zero s' => s' = s
  | S754_finite s' m e =>
      s' = s /\ mag m e <= k /\ e <= x /\ e <= emax - prec
  | S754_infinity s' => s' = s /\ emax - prec < x
  | S754_nan => False
  end.

(** [rounds d r]: [r] is what a float64 operation may return when its
    exact result is [d * 2 ^ emin]: a zero only when [d] is 0, and
    otherwise a number of the sign of [d] whose magnitude is that of
    [d] or one more, or an infinity of that sign. *)
Definition rounds (d : Z) (r : float64) : Prop :=
  match r with
  | S754_zero _ => d = 0
  | S754_finite s m e =>
      d <> 0 /\ s = (d <? 0)
      /\ Zdigits2 (Z.abs d) + emin <= mag m e <= Zdigits2 (Z.abs d) + emin + 1
      /\ e <= emax - prec
  | S754_infinity s => d <> 0 /\ s = (d <? 0)
  | S754_nan => False
  end.

(** Bounds as a caller gives them: a well-formed array of valid
    numbers, or [None]. *)
Definition bounds_ok (o : option array1) : Prop :=
  match o with
  | Some a => well_formed1 a /\ Forall valid (getdata a)
  | None => True
  end.

Definition all_valid (a : ndarray) : Prop :=
  Forall (Forall valid) (rows a).

Definition all_finite (a : ndarray) : Prop :=
  Forall (Forall (fun x => isfinite x = true)) (rows a).

(** The arrays of the spec's examples: a column of three 7s, and a
    column that is NaN throughout next to a column 1, 3. *)
Definition sevens : world := world_of 1 (column_of [7; 7; 7]).
Definition nan_column : world :=
  world_of 2 [[nan; of_Z 1]; [nan; of_Z 3]].

(** ** Taking items from a generator

    [next(g)]: the body runs on from where it stands to its next
    [yield], whose item the caller gets, or to its end ([None] here,
    [StopIteration] in Python), within [fuel] moves. *)
Fixpoint next (fuel : nat) (m : machine)
  : option (option yielded * machine) :=
  match fuel with
  | O => None
  | S fuel' =>
      let m1 := step m in
      match pc m1 with
      | Yielded _ t => Some (Some {| y_tile := t; y_self := self m1 |}, m1)
      | Finished => Some (None, m1)
      | _ => next fuel' m1
      end
  end.

(** A generator has no instance of its own: its body reads and writes
    the attributes of the object [self] is bound to.  [on_instance s m]
    is the generator [m] at a time when the instance has become [s], by
    the moves of another generator made from the same object. *)
Definition on_instance (s : SampleImageTiles) (m : machine) : machine :=
  {| self := s; pc := pc m; allocated := allocated m |}.

(** The pixel [(p, q)] lies in the rectangle [b]. *)
Definition in_box (b : Z * Z * Z * Z) (p q : Z) : Prop :=
  let '(x1, y1, x2, y2) := b in
  x1 <= p <= x2 /\ y1 <= q <= y2.

(** The instance made in fixed mode from a 5 x 2 image with
    [x = y = 2]: two tiles, and a column of pixels left over. *)
Definition fixed_5_2_2_2 : SampleImageTiles :=
  {| image := ramp 5 2; tile_width := 2; tile_height := 2;
     tiles_x := 2; tiles_y := 1; samples := 2;
     current_row := 0; current_col := 0; current_x := 0; current_y := 0 |}.

(** Two generators stand at the same place: same control point, same
    number of objects made, same configuration of the instance, and
    the same cursor as far as the body has set it on its way there. *)
Definition same_place (m m' : machine) : Prop :=
  pc m = pc m' /\ allocated m = allocated m'
  /\ same_configuration (self m) (self m')
  /\ match pc m with
     | NotStarted => True
     | OuterTest _ | Finished =>
         current_row (self m) = current_row (self m')
         /\ current_y (self m) = current_y (self m')
     | InnerTest _ | Yielded _ _ => self m = self m'
     end.

(** A bound as numpy makes it: [None], or an array whose mask, if it
    has one, has the shape of its data. *)
Definition bounds_shape (o : option array1) : Prop :=
  match o with
  | Some a => well_formed1 a
  | None => True
  end.

(** ** Rounding to nearest, on integers

    [rne m k]: the integer nearest to [m / 2 ^ k], the even one of the
    two when [m] lies half-way between them. *)
Definition rne (m k : Z) : Z :=
  let q := m / 2 ^ k in
  let rho := m mod 2 ^ k in
  if 2 * rho <? 2 ^ k then q
  else if 2 ^ k <? 2 * rho then q + 1
  else if Z.even q then q else q + 1.

(** [rnd D]: the multiple [D] of [2 ^ emin] rounded to a float64, as a
    multiple of [2 ^ emin] again: [D] keeps its 53 leading bits. *)
Definition rnd (D : Z) : Z :=
  let n := fexp (Zdigits2 D + emin) - emin in
  rne D n * 2 ^ n.

(** A zero, or a positive number [m * 2 ^ e] that is at most 100. *)
Definition within_0_100 (x : float64) : Prop :=
  match x with
  | S754_zero _ => True
  | S754_finite s m e =>
      s = false /\ emin <= e /\ Zpos m * 2 ^ (e - emin) <= 100 * 2 ^ (- emin)
  | _ => False
  end.

(** A zero, or a positive number [m * 2 ^ e] that is at most 1. *)
Definition within_0_1 (x : float64) : Prop :=
  match x with
  | S754_zero _ => True
  | S754_finite s m e =>
      s = false /\ emin <= e /\ Zpos m * 2 ^ (e - emin) <= 2 ^ (- emin)
  | _ => False
  end.

(** * Properties of the tile sampler *)

Lemma run_app (n k : nat) (m : machine) :
  run (n + k) m =
  let '(ys, m1) := run n m in
  let '(ys', m2) := run k m1 in
  (ys ++ ys', m2).
Proof.
  revert m; induction n as [|n IH]; intros m; simpl.
  - destruct (run k m); reflexivity.
  - rewrite IH. destruct (run n (step m)) as [ys m1].
    destruct (run k m1) as [ys' m2]. now rewrite app_assoc.
Qed.

Lemma run_finished (n : nat) (m : machine) :
  pc m = Finished -> run n m = ([], m).
Proof.
  intros H. induction n as [|n IH]; simpl; [reflexivity|].
  assert (Hs : step m = m) by (unfold step; now rewrite H).
  rewrite Hs, IH. unfold observe. now rewrite H.
Qed.

Lemma step_same_configuration (m : machine) :
  same_configuration (self m) (self (step m)).
Proof.
  unfold step, same_configuration.
  destruct (pc m) as [|l|l|l t|]; simpl.
  - tauto.
  - destruct (_ <=? _); simpl; tauto.
  - destruct (_ <=? _); simpl; tauto.
  - tauto.
  - tauto.
Qed.

Lemma run_same_configuration (n : nat) (m : machine) :
  same_configuration (self m) (self (snd (run n m))).
Proof.
  revert m; induction n as [|n IH]; intros m; simpl.
  - unfold same_configuration; tauto.
  - specialize (IH (step m)). destruct (run n (step m)) as [ys m2]; simpl in *.
    pose proof (step_same_configuration m) as H.
    unfold same_configuration in *.
    intuition congruence.
Qed.

Lemma with_cursor_eq (s : SampleImageTiles) (r r' c c' x x' y y' : Z) :
  r = r' -> c = c' -> x = x' -> y = y' ->
  with_cursor s r c x y = with_cursor s r' c' x' y'.
Proof. congruence. Qed.

Section Loops.

Variable s : SampleImageTiles.
Let w := tile_width s.
Let h := tile_height s.
Hypothesis w_pos : 0 < w.

Lemma step_inner_yield (r c : Z) (a : nat) :
  (c + 1) * w <= width (image s) ->
  step {| self := with_cursor s r c (c * w) (r * h);
          pc := InnerTest (locals_of s); allocated := a |}
  = {| self := with_cursor s r c (c * w) (r * h);
       pc := Yielded (locals_of s) (y_tile (tile_at s a r c));
       allocated := S a |}.
Proof.
  intros Hb.
  assert (Ht : (c * w + tile_width s <=? width (image s)) = true).
  { apply Z.leb_le. subst w. lia. }
  unfold step; simpl. rewrite Ht. reflexivity.
Qed.

Lemma step_resume (r c : Z) (a : nat) (t : tile) :
  step {| self := with_cursor s r c (c * w) (r * h);
          pc := Yielded (locals_of s) t; allocated := a |}
  = {| self := with_cursor s r (c + 1) ((c + 1) * w) (r * h);
       pc := InnerTest (locals_of s); allocated := a |}.
Proof.
  unfold step; simpl. f_equal.
  unfold set_col_x, with_cursor; simpl. f_equal. subst w; lia.
Qed.

(** One turn of the inner loop: the test of line 237 succeeds, the
    tile is yielded, and the caller resumes the body. *)
Lemma inner_turn (r c : Z) (a : nat) :
  (c + 1) * w <= width (image s) ->
  run 2 {| self := with_cursor s r c (c * w) (r * h);
           pc := InnerTest (locals_of s); allocated := a |}
  = ([tile_at s a r c],
     {| self := with_cursor s r (c + 1) ((c + 1) * w) (r * h);
        pc := InnerTest (locals_of s); allocated := S a |}).
Proof.
  intros Hb. cbn [run].
  rewrite step_inner_yield by assumption. rewrite step_resume.
  reflexivity.
Qed.

(** Leaving the inner loop: the test of line 237 fails. *)
Lemma inner_exit (r c : Z) (a : nat) :
  width (image s) < (c + 1) * w ->
  run 1 {| self := with_cursor s r c (c * w) (r * h);
           pc := InnerTest (locals_of s); allocated := a |}
  = ([],
     {| self := with_cursor s (r + 1) c (c * w) ((r + 1) * h);
        pc := OuterTest (locals_of s); allocated := a |}).
Proof.
  intros Hb.
  assert (Ht : (c * w + tile_width s <=? width (image s)) = false).
  { apply Z.leb_gt. subst w. lia. }
  simpl. unfold step; simpl. rewrite Ht.
  unfold observe; simpl.
  f_equal. f_equal.
  unfold set_row_y, with_cursor; simpl. f_equal; subst h; lia.
Qed.

(** The inner loop, entered at column [c] of row [r] with [n] tiles
    left in the row: [2n+1] moves, [n] tiles. *)
Lemma inner_loop (r : Z) (n : nat) : forall (c : Z) (a : nat),
  0 <= c ->
  (c + Z.of_nat n) * w <= width (image s) < (c + Z.of_nat n + 1) * w ->
  run (2 * n + 1)
      {| self := with_cursor s r c (c * w) (r * h);
         pc := InnerTest (locals_of s); allocated := a |}
  = (row_from s a r c n,
     {| self := with_cursor s (r + 1) (c + Z.of_nat n)
                            ((c + Z.of_nat n) * w) ((r + 1) * h);
        pc := OuterTest (locals_of s); allocated := (a + n)%nat |}).
Proof.
  induction n as [|n IH]; intros c a Hc Hb.
  - change (2 * 0 + 1)%nat with 1%nat.
    rewrite inner_exit by lia.
    unfold row_from; simpl. f_equal. f_equal; [|lia].
    apply with_cursor_eq; lia.
  - replace (2 * S n + 1)%nat with (2 + (2 * n + 1))%nat by lia.
    rewrite run_app, inner_turn by nia.
    rewrite (IH (c + 1) (S a)) by lia.
    f_equal.
    + unfold row_from. simpl. f_equal.
      * rewrite Nat.add_0_r, Z.add_0_r. reflexivity.
      * rewrite <- seq_shift, map_map. apply map_ext; intros i.
        f_equal; lia.
    + f_equal; [|lia]. apply with_cursor_eq; lia.
Qed.

Hypothesis h_pos : 0 < h.

Variable nx : nat.
Hypothesis nx_columns :
  Z.of_nat nx * w <= width (image s) < (Z.of_nat nx + 1) * w.

(** One turn of the outer loop: the test of line 234 succeeds and a
    whole row is yielded.  The column cursor the turn starts with is
    whatever the previous row left. *)
Lemma outer_turn (r c0 x0 : Z) (a : nat) :
  (r + 1) * h <= height (image s) ->
  run (2 * nx + 2)
      {| self := with_cursor s r c0 x0 (r * h);
         pc := OuterTest (locals_of s); allocated := a |}
  = (row_from s a r 0 nx,
     {| self := with_cursor s (r + 1) (Z.of_nat nx) (Z.of_nat nx * w)
                            ((r + 1) * h);
        pc := OuterTest (locals_of s); allocated := (a + nx)%nat |}).
Proof.
  intros Hb.
  replace (2 * nx + 2)%nat with (1 + (2 * nx + 1))%nat by lia.
  rewrite run_app.
  assert (Ht : (r * h + tile_height s <=? height (image s)) = true).
  { apply Z.leb_le. subst h. lia. }
  assert (H1 : run 1 {| self := with_cursor s r c0 x0 (r * h);
                        pc := OuterTest (locals_of s); allocated := a |}
               = ([], {| self := with_cursor s r 0 (0 * w) (r * h);
                         pc := InnerTest (locals_of s);
                         allocated := a |})).
  { cbn [run]. unfold step; simpl. rewrite Ht. reflexivity. }
  rewrite H1, inner_loop by (simpl; lia).
  reflexivity.
Qed.

Lemma rows_from_S (a : nat) (r : Z) (n : nat) :
  rows_from s nx a r (S n)
  = row_from s a r 0 nx ++ rows_from s nx (a + nx) (r + 1) n.
Proof.
  unfold rows_from. simpl. f_equal.
  - f_equal; lia.
  - rewrite <- seq_shift, flat_map_concat_map, map_map,
      <- flat_map_concat_map.
    apply flat_map_ext; intros j. f_equal; lia.
Qed.

(** The outer loop with [n] rows left: it ends in [Finished]. *)
Lemma outer_loop (n : nat) : forall (r c0 x0 : Z) (a : nat),
  0 <= r ->
  (r + Z.of_nat n) * h <= height (image s) < (r + Z.of_nat n + 1) * h ->
  exists c1 x1,
    run (n * (2 * nx + 2) + 1)
        {| self := with_cursor s r c0 x0 (r * h);
           pc := OuterTest (locals_of s); allocated := a |}
    = (rows_from s nx a r n,
       {| self := with_cursor s (r + Z.of_nat n) c1 x1
                              ((r + Z.of_nat n) * h);
          pc := Finished; allocated := (a + n * nx)%nat |}).
Proof.
  induction n as [|n IH]; intros r c0 x0 a Hr Hb.
  - exists c0, x0. change (0 * (2 * nx + 2) + 1)%nat with 1%nat.
    assert (Ht : (r * h + tile_height s <=? height (image s)) = false).
    { apply Z.leb_gt. subst h. simpl in Hb. lia. }
    cbn [run]. unfold step; simpl. rewrite Ht. unfold observe; simpl.
    f_equal. f_equal; [|lia]. apply with_cursor_eq; lia.
  - replace (S n * (2 * nx + 2) + 1)%nat
      with ((2 * nx + 2) + (n * (2 * nx + 2) + 1))%nat by lia.
    rewrite run_app, outer_turn by nia.
    destruct (IH (r + 1) (Z.of_nat nx) (Z.of_nat nx * w) (a + nx)%nat)
      as (c1 & x1 & E); [lia | lia |].
    exists c1, x1. rewrite E, rows_from_S.
    f_equal. f_equal; [|lia]. apply with_cursor_eq; lia.
Qed.

End Loops.

(** A full pass over an instance with positive tile sizes ends, after
    yielding the tiles of the grid that fits into the image, row by
    row. *)
Lemma sample_all_grid (s : SampleImageTiles) (nx ny : nat) :
  0 < tile_width s -> 0 < tile_height s ->
  Z.of_nat nx * tile_width s <= width (image s)
    < (Z.of_nat nx + 1) * tile_width s ->
  Z.of_nat ny * tile_height s <= height (image s)
    < (Z.of_nat ny + 1) * tile_height s ->
  exists s',
    sample_all (ny * (2 * nx + 2) + 2) s = Some (grid s nx ny, s')
    /\ same_configuration s s'.
Proof.
  intros Hw Hh Hx Hy.
  destruct (outer_loop s Hw Hh nx Hx ny 0 (current_col s) (current_x s) 0%nat)
    as (c1 & x1 & E); [lia | simpl; lia |].
  exists (with_cursor s (0 + Z.of_nat ny) c1 x1
                      ((0 + Z.of_nat ny) * tile_height s)).
  split; [|unfold same_configuration; simpl; tauto].
  unfold sample_all.
  replace (ny * (2 * nx + 2) + 2)%nat
    with (1 + (ny * (2 * nx + 2) + 1))%nat by lia.
  rewrite run_app.
  assert (H1 : run 1 (sample s)
               = ([], {| self := with_cursor s 0 (current_col s)
                                             (current_x s)
                                             (0 * tile_height s);
                         pc := OuterTest (locals_of s);
                         allocated := 0 |})).
  { reflexivity. }
  rewrite H1, E. reflexivity.
Qed.

Lemma length_row_from (s : SampleImageTiles) (a : nat) (r c : Z) (n : nat) :
  length (row_from s a r c n) = n.
Proof. unfold row_from. now rewrite length_map, length_seq. Qed.

Lemma length_rows_from (s : SampleImageTiles) (nx n : nat) :
  forall (a : nat) (r : Z), length (rows_from s nx a r n) = (n * nx)%nat.
Proof.
  induction n as [|n IH]; intros a r; [reflexivity|].
  rewrite rows_from_S, length_app, length_row_from, IH. lia.
Qed.

Lemma length_grid (s : SampleImageTiles) (nx ny : nat) :
  length (grid s nx ny) = (ny * nx)%nat.
Proof. apply length_rows_from. Qed.

Lemma nth_error_row_from (s : SampleImageTiles) (a : nat) (r c : Z)
  (n k : nat) :
  (k < n)%nat ->
  nth_error (row_from s a r c n) k
  = Some (tile_at s (a + k) r (c + Z.of_nat k)).
Proof.
  intros Hk. unfold row_from.
  rewrite nth_error_map, nth_error_seq.
  destruct (Nat.ltb_spec k n); [reflexivity | lia].
Qed.

(** The [k]-th item of a grid of [nx] columns is the tile of row
    [k / nx] and column [k mod nx], and it is the [k]-th object made. *)
Lemma nth_error_rows_from (s : SampleImageTiles) (nx n : nat) :
  forall (a : nat) (r : Z) (k : nat),
  (k < n * nx)%nat ->
  nth_error (rows_from s nx a r n) k
  = Some (tile_at s (a + k) (r + Z.of_nat k / Z.of_nat nx)
                  (Z.of_nat k mod Z.of_nat nx)).
Proof.
  induction n as [|n IH]; intros a r k Hk; [lia|].
  assert (Hnx : (0 < nx)%nat) by (destruct nx; lia).
  rewrite rows_from_S.
  destruct (Nat.ltb_spec k nx) as [Hlt|Hge].
  - rewrite nth_error_app1 by (rewrite length_row_from; lia).
    rewrite nth_error_row_from by lia.
    rewrite Z.div_small, Z.mod_small by lia.
    f_equal. f_equal; lia.
  - rewrite nth_error_app2 by (rewrite length_row_from; lia).
    rewrite length_row_from, IH by lia.
    replace (Z.of_nat k) with (Z.of_nat (k - nx) + 1 * Z.of_nat nx) by lia.
    rewrite Z.div_add, Z.mod_add by lia.
    f_equal. f_equal; lia.
Qed.

Lemma nth_error_grid (s : SampleImageTiles) (nx ny k : nat) :
  (k < ny * nx)%nat ->
  nth_error (grid s nx ny) k
  = Some (tile_at s k (Z.of_nat k / Z.of_nat nx)
                  (Z.of_nat k mod Z.of_nat nx)).
Proof.
  intros Hk. unfold grid. now rewrite nth_error_rows_from.
Qed.

(** The number of tiles of size [w] that fit into a length [W]. *)
Lemma fits (W w : Z) :
  0 < w -> 0 <= W ->
  Z.of_nat (Z.to_nat (W / w)) * w <= W
    < (Z.of_nat (Z.to_nat (W / w)) + 1) * w.
Proof.
  intros Hw HW.
  assert (0 <= W / w) by (apply Z.div_pos; lia).
  rewrite Z2Nat.id by assumption.
  pose proof (Z.mul_div_le W w Hw).
  pose proof (Z.mul_succ_div_gt W w Hw).
  lia.
Qed.

(** In fixed mode the pass yields one tile per sample: the tile size is
    [x] by [y], and [tiles_x], [tiles_y] are the numbers that fit. *)
Lemma fixed_mode_pass (exists_ : string -> bool)
  (OpenImage : ImageMatrix -> string -> Z * ImageMatrix)
  (image_in : PyObject) (x y : Z) (s : SampleImageTiles) :
  0 < x -> 0 < y ->
  init exists_ OpenImage image_in x y true = Return s ->
  0 <= width (image s) -> 0 <= height (image s) ->
  exists fuel s',
    sample_all fuel s
    = Some (grid s (Z.to_nat (tiles_x s)) (Z.to_nat (tiles_y s)), s')
    /\ Z.of_nat (length (grid s (Z.to_nat (tiles_x s))
                              (Z.to_nat (tiles_y s)))) = samples s.
Proof.
  intros Hx Hy Hinit HW HH.
  unfold init in Hinit. destruct (init_image _ _ image_in) as [im|e];
    [|discriminate].
  unfold init_tiling, py_div in Hinit.
  destruct (Z.eqb_spec x 0); [lia|]. destruct (Z.eqb_spec y 0); [lia|].
  injection Hinit as <-. simpl in *.
  destruct (sample_all_grid
              {| image := im; tile_width := x; tile_height := y;
                 tiles_x := width im / x; tiles_y := height im / y;
                 samples := width im / x * (height im / y);
                 current_row := 0; current_col := 0;
                 current_x := 0; current_y := 0 |}
              (Z.to_nat (width im / x)) (Z.to_nat (height im / y)))
    as (s' & E & _); simpl; try assumption; try (apply fits; assumption).
  eexists _, s'. split; [exact E|].
  rewrite length_grid, Nat2Z.inj_mul, !Z2Nat.id
    by (apply Z.div_pos; lia).
  lia.
Qed.

(** ** Construction *)

(** C5: for positive [x] and [y], in both modes, a constructed instance
    has [samples = tiles_x * tiles_y], its grid fits into the image
    ([tiles_x * tile_width <= width], [tiles_y * tile_height <= height]),
    and no move of [sample] changes these fields. *)
Theorem C5_construction_invariants (exists_ : string -> bool)
  (OpenImage : ImageMatrix -> string -> Z * ImageMatrix)
  (image_in : PyObject) (x y : Z) (is_fixed : bool)
  (s : SampleImageTiles) :
  0 < x -> 0 < y ->
  init exists_ OpenImage image_in x y is_fixed = Return s ->
  samples s = tiles_x s * tiles_y s
  /\ tiles_x s * tile_width s <= width (image s)
  /\ tiles_y s * tile_height s <= height (image s)
  /\ forall n : nat, same_configuration s (self (snd (run n (sample s)))).
Proof.
  intros Hx Hy Hinit.
  split; [|split; [|split]]; try (intros n; apply (run_same_configuration n (sample s)));
    unfold init in Hinit;
    destruct (init_image _ _ image_in) as [im|e]; try discriminate;
    unfold init_tiling, py_div in Hinit;
    destruct (Z.eqb_spec x 0); try lia; destruct (Z.eqb_spec y 0); try lia;
    destruct is_fixed; injection Hinit as <-; simpl;
    try reflexivity.
  - pose proof (Z.mul_div_le (width im) x Hx). lia.
  - pose proof (Z.mul_div_le (width im) x Hx). lia.
  - pose proof (Z.mul_div_le (height im) y Hy). lia.
  - pose proof (Z.mul_div_le (height im) y Hy). lia.
Qed.

Lemma C5_witness :
  0 < 4 /\ 0 < 3
  /\ exists s, sampler_of 105 52 4 3 false = Return s
     /\ tile_width s = 26 /\ tile_height s = 17
     /\ samples s = tiles_x s * tiles_y s
     /\ tiles_x s * tile_width s <= width (image s)
     /\ tiles_y s * tile_height s <= height (image s)
     /\ forall n : nat, same_configuration s (self (snd (run n (sample s)))).
Proof.
  split; [lia|]. split; [lia|].
  eexists. split; [reflexivity|]. split; [reflexivity|].
  split; [reflexivity|].
  apply (C5_construction_invariants no_file cannot_open
           (PyImageMatrix (ramp 105 52)) 4 3 false); [lia | lia | reflexivity].
Defined.

(** C4, as the code has it: the three failures of the image source raise
    [ValueError] (there is no [InputError], and the error for a wrong
    kind of [image_in] is not a [TypeError]); with an image handle, or a
    path that exists and decodes, and non-zero [x] and [y], the
    construction succeeds. *)
Theorem C4_construction_errors (exists_ : string -> bool)
  (OpenImage : ImageMatrix -> string -> Z * ImageMatrix)
  (image_in : PyObject) (x y : Z) (is_fixed : bool) :
  (forall path, image_in = PyStr path -> exists_ path = false ->
     exists e, init exists_ OpenImage image_in x y is_fixed = Raise e
               /\ cls e = ValueError)
  /\ (forall path, image_in = PyStr path -> exists_ path = true ->
        fst (OpenImage new_ImageMatrix path) <> 1 ->
        exists e, init exists_ OpenImage image_in x y is_fixed = Raise e
                  /\ cls e = ValueError)
  /\ (is_image_source image_in = false ->
        exists e, init exists_ OpenImage image_in x y is_fixed = Raise e
                  /\ cls e = ValueError)
  /\ (forall path, image_in = PyStr path -> exists_ path = true ->
        fst (OpenImage new_ImageMatrix path) = 1 ->
        x <> 0 -> y <> 0 ->
        exists s, init exists_ OpenImage image_in x y is_fixed = Return s
                  /\ image s = snd (OpenImage new_ImageMatrix path))
  /\ (forall im, image_in = PyImageMatrix im ->
        x <> 0 -> y <> 0 ->
        exists s, init exists_ OpenImage image_in x y is_fixed = Return s
                  /\ image s = im).
Proof.
  assert (Tiling : forall im, x <> 0 -> y <> 0 ->
            exists s, init_tiling im x y is_fixed = Return s /\ image s = im).
  { intros im Hx Hy. unfold init_tiling, py_div.
    destruct (Z.eqb_spec x 0); [contradiction|].
    destruct (Z.eqb_spec y 0); [contradiction|].
    destruct is_fixed; eexists; split; reflexivity. }
  split; [|split; [|split; [|split]]].
  - intros path -> He. unfold init, init_image. rewrite He. simpl.
    eexists; split; reflexivity.
  - intros path -> He Hst. unfold init, init_image. rewrite He.
    destruct (OpenImage new_ImageMatrix path) as [status im]. simpl in Hst.
    assert (E : (1 =? status) = false) by (apply Z.eqb_neq; congruence).
    rewrite E. cbn [negb].
    eexists; split; reflexivity.
  - intros Hsrc. unfold init.
    destruct image_in; try discriminate; simpl; eexists; split; reflexivity.
  - intros path -> He Hst Hx Hy. unfold init, init_image. rewrite He.
    destruct (OpenImage new_ImageMatrix path) as [status im].
    cbn [fst snd] in *. subst status. cbn [negb Z.eqb Pos.eqb].
    now apply Tiling.
  - intros im -> Hx Hy. unfold init, init_image. now apply Tiling.
Qed.

Lemma C4_witness :
  exists s, sampler_of 100 50 10 5 true = Return s
            /\ image s = ramp 100 50.
Proof.
  apply (C4_construction_errors no_file cannot_open
           (PyImageMatrix (ramp 100 50)) 10 5 true);
    [reflexivity | lia | lia].
Defined.

(** C4, as the claim states it, fails: an [image_in] that is neither a
    string nor an [ImageMatrix] (here [None]) raises a [ValueError],
    which is not a [TypeError]. *)
Lemma C4_counterexample :
  ~ exists e, init no_file cannot_open PyNone 1 1 false = Raise e
              /\ issubclass (cls e) TypeError = true.
Proof.
  intros (e & He & Hc). simpl in He. injection He as <-. discriminate.
Qed.

(** With an image in hand, a zero divisor makes the construction raise
    [ZeroDivisionError]. *)
Lemma zero_x_raises (exists_ : string -> bool)
  (OpenImage : ImageMatrix -> string -> Z * ImageMatrix)
  (im : ImageMatrix) (y : Z) (is_fixed : bool) :
  exists e, init exists_ OpenImage (PyImageMatrix im) 0 y is_fixed = Raise e
            /\ cls e = ZeroDivisionError.
Proof.
  unfold init, init_image, init_tiling. simpl.
  destruct is_fixed; eexists; split; reflexivity.
Qed.

(** ** The pass *)

(** Once a pass has finished within some fuel, more fuel changes
    nothing. *)
Lemma sample_all_more_fuel (n k : nat) (s : SampleImageTiles)
  (r : list yielded * SampleImageTiles) :
  sample_all n s = Some r -> sample_all (n + k) s = Some r.
Proof.
  unfold sample_all. rewrite run_app.
  destruct (run n (sample s)) as [ys m].
  destruct (pc m) eqn:E; try discriminate.
  intros H. rewrite (run_finished k m E), E, app_nil_r. exact H.
Qed.

(** What the caller sees at the [k]-th item of a pass over an instance
    with positive tile sizes, [nx] being the number of tiles that fit
    across: the cursor is at row [k / nx], column [k mod nx] and at the
    tile's top-left pixel; the tile is the rectangle of the tile size at
    that pixel, cut from the source image into the [k]-th object of the
    pass. *)
Lemma pass_item (s : SampleImageTiles) (nx ny k : nat) :
  0 < tile_width s -> 0 < tile_height s ->
  Z.of_nat nx * tile_width s <= width (image s)
    < (Z.of_nat nx + 1) * tile_width s ->
  Z.of_nat ny * tile_height s <= height (image s)
    < (Z.of_nat ny + 1) * tile_height s ->
  (k < ny * nx)%nat ->
  exists ys s' y,
    sample_all (ny * (2 * nx + 2) + 2) s = Some (ys, s')
    /\ length ys = (ny * nx)%nat
    /\ nth_error ys k = Some y
    /\ current_row (y_self y) = Z.of_nat k / Z.of_nat nx
    /\ current_col (y_self y) = Z.of_nat k mod Z.of_nat nx
    /\ current_x (y_self y) = current_col (y_self y) * tile_width s
    /\ current_y (y_self y) = current_row (y_self y) * tile_height s
    /\ bb (y_tile y)
       = (current_x (y_self y), current_y (y_self y),
          current_x (y_self y) + tile_width s - 1,
          current_y (y_self y) + tile_height s - 1)
    /\ width (px_plane (y_tile y)) = tile_width s
    /\ height (px_plane (y_tile y)) = tile_height s
    /\ (forall i j, pixel (px_plane (y_tile y)) i j
                    = pixel (image s) (current_x (y_self y) + i)
                            (current_y (y_self y) + j))
    /\ oid (y_tile y) = k.
Proof.
  intros Hw Hh Hx Hy Hk.
  destruct (sample_all_grid s nx ny Hw Hh Hx Hy) as (s' & E & _).
  exists (grid s nx ny), s', (tile_at s k (Z.of_nat k / Z.of_nat nx)
                                      (Z.of_nat k mod Z.of_nat nx)).
  split; [exact E|]. split; [apply length_grid|].
  split; [now apply nth_error_grid|].
  simpl. repeat split; lia.
Qed.

(** In count mode the tile width is the quotient [width / x]; when it
    is 0 the test of line 237 never fails and the inner loop turns
    for ever, a tile each turn. *)
Lemma zero_width_turns (s : SampleImageTiles) :
  tile_width s = 0 -> 0 <= width (image s) ->
  tile_height s <= height (image s) ->
  forall k : nat,
    run (2 + 2 * k) (sample s)
    = (row_from s 0 0 0 k,
       {| self := with_cursor s 0 (Z.of_nat k)
                              (Z.of_nat k * tile_width s)
                              (0 * tile_height s);
          pc := InnerTest (locals_of s); allocated := k |}).
Proof.
  intros Hw HW Hh k. induction k as [|k IH].
  - assert (Ht : (tile_height s <=? height (image s)) = true)
      by (apply Z.leb_le; lia).
    cbn [run Nat.add Nat.mul]. unfold sample, step; simpl.
    rewrite Ht. reflexivity.
  - replace (2 + 2 * S k)%nat with ((2 + 2 * k) + 2)%nat by lia.
    rewrite run_app, IH, inner_turn by (rewrite Hw; lia).
    f_equal.
    + unfold row_from. rewrite seq_S, map_app. reflexivity.
    + f_equal. apply with_cursor_eq; lia.
Qed.

Lemma zero_width_never_finishes (s : SampleImageTiles) :
  tile_width s = 0 -> 0 <= width (image s) ->
  tile_height s <= height (image s) ->
  forall fuel : nat, sample_all fuel s = None.
Proof.
  intros Hw HW Hh fuel.
  destruct (sample_all fuel s) as [r|] eqn:E; [|reflexivity].
  apply (sample_all_more_fuel fuel (fuel + 2)) in E.
  replace (fuel + (fuel + 2))%nat with (2 + 2 * fuel)%nat in E by lia.
  unfold sample_all in E.
  rewrite (zero_width_turns s Hw HW Hh fuel) in E. discriminate.
Qed.

(** C1, evaluated where it fails: on a 10 x 10 image in count mode with
    [x = y = 4], [samples] is 16, and the pass ends after 25 tiles (the
    tile size is 2 x 2 and 5 x 5 of them fit). *)
Theorem C1_count_mode_pass_longer_than_samples :
  sampler_of 10 10 4 4 false = Return count_10_10_4_4
  /\ samples count_10_10_4_4 = 16
  /\ exists ys s',
       sample_all 62 count_10_10_4_4 = Some (ys, s')
       /\ length ys = 25%nat.
Proof.
  split; [reflexivity|]. split; [reflexivity|].
  destruct (sample_all_grid count_10_10_4_4 5 5) as (s' & E & _);
    simpl; try lia.
  exists (grid count_10_10_4_4 5 5), s'. split; [exact E|].
  apply length_grid.
Qed.

(** C2, evaluated where it fails: on a 3 x 3 image in count mode with
    [x = 5] the tile width is [3 / 5 = 0]; no amount of fuel ends the
    pass, and after [2 + 2k] moves it has yielded [k] tiles. *)
Theorem C2_count_mode_zero_width_never_finishes :
  sampler_of 3 3 5 1 false = Return count_3_3_5_1
  /\ (forall fuel : nat, sample_all fuel count_3_3_5_1 = None)
  /\ (forall k : nat,
        length (fst (run (2 + 2 * k) (sample count_3_3_5_1))) = k).
Proof.
  split; [reflexivity|]. split.
  - apply zero_width_never_finishes; simpl; lia.
  - intros k. rewrite zero_width_turns by (simpl; lia).
    apply length_row_from.
Qed.

(** C6, evaluated where it fails: in the pass of C1 the item of index 4
    is the fifth tile of row 0 (cursor at row 0, column 4, pixel (8, 0)),
    while [4 / tiles_x = 1] and [4 mod tiles_x = 0]. *)
Theorem C6_count_mode_not_row_major_in_tiles_x :
  exists ys s' y,
    sample_all 62 count_10_10_4_4 = Some (ys, s')
    /\ nth_error ys 4 = Some y
    /\ current_row (y_self y) = 0 /\ current_col (y_self y) = 4
    /\ current_x (y_self y) = 8 /\ current_y (y_self y) = 0
    /\ 4 / tiles_x count_10_10_4_4 = 1
    /\ 4 mod tiles_x count_10_10_4_4 = 0.
Proof.
  destruct (pass_item count_10_10_4_4 5 5 4)
    as (ys & s' & y & E & _ & Hn & Hr & Hc & Hx & Hy & _);
    simpl; try lia.
  exists ys, s', y. rewrite Hx, Hy, Hr, Hc.
  repeat split; try assumption; reflexivity.
Qed.

(** In fixed mode the items are in row-major order of [tiles_x]: there
    the number of tiles that fit across is [tiles_x] itself. *)
Lemma fixed_mode_row_major (exists_ : string -> bool)
  (OpenImage : ImageMatrix -> string -> Z * ImageMatrix)
  (image_in : PyObject) (x y : Z) (s : SampleImageTiles) (k : nat) :
  0 < x -> 0 < y ->
  init exists_ OpenImage image_in x y true = Return s ->
  0 <= width (image s) -> 0 <= height (image s) ->
  Z.of_nat k < samples s ->
  exists fuel ys s' it,
    sample_all fuel s = Some (ys, s')
    /\ Z.of_nat (length ys) = samples s
    /\ nth_error ys k = Some it
    /\ current_row (y_self it) = Z.of_nat k / tiles_x s
    /\ current_col (y_self it) = Z.of_nat k mod tiles_x s
    /\ current_x (y_self it) = current_col (y_self it) * tile_width s
    /\ current_y (y_self it) = current_row (y_self it) * tile_height s
    /\ bb (y_tile it)
       = (current_x (y_self it), current_y (y_self it),
          current_x (y_self it) + tile_width s - 1,
          current_y (y_self it) + tile_height s - 1).
Proof.
  intros Hx Hy Hinit HW HH Hk.
  unfold init in Hinit. destruct (init_image _ _ image_in) as [im|e];
    [|discriminate].
  unfold init_tiling, py_div in Hinit.
  destruct (Z.eqb_spec x 0); [lia|]. destruct (Z.eqb_spec y 0); [lia|].
  injection Hinit as <-. simpl in *.
  assert (Hqx : 0 <= width im / x) by (apply Z.div_pos; lia).
  assert (Hqy : 0 <= height im / y) by (apply Z.div_pos; lia).
  destruct (pass_item
              {| image := im; tile_width := x; tile_height := y;
                 tiles_x := width im / x; tiles_y := height im / y;
                 samples := width im / x * (height im / y);
                 current_row := 0; current_col := 0;
                 current_x := 0; current_y := 0 |}
              (Z.to_nat (width im / x)) (Z.to_nat (height im / y)) k)
    as (ys & s' & it & E & Hl & Hn & Hr & Hc & Hcx & Hcy & Hbb & _);
    simpl; try assumption; try (apply fits; assumption); [nia|].
  simpl in *. rewrite Z2Nat.id in Hr, Hc by assumption.
  eexists _, ys, s', it. split; [exact E|].
  repeat split; try assumption. nia.
Qed.

(** * Properties of the column normaliser *)

(** ** Lists *)

Lemma nth_error_zip_with {A B C : Type} (f : A -> B -> C)
  (l : list A) (l' : list B) (n : nat) :
  nth_error (zip_with f l l') n
  = match nth_error l n, nth_error l' n with
    | Some a, Some b => Some (f a b)
    | _, _ => None
    end.
Proof.
  revert l l'; induction n as [|n IH]; intros [|a l] [|b l']; simpl;
    try reflexivity.
  - now destruct (nth_error l n).
  - apply IH.
Qed.

Lemma nth_error_combine {A B : Type} (l : list A) (l' : list B) (n : nat) :
  nth_error (combine l l') n
  = match nth_error l n, nth_error l' n with
    | Some a, Some b => Some (a, b)
    | _, _ => None
    end.
Proof.
  revert l l'; induction n as [|n IH]; intros [|a l] [|b l']; simpl;
    try reflexivity.
  - now destruct (nth_error l n).
  - apply IH.
Qed.

Lemma length_zip_with {A B C : Type} (f : A -> B -> C)
  (l : list A) (l' : list B) :
  length (zip_with f l l') = Nat.min (length l) (length l').
Proof.
  revert l'; induction l as [|a l IH]; intros [|b l']; simpl;
    try reflexivity.
  now rewrite IH.
Qed.

Lemma zip_with_map_map {A B C D : Type} (f : B -> C -> D)
  (g : A -> B) (h : A -> C) (l : list A) :
  zip_with f (map g l) (map h l) = map (fun x => f (g x) (h x)) l.
Proof. induction l as [|a l IH]; simpl; [reflexivity | now rewrite IH]. Qed.

Lemma zip_with_map_r {A B C : Type} (f : A -> B -> C)
  (h : A -> B) (l : list A) :
  zip_with f l (map h l) = map (fun x => f x (h x)) l.
Proof. induction l as [|a l IH]; simpl; [reflexivity | now rewrite IH]. Qed.

Lemma nth_error_Some_lt {A : Type} (l : list A) (n : nat) (a : A) :
  nth_error l n = Some a -> (n < length l)%nat.
Proof. intros H. apply nth_error_Some. congruence. Qed.

(** Broadcasting keeps the entries: position [j] of the broadcast vector
    is position [j] of the vector, or its only entry. *)
Lemma length_broadcast_to {A : Type} (k : nat) (v bv : list A) :
  broadcast_to k v = Some bv -> length bv = k.
Proof.
  unfold broadcast_to. destruct (Nat.eqb_spec (length v) k).
  - now intros [= <-].
  - destruct v as [|a [|b v]]; try discriminate.
    intros [= <-]. apply repeat_length.
Qed.

Lemma broadcast_to_zip_with {A B C : Type} (f : A -> B -> C) (k : nat)
  (u bu : list A) (v bv : list B) :
  length u = length v ->
  broadcast_to k u = Some bu -> broadcast_to k v = Some bv ->
  broadcast_to k (zip_with f u v) = Some (zip_with f bu bv).
Proof.
  unfold broadcast_to. intros Hl.
  rewrite length_zip_with, <- Hl, Nat.min_id.
  destruct (Nat.eqb_spec (length u) k) as [E|E].
  - now intros [= <-] [= <-].
  - destruct u as [|a [|a' u]]; try discriminate;
      destruct v as [|b [|b' v]]; try discriminate.
    intros [= <-] [= <-]. simpl. f_equal.
    clear. induction k; simpl; [reflexivity | now rewrite IHk].
Qed.

Lemma broadcast_to_repeat {A : Type} (k n : nat) (a : A) (bv : list A) :
  broadcast_to k (repeat a n) = Some bv -> bv = repeat a k.
Proof.
  unfold broadcast_to. rewrite repeat_length.
  destruct (Nat.eqb_spec n k).
  - now intros [= <-]; subst.
  - destruct n as [|[|n]]; try discriminate. simpl. now intros [= <-].
Qed.

(** Broadcasting two vectors against each other and then along the
    rows is broadcasting each along the rows. *)
Lemma broadcast_to_broadcast2 {A B C : Type} (f : A -> B -> C) (k : nat)
  (u bu : list A) (v bv : list B) :
  broadcast_to k u = Some bu -> broadcast_to k v = Some bv ->
  exists d, broadcast2 f u v = Some d
            /\ broadcast_to k d = Some (zip_with f bu bv).
Proof.
  intros Hu Hv. unfold broadcast2.
  destruct (Nat.eqb_spec (length u) (length v)) as [E|E].
  - eexists; split; [reflexivity|]. now apply broadcast_to_zip_with.
  - unfold broadcast_to in Hu, Hv.
    destruct (Nat.eqb_spec (length u) k) as [Eu|Eu];
      destruct (Nat.eqb_spec (length v) k) as [Ev|Ev].
    + congruence.
    + destruct v as [|b [|b' v]]; try discriminate.
      injection Hu as <-. injection Hv as <-.
      destruct u as [|a [|a' u]].
      * eexists; split; [reflexivity|]. simpl in Eu. subst k. reflexivity.
      * simpl in E. congruence.
      * eexists; split; [reflexivity|].
        unfold broadcast_to. rewrite length_map, Eu, Nat.eqb_refl.
        f_equal. rewrite <- Eu. clear.
        generalize (a :: a' :: u) as l.
        induction l; simpl; [reflexivity | now rewrite IHl].
    + destruct u as [|a [|a' u]]; try discriminate.
      injection Hu as <-. injection Hv as <-.
      eexists; split; [reflexivity|].
      unfold broadcast_to. rewrite length_map, Ev, Nat.eqb_refl.
      f_equal. rewrite <- Ev. clear.
      induction v; simpl; [reflexivity | now rewrite IHv].
    + destruct u as [|a [|a' u]]; try discriminate.
      destruct v as [|b [|b' v]]; try discriminate.
      simpl in E. congruence.
Qed.

Lemma length_broadcast2 {A B C A' B' C' : Type} (f : A -> B -> C)
  (g : A' -> B' -> C') (u : list A) (v : list B) (u' : list A')
  (v' : list B') (d : list C) (d' : list C') :
  length u = length u' -> length v = length v' ->
  broadcast2 f u v = Some d -> broadcast2 g u' v' = Some d' ->
  length d = length d'.
Proof.
  unfold broadcast2. intros Hu Hv. rewrite <- Hu, <- Hv.
  destruct (Nat.eqb_spec (length u) (length v)) as [E|E].
  - intros [= <-] [= <-]. rewrite !length_zip_with. lia.
  - destruct u as [|a [|a2 u]]; destruct u' as [|a' [|a2' u']];
      try discriminate;
      destruct v as [|b [|b2 v]]; destruct v' as [|b' [|b2' v']];
      try discriminate; simpl in *; try congruence;
      intros [= <-] [= <-]; simpl; rewrite ?length_map; simpl; congruence.
Qed.

(** ** The function, step by step *)

Lemma clip_bounds (mins maxs : array1) (w : world)
  (lo hi : list float64) :
  broadcast_to (ncols (full_stack w)) (getdata mins) = Some lo ->
  broadcast_to (ncols (full_stack w)) (getdata maxs) = Some hi ->
  clip mins maxs w
  = (Return tt,
     set_rows w (map (fun r => zip_with maximum (zip_with minimum r hi) lo)
                     (rows (full_stack w)))).
Proof.
  intros Hlo Hhi. unfold clip, bind, get_stack, put_rows, lift_broadcast.
  rewrite Hhi. simpl. rewrite Hlo. simpl.
  unfold set_rows; simpl. now rewrite map_map.
Qed.

Lemma isub_bounds (mask : list (list bool)) (other : array1) (w : world)
  (od : list float64) (om : list bool) :
  broadcast_to (ncols (full_stack w)) (getdata other) = Some od ->
  broadcast_to (ncols (full_stack w)) (getmaskarray other) = Some om ->
  isub mask other w
  = (Return (map (fun mr => zip_with orb mr om) mask),
     set_rows w
       (zip_with (fun r mr => zip_with fsub r (where_ mr zero od))
                 (rows (full_stack w))
                 (map (fun mr => zip_with orb mr om) mask))).
Proof.
  intros Hd Hm. unfold isub, bind, get_stack, put_rows, lift_broadcast.
  rewrite Hm. simpl. rewrite Hd. reflexivity.
Qed.

Lemma idiv_bounds (mask : list (list bool)) (other : array1) (w : world)
  (od : list float64) (om : list bool) :
  broadcast_to (ncols (full_stack w)) (getdata other) = Some od ->
  broadcast_to (ncols (full_stack w)) (getmaskarray other) = Some om ->
  idiv mask other w
  = (let mask' :=
       zip_with (zip_with orb) mask
         (map (fun dr => zip_with orb om dr)
              (map (fun r => zip_with domain_safe_divide r od)
                   (rows (full_stack w)))) in
     (Return mask',
      set_rows w
        (zip_with (fun r mr => zip_with fdiv r (where_ mr one od))
                  (rows (full_stack w)) mask'))).
Proof.
  intros Hd Hm. unfold idiv, bind, get_stack, put_rows, lift_broadcast.
  rewrite Hd. simpl. rewrite Hm. reflexivity.
Qed.

(** [maxs - mins], broadcast along the rows: the range of each column
    and its mask bit. *)
Lemma sub1_bounds (mins maxs : array1) (w : world) (k : nat)
  (lo hi : list float64) (mlo mhi : list bool) :
  well_formed1 mins -> well_formed1 maxs ->
  broadcast_to k (getdata mins) = Some lo ->
  broadcast_to k (getdata maxs) = Some hi ->
  broadcast_to k (getmaskarray mins) = Some mlo ->
  broadcast_to k (getmaskarray maxs) = Some mhi ->
  exists range,
    sub1 maxs mins w = (Return range, w)
    /\ exists rd rm,
         broadcast_to k (getdata range) = Some rd
         /\ broadcast_to k (getmaskarray range) = Some rm
         /\ forall j l h ml mh,
              nth_error lo j = Some l -> nth_error hi j = Some h ->
              nth_error mlo j = Some ml -> nth_error mhi j = Some mh ->
              nth_error rd j = Some (range_entry l h ml mh)
              /\ nth_error rm j = Some (mh || ml).
Proof.
  intros Wlo Whi Hlo Hhi Hmlo Hmhi.
  destruct (broadcast_to_broadcast2 fsub k _ _ _ _ Hhi Hlo) as (d & Ed & Bd).
  destruct (broadcast_to_broadcast2 orb k _ _ _ _ Hmhi Hmlo) as (m & Em & Bm).
  destruct (broadcast_to_broadcast2 (fun x (_ : float64) => x) k _ _ _ _
              Hhi Hlo) as (da & Eda & Bda).
  assert (Ldm : length d = length m).
  { eapply length_broadcast2; [| |exact Ed|exact Em]; symmetry; assumption. }
  assert (Lda : length d = length da).
  { eapply length_broadcast2; [| |exact Ed|exact Eda]; reflexivity. }
  unfold sub1, bind, lift_broadcast. rewrite Ed. simpl.
  destruct (is_masked_array maxs || is_masked_array mins) eqn:Emask.
  - rewrite Em. simpl. rewrite Eda. simpl.
    eexists; split; [reflexivity|]. simpl.
    eexists _, _. split; [|split; [exact Bm|]].
    + apply broadcast_to_zip_with; [|apply broadcast_to_zip_with|exact Bda].
      * rewrite length_zip_with. lia.
      * congruence.
      * exact Bm.
      * exact Bd.
    + intros j l h ml mh Hl Hh Hml Hmh.
      rewrite !nth_error_zip_with, Hmh, Hml, Hh, Hl. simpl.
      unfold range_entry. split; [|reflexivity].
      now destruct (mh || ml).
  - eexists; split; [reflexivity|]. simpl.
    apply orb_false_elim in Emask as [Ea Eb].
    destruct maxs as [dh|dh mh0]; [|discriminate].
    destruct mins as [dl|dl ml0]; [|discriminate].
    simpl in *.
    apply broadcast_to_repeat in Hmlo, Hmhi. subst mlo mhi.
    assert (Lk : length (zip_with fsub hi lo) = k).
    { apply (length_broadcast_to k d). exact Bd. }
    eexists _, (repeat false k). split; [exact Bd|]. split.
    + unfold broadcast_to. rewrite repeat_length.
      destruct (Nat.eqb_spec (length d) k) as [->|Hne]; [reflexivity|].
      unfold broadcast_to in Bd.
      destruct (Nat.eqb_spec (length d) k); [contradiction|].
      destruct d as [|a [|b d]]; try discriminate. reflexivity.
    + intros j l h ml mh Hl Hh Hml Hmh.
      rewrite nth_error_zip_with, Hh, Hl.
      assert (Hj : (j < k)%nat).
      { apply nth_error_Some_lt in Hml. now rewrite repeat_length in Hml. }
      apply nth_error_In, repeat_spec in Hml, Hmh. subst ml mh.
      rewrite nth_error_repeat by assumption. split; reflexivity.
Qed.

(** One row through lines 153-162. *)
Lemma normalize_row_steps (k : nat) (r lo hi rd : list float64)
  (mlo mhi rm : list bool) :
  length r = k -> length lo = k -> length hi = k ->
  length mlo = k -> length mhi = k ->
  (forall j l h ml mh,
     nth_error lo j = Some l -> nth_error hi j = Some h ->
     nth_error mlo j = Some ml -> nth_error mhi j = Some mh ->
     nth_error rd j = Some (range_entry l h ml mh)
     /\ nth_error rm j = Some (mh || ml)) ->
  let r2 := zip_with maximum (zip_with minimum r hi) lo in
  let mr' := zip_with orb (map (fun x => negb (isfinite x)) r2) mlo in
  let r3 := zip_with fsub r2 (where_ mr' zero lo) in
  let mr'' :=
    zip_with orb mr' (zip_with orb rm (zip_with domain_safe_divide r3 rd)) in
  let r4 := zip_with fdiv r3 (where_ mr'' one rd) in
  map (fun x => fmul x hundred)
      (zip_with (fun x (b : bool) => if b then zero else x) r4 mr'')
  = normalize_row lo hi mlo mhi r.
Proof.
  intros Lr Llo Lhi Lmlo Lmhi Hrange. cbv zeta.
  apply nth_error_ext; intros j.
  unfold normalize_row, column_bounds, where_.
  rewrite nth_error_map.
  rewrite !nth_error_zip_with, !nth_error_combine, !nth_error_map,
    !nth_error_zip_with.
  destruct (Nat.ltb_spec j k) as [Hj|Hj].
  - destruct (nth_error r j) as [v|] eqn:Ev;
      [|apply nth_error_None in Ev; lia].
    destruct (nth_error lo j) as [l|] eqn:El;
      [|apply nth_error_None in El; lia].
    destruct (nth_error hi j) as [h|] eqn:Eh;
      [|apply nth_error_None in Eh; lia].
    destruct (nth_error mlo j) as [ml|] eqn:Eml;
      [|apply nth_error_None in Eml; lia].
    destruct (nth_error mhi j) as [mh|] eqn:Emh;
      [|apply nth_error_None in Emh; lia].
    destruct (Hrange j l h ml mh El Eh Eml Emh) as [Erd Erm].
    rewrite Erd, Erm. simpl.
    unfold normalize_entry, rescaled_entry, masked_after_idiv,
      shifted_entry, masked_after_isub, clip_entry.
    reflexivity.
  - assert (Ev : nth_error r j = None) by (apply nth_error_None; lia).
    rewrite Ev. reflexivity.
Qed.

(** With bounds that broadcast along the rows, the function returns
    them, restores the error settings and leaves in [full_stack] every
    row normalised entry by entry. *)
Lemma normalize_with_bounds (mins maxs : array1) (w : world)
  (lo hi : list float64) (mlo mhi : list bool) :
  well_formed (full_stack w) ->
  well_formed1 mins -> well_formed1 maxs ->
  broadcast_to (ncols (full_stack w)) (getdata mins) = Some lo ->
  broadcast_to (ncols (full_stack w)) (getdata maxs) = Some hi ->
  broadcast_to (ncols (full_stack w)) (getmaskarray mins) = Some mlo ->
  broadcast_to (ncols (full_stack w)) (getmaskarray maxs) = Some mhi ->
  normalize_by_columns (Some mins) (Some maxs) w
  = (Return (mins, maxs),
     set_rows w (map (normalize_row lo hi mlo mhi) (rows (full_stack w)))).
Proof.
  intros Wf Wlo Whi Hlo Hhi Hmlo Hmhi.
  set (k := ncols (full_stack w)) in *.
  destruct (sub1_bounds mins maxs w k lo hi mlo mhi Wlo Whi Hlo Hhi Hmlo Hmhi)
    as (range & Esub & rd & rm & Hrd & Hrm & Hrange).
  unfold normalize_by_columns.
  unfold bind at 1. unfold seterr at 1. unfold bind at 1, ret at 1.
  unfold bind at 1.
  set (w1 := {| errs := all_ err_ignore; full_stack := full_stack w |}).
  rewrite (clip_bounds mins maxs w1 lo hi Hlo Hhi).
  unfold bind at 1, get_stack at 1.
  unfold bind at 1.
  erewrite isub_bounds by (simpl; eassumption).
  unfold bind at 1.
  assert (Esub' : forall w', sub1 maxs mins w' = (Return range, w')).
  { intros w'. unfold sub1, bind, lift_broadcast, ret in *.
    destruct (broadcast2 fsub (getdata maxs) (getdata mins));
      [|discriminate].
    destruct (is_masked_array maxs || is_masked_array mins).
    - destruct (broadcast2 orb (getmaskarray maxs) (getmaskarray mins));
        [|discriminate].
      destruct (broadcast2 (fun x (_ : float64) => x) (getdata maxs)
                           (getdata mins)); [|discriminate].
      now injection Esub as <-.
    - now injection Esub as <-. }
  rewrite Esub'.
  unfold bind at 1.
  erewrite idiv_bounds by (simpl; eassumption).
  cbv zeta.
  unfold bind, get_stack, put_rows, seterr, ret, set_rows. simpl.
  f_equal. f_equal. f_equal.
  unfold masked_invalid, filled.
  rewrite !map_map.
  rewrite (zip_with_map_map _ _ _ (rows (full_stack w))).
  rewrite !map_map.
  rewrite (zip_with_map_map _ _ _ (rows (full_stack w))).
  rewrite (zip_with_map_map _ _ _ (rows (full_stack w))).
  rewrite (zip_with_map_map _ _ _ (rows (full_stack w))).
  rewrite map_map.
  apply map_ext_in. intros r Hr.
  apply (normalize_row_steps k r lo hi rd mlo mhi rm);
    try (eapply length_broadcast_to; eassumption); try assumption.
  unfold well_formed in Wf. rewrite Forall_forall in Wf. now apply Wf.
Qed.

(** ** Deriving the bounds *)

Lemma ma_reduce_axis0_rows (extreme : float64 -> float64 -> float64)
  (neutral : float64) (a : ndarray) (w : world) :
  rows a <> [] ->
  ma_reduce_axis0 extreme neutral a (masked_invalid (rows a)) w
  = (Return (derived extreme neutral a), w).
Proof.
  intros Hne. unfold ma_reduce_axis0, derived, bind, reduce_axis0, ret.
  destruct (rows a) as [|r0 rs]; [contradiction|]. reflexivity.
Qed.

Lemma ma_reduce_axis0_no_row (extreme : float64 -> float64 -> float64)
  (neutral : float64) (a : ndarray) (w : world) :
  rows a = [] ->
  exists e, ma_reduce_axis0 extreme neutral a (masked_invalid (rows a)) w
            = (Raise e, w)
            /\ cls e = ValueError.
Proof.
  intros Hr. unfold ma_reduce_axis0, bind, reduce_axis0, filled.
  rewrite Hr. simpl. eexists. split; reflexivity.
Qed.

(** When a bound is missing both are derived, and the function goes on
    as if it had been given the derived ones. *)
Lemma normalize_derives (mins maxs : option array1) (w : world) :
  mins = None \/ maxs = None ->
  rows (full_stack w) <> [] ->
  normalize_by_columns mins maxs w
  = normalize_by_columns (Some (derived_mins (full_stack w)))
                         (Some (derived_maxs (full_stack w))) w.
Proof.
  intros Hnone Hne.
  assert (E : forall (k : array1 * array1 -> M (array1 * array1)) w1,
            full_stack w1 = full_stack w ->
            (bounds <-
               (a <- get_stack ;;
                let full_stack_m := masked_invalid (rows a) in
                maxs <- ma_reduce_axis0 maximum ninf a full_stack_m ;;
                mins <- ma_reduce_axis0 minimum pinf a full_stack_m ;;
                ret (mins, maxs)) ;;
             k bounds) w1
            = k (derived_mins (full_stack w), derived_maxs (full_stack w)) w1).
  { intros k w1 Hw1. unfold bind at 1 2, get_stack at 1. cbv zeta.
    unfold bind at 1. rewrite Hw1.
    rewrite ma_reduce_axis0_rows by assumption.
    unfold bind at 1. rewrite ma_reduce_axis0_rows by assumption.
    reflexivity. }
  unfold normalize_by_columns.
  unfold bind at 1, seterr at 1.
  symmetry. unfold bind at 1, seterr at 1. symmetry.
  destruct Hnone as [-> | ->]; [|destruct mins]; rewrite E by reflexivity;
    reflexivity.
Qed.

Lemma normalize_no_row (mins maxs : option array1) (w : world) :
  mins = None \/ maxs = None ->
  rows (full_stack w) = [] ->
  exists e,
    normalize_by_columns mins maxs w
    = (Raise e, {| errs := all_ err_ignore; full_stack := full_stack w |})
    /\ cls e = ValueError.
Proof.
  intros Hnone Hr. unfold normalize_by_columns.
  destruct (ma_reduce_axis0_no_row maximum ninf (full_stack w)
              {| errs := all_ err_ignore; full_stack := full_stack w |} Hr)
    as (e & E & He).
  exists e. split; [|exact He].
  assert (E' : forall (k : array1 * array1 -> M (array1 * array1)),
            (bounds <-
               (a <- get_stack ;;
                let full_stack_m := masked_invalid (rows a) in
                maxs <- ma_reduce_axis0 maximum ninf a full_stack_m ;;
                mins <- ma_reduce_axis0 minimum pinf a full_stack_m ;;
                ret (mins, maxs)) ;;
             k bounds)
              {| errs := all_ err_ignore; full_stack := full_stack w |}
            = (Raise e, {| errs := all_ err_ignore;
                           full_stack := full_stack w |})).
  { intros k. unfold bind at 1 2, get_stack at 1. cbv zeta.
    unfold bind at 1. simpl full_stack. rewrite E. reflexivity. }
  unfold bind at 1, seterr at 1.
  destruct Hnone as [-> | ->]; [|destruct mins]; rewrite E'; reflexivity.
Qed.

(** *** The masked reduction skips the invalid entries *)

Lemma length_fold_zip_with {A B : Type} (f : B -> B -> B) (g : A -> B)
  (k : nat) (rs : list (list A)) :
  Forall (fun r => length r = k) rs ->
  forall acc, length acc = k ->
  length (fold_left (zip_with f) (map (map g) rs) acc) = k.
Proof.
  induction 1 as [|row r Hrow Hr IH]; intros acc Hacc; simpl;
    [exact Hacc|].
  apply IH. rewrite length_zip_with, length_map, Hacc, Hrow. lia.
Qed.

Section Reduction.

Variable extreme : float64 -> float64 -> float64.
Variable neutral : float64.
Hypothesis neutral_l : forall x, isfinite x = true -> extreme neutral x = x.
Hypothesis neutral_r : forall x, isfinite x = true -> extreme x neutral = x.
Hypothesis neutral_idem : extreme neutral neutral = neutral.
Hypothesis extreme_selects : forall x y, extreme x y = x \/ extreme x y = y.

Let fill (x : float64) : float64 :=
  if negb (isfinite x) then neutral else x.

Lemma fill_finite (x : float64) : isfinite x = true -> fill x = x.
Proof. intros H. unfold fill. now rewrite H. Qed.

Lemma fill_invalid (x : float64) :
  isfinite x = false -> fill x = neutral.
Proof. intros H. unfold fill. now rewrite H. Qed.

Lemma fold_extreme_finite (c : list float64) : forall acc,
  isfinite acc = true ->
  fold_left extreme (map fill c) acc
  = fold_left extreme (filter isfinite c) acc.
Proof.
  induction c as [|x c IH]; intros acc Hacc; simpl; [reflexivity|].
  destruct (isfinite x) eqn:Ex; simpl.
  - rewrite fill_finite by assumption.
    apply IH. destruct (extreme_selects acc x) as [-> | ->]; assumption.
  - rewrite fill_invalid, neutral_r by assumption. now apply IH.
Qed.

Lemma fold_extreme_neutral (c : list float64) :
  fold_left extreme (map fill c) neutral
  = match filter isfinite c with
    | [] => neutral
    | x :: xs => fold_left extreme xs x
    end.
Proof.
  induction c as [|x c IH]; simpl; [reflexivity|].
  destruct (isfinite x) eqn:Ex; simpl.
  - rewrite fill_finite, neutral_l by assumption.
    now apply fold_extreme_finite.
  - rewrite fill_invalid, neutral_idem by assumption. exact IH.
Qed.

Lemma fold_extreme_filled (x0 : float64) (c : list float64) :
  fold_left extreme (map fill c) (fill x0)
  = match filter isfinite (x0 :: c) with
    | [] => neutral
    | x :: xs => fold_left extreme xs x
    end.
Proof.
  simpl. destruct (isfinite x0) eqn:E0; simpl.
  - rewrite (fill_finite x0) by assumption. now apply fold_extreme_finite.
  - rewrite (fill_invalid x0) by assumption. apply fold_extreme_neutral.
Qed.

Lemma filled_masked_invalid (r : list (list float64)) :
  filled neutral r (masked_invalid r) = map (map fill) r.
Proof.
  unfold filled, masked_invalid. rewrite zip_with_map_r.
  apply map_ext; intros row. now rewrite zip_with_map_r.
Qed.

Lemma nth_error_fold_zip_with (f : float64 -> float64 -> float64)
  (j : nat) (rs : list (list float64)) :
  forall (r0 : list float64) (x0 : float64),
  nth_error r0 j = Some x0 ->
  Forall (fun r => (j < length r)%nat) rs ->
  nth_error (fold_left (zip_with f) rs r0) j
  = Some (fold_left f (column j rs) x0).
Proof.
  induction rs as [|r rs IH]; intros r0 x0 H0 Hrs; simpl; [exact H0|].
  inversion Hrs as [|? ? Hr Hrs']; subst.
  apply IH; [|assumption].
  rewrite nth_error_zip_with, H0.
  destruct (nth_error r j) as [x|] eqn:Ex.
  - now rewrite (nth_error_nth r j nan Ex).
  - apply nth_error_None in Ex. lia.
Qed.

Lemma column_map (g : float64 -> float64) (j : nat)
  (r : list (list float64)) :
  Forall (fun row => (j < length row)%nat) r ->
  column j (map (map g) r) = map g (column j r).
Proof.
  intros Hr. unfold column. rewrite !map_map.
  apply map_ext_in. intros row Hin.
  rewrite Forall_forall in Hr. specialize (Hr row Hin).
  rewrite (nth_indep _ nan (g nan)) by (now rewrite length_map).
  apply map_nth.
Qed.

Lemma nth_error_all_axis0 (k j : nat) (r : list (list float64)) :
  (j < k)%nat ->
  Forall (fun row => (j < length row)%nat) r ->
  nth_error (all_axis0 k (masked_invalid r)) j
  = Some (match filter isfinite (column j r) with
          | [] => true
          | _ => false
          end).
Proof.
  intros Hj Hr. unfold all_axis0.
  assert (G : forall (acc : list bool) (b : bool),
             nth_error acc j = Some b ->
             nth_error (fold_left (zip_with andb) (masked_invalid r) acc) j
             = Some (b && match filter isfinite (column j r) with
                          | [] => true
                          | _ => false
                          end)).
  { induction Hr as [|row r Hrow Hr IH]; intros acc b Hb; simpl.
    - now rewrite andb_true_r.
    - rewrite (IH _ (b && negb (isfinite (nth j row nan)))).
      + destruct (isfinite (nth j row nan)); simpl.
        * now rewrite andb_false_r.
        * now rewrite andb_true_r.
      + rewrite nth_error_zip_with, Hb, nth_error_map.
        destruct (nth_error row j) as [x|] eqn:Ex.
        * now rewrite (nth_error_nth row j nan Ex).
        * apply nth_error_None in Ex. lia. }
  rewrite (G _ true); [reflexivity|].
  now apply nth_error_repeat.
Qed.

(** Column [j] of the derived bound is the extreme of the finite
    entries of column [j], masked if there is none. *)
Lemma derived_column (a : ndarray) (j : nat) :
  well_formed a -> rows a <> [] -> (j < ncols a)%nat ->
  nth_error (getdata (derived extreme neutral a)) j
  = Some (fst (bound_skipping_invalid extreme (column j (rows a))))
  /\ nth_error (getmaskarray (derived extreme neutral a)) j
     = Some (snd (bound_skipping_invalid extreme (column j (rows a)))).
Proof.
  intros Wf Hne Hj.
  assert (Hlen : Forall (fun row => (j < length row)%nat) (rows a)).
  { unfold well_formed in Wf. rewrite Forall_forall in *.
    intros row Hin. rewrite (Wf row Hin). exact Hj. }
  unfold derived. cbv zeta. simpl getdata. simpl getmaskarray.
  rewrite nth_error_zip_with, nth_error_all_axis0 by assumption.
  rewrite filled_masked_invalid.
  destruct (rows a) as [|r0 rs] eqn:Er; [contradiction|].
  inversion Hlen as [|? ? H0 Hrs]; subst.
  simpl hd. simpl tl.
  destruct (nth_error r0 j) as [x0|] eqn:E0;
    [|apply nth_error_None in E0; lia].
  rewrite (nth_error_fold_zip_with extreme j (map (map fill) rs)
             (map fill r0) (fill x0)).
  - rewrite column_map by assumption.
    rewrite fold_extreme_filled.
    unfold bound_skipping_invalid, column. simpl map.
    rewrite (nth_error_nth r0 j nan E0).
    fold (column j rs).
    destruct (filter isfinite (x0 :: column j rs)); split; reflexivity.
  - now rewrite nth_error_map, E0.
  - rewrite Forall_forall in *. intros row Hin.
    apply in_map_iff in Hin as (row' & <- & Hin').
    rewrite length_map. now apply Hrs.
Qed.

Lemma length_derived (a : ndarray) :
  well_formed a -> rows a <> [] ->
  length (getdata (derived extreme neutral a)) = ncols a
  /\ length (getmaskarray (derived extreme neutral a)) = ncols a.
Proof.
  intros Wf Hne.
  assert (Lm : length (all_axis0 (ncols a) (masked_invalid (rows a)))
               = ncols a).
  { unfold all_axis0, masked_invalid.
    apply length_fold_zip_with; [exact Wf | apply repeat_length]. }
  unfold derived. cbv zeta. simpl getdata. simpl getmaskarray.
  split; [|exact Lm].
  rewrite length_zip_with, Lm, filled_masked_invalid.
  unfold well_formed in Wf.
  destruct (rows a) as [|r0 rs] eqn:Er; [contradiction|].
  inversion Wf as [|? ? H0 Hrs]; subst.
  simpl hd. simpl tl.
  rewrite (length_fold_zip_with extreme fill (ncols a));
    [lia | exact Hrs | now rewrite length_map].
Qed.

End Reduction.

Lemma minimum_selects (x y : float64) : minimum x y = x \/ minimum x y = y.
Proof. unfold minimum. destruct (le x y || isnan x); auto. Qed.

Lemma maximum_selects (x y : float64) : maximum x y = x \/ maximum x y = y.
Proof. unfold maximum. destruct (ge x y || isnan x); auto. Qed.

(** The derived minimum and maximum of a column are the least and the
    greatest of its finite entries. *)
Lemma derived_mins_column (a : ndarray) (j : nat) :
  well_formed a -> rows a <> [] -> (j < ncols a)%nat ->
  nth_error (getdata (derived_mins a)) j
  = Some (fst (bound_skipping_invalid minimum (column j (rows a))))
  /\ nth_error (getmaskarray (derived_mins a)) j
     = Some (snd (bound_skipping_invalid minimum (column j (rows a)))).
Proof.
  apply derived_column.
  - intros x Hx. destruct x as [s| | |s m e]; try discriminate; reflexivity.
  - intros x Hx. destruct x as [s| | |s m e]; try discriminate; reflexivity.
  - reflexivity.
  - apply minimum_selects.
Qed.

Lemma derived_maxs_column (a : ndarray) (j : nat) :
  well_formed a -> rows a <> [] -> (j < ncols a)%nat ->
  nth_error (getdata (derived_maxs a)) j
  = Some (fst (bound_skipping_invalid maximum (column j (rows a))))
  /\ nth_error (getmaskarray (derived_maxs a)) j
     = Some (snd (bound_skipping_invalid maximum (column j (rows a)))).
Proof.
  apply derived_column.
  - intros x Hx. destruct x as [s| | |s m e]; try discriminate; reflexivity.
  - intros x Hx. destruct x as [s| | |s m e]; try discriminate; reflexivity.
  - reflexivity.
  - apply maximum_selects.
Qed.

(** ** The error settings *)

Lemma bind_Return {A B : Type} (c : M A) (k : A -> M B) (w w' : world)
  (b : B) :
  bind c k w = (Return b, w') ->
  exists a w1, c w = (Return a, w1) /\ k a w1 = (Return b, w').
Proof.
  unfold bind. destruct (c w) as [[a|e] w1]; [|discriminate].
  intros H. now exists a, w1.
Qed.

(** On a normal return the settings are those of the call. *)
Lemma normalize_restores_on_return (mins maxs : option array1)
  (w w' : world) (r : array1 * array1) :
  normalize_by_columns mins maxs w = (Return r, w') ->
  errs w' = errs w.
Proof.
  unfold normalize_by_columns. intros H.
  apply bind_Return in H as (old & w1 & H1 & H).
  unfold seterr in H1. injection H1 as <- <-.
  apply bind_Return in H as ([mins' maxs'] & w2 & _ & H).
  do 7 (apply bind_Return in H as (? & ? & _ & H)).
  apply bind_Return in H as (? & w9 & H9 & H).
  unfold seterr in H9. injection H9 as _ <-.
  unfold ret in H. now injection H as _ <-.
Qed.

(** C3, evaluated where it fails: bounds of three entries against an
    array of two columns make line 153 raise a [ValueError]; the call
    was entered with every setting at ['raise'] and is left with every
    setting at ['ignore']. *)
Theorem C3_settings_not_restored_on_error :
  exists e w',
    normalize_by_columns (Some mins3) (Some maxs3) stack_1x2 = (Raise e, w')
    /\ cls e = ValueError
    /\ errs stack_1x2 = all_ err_raise
    /\ errs w' = all_ err_ignore.
Proof.
  eexists _, _. split; [reflexivity|].
  repeat split.
Qed.

(** * float64 *)

(** ** The order *)

Lemma SFcompare_swap (a b : float64) :
  SFcompare b a = option_map CompOpp (SFcompare a b).
Proof.
  destruct a as [sa|sa| |sa ma ea], b as [sb|sb| |sb mb eb]; simpl;
    try reflexivity;
    try (destruct sa; reflexivity); try (destruct sb; reflexivity);
    try (destruct sa, sb; reflexivity).
  destruct sa, sb; simpl; try reflexivity;
    rewrite (Z.compare_antisym ea eb);
    destruct (ea ?= eb); simpl; try reflexivity;
    change (Pos.compare_cont Eq mb ma) with (Pos.compare mb ma);
    change (Pos.compare_cont Eq ma mb) with (Pos.compare ma mb);
    rewrite (Pos.compare_antisym ma mb);
    now rewrite ?CompOpp_involutive.
Qed.

Lemma le_ge (a b : float64) : le a b = ge b a.
Proof.
  unfold le, ge, SFleb. rewrite (SFcompare_swap a b).
  now destruct (SFcompare a b) as [[| |]|].
Qed.

Lemma SFcompare_refl (a : float64) :
  isnan a = false -> SFcompare a a = Some Eq.
Proof.
  destruct a as [s|s| |s m e]; simpl; try discriminate; intros _;
    try reflexivity.
  - now destruct s.
  - destruct s; rewrite Z.compare_refl, Pos.compare_cont_refl; reflexivity.
Qed.

Lemma le_refl (a : float64) : isnan a = false -> le a a = true.
Proof. intros H. unfold le, SFleb. now rewrite SFcompare_refl. Qed.

Lemma le_not_nan (a b : float64) :
  le a b = true -> isnan a = false /\ isnan b = false.
Proof.
  unfold le, SFleb. destruct a, b; simpl; try discriminate; auto.
Qed.

(** Two numbers are comparable: one is below the other. *)
Lemma le_total (a b : float64) :
  isnan a = false -> isnan b = false -> le a b = false -> le b a = true.
Proof.
  intros Ha Hb. unfold le, SFleb. rewrite (SFcompare_swap a b).
  destruct (SFcompare a b) as [[| |]|] eqn:E; simpl; try discriminate;
    try reflexivity.
  destruct a, b; simpl in *; discriminate.
Qed.

(** ** Clipping (line 153) *)

(** With bounds in order, an entry that is not NaN is clipped into
    them. *)
Lemma clip_entry_between (lo hi v : float64) :
  le lo hi = true -> isnan v = false ->
  le lo (clip_entry lo hi v) = true /\ le (clip_entry lo hi v) hi = true.
Proof.
  intros Hb Hv.
  destruct (le_not_nan lo hi Hb) as [Hlo Hhi].
  unfold clip_entry, minimum, maximum. rewrite Hv, orb_false_r.
  destruct (le v hi) eqn:E1.
  - rewrite Hv, orb_false_r. rewrite <- (le_ge lo v).
    destruct (le lo v) eqn:E2; [now split|].
    split; [now apply le_refl | exact Hb].
  - rewrite Hhi, orb_false_r, <- (le_ge lo hi), Hb.
    split; [exact Hb | now apply le_refl].
Qed.

Lemma clip_entry_pinf (lo hi : float64) :
  le lo hi = true -> clip_entry lo hi pinf = hi.
Proof.
  intros Hb. destruct (le_not_nan lo hi Hb) as [Hlo Hhi].
  unfold clip_entry.
  assert (E : minimum pinf hi = hi).
  { destruct hi as [s|[|]| |s m e]; try discriminate; reflexivity. }
  rewrite E. unfold maximum. now rewrite <- (le_ge lo hi), Hb.
Qed.

Lemma clip_entry_ninf (lo hi : float64) :
  le lo hi = true -> clip_entry lo hi ninf = lo.
Proof.
  intros Hb. destruct (le_not_nan lo hi Hb) as [Hlo Hhi].
  unfold clip_entry.
  assert (E : minimum ninf hi = ninf).
  { destruct hi as [s|[|]| |s m e]; try discriminate; reflexivity. }
  rewrite E.
  destruct lo as [s|[|]| |s m e]; try discriminate; reflexivity.
Qed.

Lemma clip_entry_nan (lo hi : float64) : clip_entry lo hi nan = nan.
Proof. reflexivity. Qed.

(** ** The function, entry by entry *)

Lemma normalize_entry_at (mins maxs : array1) (w : world)
  (lo hi : list float64) (mlo mhi : list bool) (i j : nat)
  (row : list float64) (v l h : float64) (ml mh : bool) :
  well_formed (full_stack w) ->
  well_formed1 mins -> well_formed1 maxs ->
  broadcast_to (ncols (full_stack w)) (getdata mins) = Some lo ->
  broadcast_to (ncols (full_stack w)) (getdata maxs) = Some hi ->
  broadcast_to (ncols (full_stack w)) (getmaskarray mins) = Some mlo ->
  broadcast_to (ncols (full_stack w)) (getmaskarray maxs) = Some mhi ->
  nth_error (rows (full_stack w)) i = Some row ->
  nth_error row j = Some v ->
  nth_error lo j = Some l -> nth_error hi j = Some h ->
  nth_error mlo j = Some ml -> nth_error mhi j = Some mh ->
  exists w' row',
    normalize_by_columns (Some mins) (Some maxs) w = (Return (mins, maxs), w')
    /\ errs w' = errs w
    /\ nth_error (rows (full_stack w')) i = Some row'
    /\ nth_error row' j = Some (normalize_entry l h ml mh v).
Proof.
  intros Wf Wlo Whi Hlo Hhi Hmlo Hmhi Hrow Hv Hl Hh Hml Hmh.
  eexists _, _. split.
  - apply (normalize_with_bounds mins maxs w lo hi mlo mhi); assumption.
  - split; [reflexivity|]. split.
    + simpl. rewrite nth_error_map, Hrow. reflexivity.
    + unfold normalize_row, column_bounds.
      rewrite nth_error_zip_with, !nth_error_combine, Hv, Hl, Hh, Hml, Hmh.
      reflexivity.
Qed.

(** Plain bounds with one entry per column. *)
Lemma normalize_entry_at_plain (mins maxs : list float64) (w : world)
  (i j : nat) (row : list float64) (v lo hi : float64) :
  well_formed (full_stack w) ->
  length mins = ncols (full_stack w) ->
  length maxs = ncols (full_stack w) ->
  nth_error (rows (full_stack w)) i = Some row ->
  nth_error row j = Some v ->
  nth_error mins j = Some lo -> nth_error maxs j = Some hi ->
  exists w' row',
    normalize_by_columns (Some (ndarray1 mins)) (Some (ndarray1 maxs)) w
    = (Return (ndarray1 mins, ndarray1 maxs), w')
    /\ errs w' = errs w
    /\ nth_error (rows (full_stack w')) i = Some row'
    /\ nth_error row' j = Some (normalize_entry lo hi false false v).
Proof.
  intros Wf Lmins Lmaxs Hrow Hv Hlo Hhi.
  assert (Hj : (j < ncols (full_stack w))%nat).
  { rewrite <- Lmins. eapply nth_error_Some_lt; eassumption. }
  apply (normalize_entry_at (ndarray1 mins) (ndarray1 maxs) w mins maxs
           (repeat false (ncols (full_stack w)))
           (repeat false (ncols (full_stack w))) i j row v lo hi false false);
    try assumption;
    try (unfold well_formed1; simpl; apply repeat_length);
    try (unfold broadcast_to; simpl; rewrite ?repeat_length;
         rewrite ?Lmins, ?Lmaxs, Nat.eqb_refl; reflexivity);
    now apply nth_error_repeat.
Qed.

(** Without masks, the entry written back is the clipped entry, shifted
    and scaled, or 0 where it is masked. *)
Lemma normalize_entry_plain (lo hi v : float64) :
  normalize_entry lo hi false false v
  = let c := clip_entry lo hi v in
    if negb (isfinite c) || domain_safe_divide (fsub c lo) (fsub hi lo)
    then zero
    else fmul (fdiv (fsub c lo) (fsub hi lo)) hundred.
Proof.
  unfold normalize_entry, rescaled_entry, masked_after_idiv, range_entry,
    shifted_entry, masked_after_isub. cbv zeta.
  rewrite !orb_false_r. simpl orb.
  destruct (isfinite (clip_entry lo hi v)); simpl negb; cbv iota.
  - simpl orb.
    destruct (domain_safe_divide (fsub (clip_entry lo hi v) lo)
                                 (fsub hi lo)); reflexivity.
  - reflexivity.
Qed.

(** C8: with given bounds [mins] and [maxs], one per column and in
    order, the call returns, and the entry of row [i] and column [j]
    is first clipped (a finite entry into [[lo, hi]], +Inf to [hi],
    -Inf to [lo], NaN left NaN), then, unless it is masked, replaced by
    [(c - lo) / (hi - lo) * 100].  With [mins = [0]] and [maxs = [10]]
    the column [0, 5, 10, 15, -5] becomes [0, 50, 100, 100, 0]. *)
Theorem C8_clip_then_rescale :
  (forall (mins maxs : list float64) (w : world) (i j : nat)
          (row : list float64) (v lo hi : float64),
     well_formed (full_stack w) ->
     length mins = ncols (full_stack w) ->
     length maxs = ncols (full_stack w) ->
     nth_error (rows (full_stack w)) i = Some row ->
     nth_error row j = Some v ->
     nth_error mins j = Some lo -> nth_error maxs j = Some hi ->
     le lo hi = true ->
     let c := clip_entry lo hi v in
     (isfinite v = true -> le lo c = true /\ le c hi = true)
     /\ (v = pinf -> c = hi) /\ (v = ninf -> c = lo)
     /\ (v = nan -> c = nan)
     /\ exists w' row',
          normalize_by_columns (Some (ndarray1 mins)) (Some (ndarray1 maxs)) w
          = (Return (ndarray1 mins, ndarray1 maxs), w')
          /\ nth_error (rows (full_stack w')) i = Some row'
          /\ nth_error row' j
             = Some (if negb (isfinite c)
                        || domain_safe_divide (fsub c lo) (fsub hi lo)
                     then zero
                     else fmul (fdiv (fsub c lo) (fsub hi lo)) hundred))
  /\ normalize_by_columns (Some (ndarray1 [of_Z 0]))
                          (Some (ndarray1 [of_Z 10]))
                          (world_of 1 (column_of [0; 5; 10; 15; -5]))
     = (Return (ndarray1 [of_Z 0], ndarray1 [of_Z 10]),
        world_of 1 (column_of [0; 50; 100; 100; 0])).
Proof.
  split; [|vm_compute; reflexivity].
  intros mins maxs w i j row v lo hi Wf Lmins Lmaxs Hrow Hv Hlo Hhi Hb c.
  split; [|split; [|split; [|split]]].
  - intros Hfin. apply clip_entry_between; [exact Hb|].
    destruct v; try discriminate; reflexivity.
  - intros ->. now apply clip_entry_pinf.
  - intros ->. now apply clip_entry_ninf.
  - intros ->. reflexivity.
  - destruct (normalize_entry_at_plain mins maxs w i j row v lo hi)
      as (w' & row' & E & _ & Hi & Hj); try assumption.
    exists w', row'. split; [exact E|]. split; [exact Hi|].
    rewrite Hj, normalize_entry_plain. reflexivity.
Qed.

Lemma C8_witness :
  le (of_Z 0) (of_Z 10) = true
  /\ clip_entry (of_Z 0) (of_Z 10) (of_Z 15) = of_Z 10
  /\ exists w' row',
       normalize_by_columns (Some (ndarray1 [of_Z 0]))
                            (Some (ndarray1 [of_Z 10]))
                            (world_of 1 (column_of [0; 5; 10; 15; -5]))
       = (Return (ndarray1 [of_Z 0], ndarray1 [of_Z 10]), w')
       /\ nth_error (rows (full_stack w')) 3 = Some row'
       /\ nth_error row' 0
          = Some (if negb (isfinite (clip_entry (of_Z 0) (of_Z 10) (of_Z 15)))
                     || domain_safe_divide
                          (fsub (clip_entry (of_Z 0) (of_Z 10) (of_Z 15))
                                (of_Z 0))
                          (fsub (of_Z 10) (of_Z 0))
                  then zero
                  else fmul (fdiv (fsub (clip_entry (of_Z 0) (of_Z 10)
                                                    (of_Z 15))
                                        (of_Z 0))
                                  (fsub (of_Z 10) (of_Z 0)))
                            hundred).
Proof.
  split; [reflexivity|]. split; [reflexivity|].
  apply (proj1 C8_clip_then_rescale [of_Z 0] [of_Z 10]
           (world_of 1 (column_of [0; 5; 10; 15; -5])) 3%nat 0%nat
           [of_Z 15] (of_Z 15) (of_Z 0) (of_Z 10));
    try reflexivity.
  repeat constructor.
Defined.

(** ** Rounding

    [binary_round_aux] shifts the mantissa right until its exponent is
    the one its magnitude calls for, rounds to nearest-even, and shifts
    once more if the rounding carried.  What is proved here is what the
    bounds below need: the mantissa that comes out is the floor of the
    shifted mantissa, or one more. *)

Lemma digits2_pos_log2 (p : positive) :
  Zpos (digits2_pos p) = Z.log2 (Zpos p) + 1.
Proof.
  assert (E : forall q, digits2_pos q = Pos.size q).
  { induction q as [q IH|q IH|]; simpl; now rewrite ?IH. }
  destruct p as [p|p|]; simpl; rewrite ?E; lia.
Qed.

Lemma Zdigits2_pos (m : Z) : 0 < m -> Zdigits2 m = Z.log2 m + 1.
Proof.
  destruct m as [|p|p]; try lia. intros _. apply digits2_pos_log2.
Qed.

Lemma Zdigits2_nonneg (m : Z) : 0 <= Zdigits2 m.
Proof. destruct m; simpl; lia. Qed.

Lemma Zdigits2_bounds (m : Z) :
  0 < m -> 2 ^ (Zdigits2 m - 1) <= m < 2 ^ Zdigits2 m.
Proof.
  intros Hm. rewrite Zdigits2_pos by assumption.
  replace (Z.log2 m + 1 - 1) with (Z.log2 m) by lia.
  replace (Z.log2 m + 1) with (Z.succ (Z.log2 m)) by lia.
  now apply Z.log2_spec.
Qed.

(** [Zdigits2 m] is the least [d] with [m < 2 ^ d]. *)
Lemma Zdigits2_le (m d : Z) : 0 <= m -> 0 <= d -> m < 2 ^ d -> Zdigits2 m <= d.
Proof.
  intros Hm Hd Hlt.
  destruct (Z.eq_dec m 0) as [->|Hne]; [simpl; lia|].
  rewrite Zdigits2_pos by lia.
  assert (Z.log2 m < d); [|lia].
  apply Z.log2_lt_pow2; lia.
Qed.

Lemma Zdigits2_ge (m d : Z) : 0 < m -> 2 ^ (d - 1) <= m -> d <= Zdigits2 m.
Proof.
  intros Hm Hle. rewrite Zdigits2_pos by assumption.
  destruct (Z.le_gt_cases d 0) as [Hd|Hd].
  - pose proof (Z.log2_nonneg m). lia.
  - assert (d - 1 <= Z.log2 m); [|lia].
    apply Z.log2_le_pow2; lia.
Qed.

Lemma Zdigits2_mono (m m' : Z) : 0 <= m <= m' -> Zdigits2 m <= Zdigits2 m'.
Proof.
  intros [Hm Hle].
  destruct (Z.eq_dec m 0) as [->|Hne]; [apply Zdigits2_nonneg|].
  rewrite !Zdigits2_pos by lia.
  pose proof (Z.log2_le_mono m m' Hle). lia.
Qed.

Lemma shr_m_shr_1 (mrs : shr_record) :
  0 <= shr_m mrs -> shr_m (shr_1 mrs) = shr_m mrs / 2.
Proof.
  destruct mrs as [m r s]. simpl. intros Hm.
  destruct m as [|[p|p|]|p]; try lia; simpl shr_m.
  - reflexivity.
  - rewrite Pos2Z.inj_xI. apply Z.div_unique with 1; lia.
  - rewrite Pos2Z.inj_xO. apply Z.div_unique with 0; lia.
  - reflexivity.
Qed.

Lemma shr_m_iter_pos (p : positive) : forall mrs : shr_record,
  0 <= shr_m mrs ->
  shr_m (iter_pos shr_1 p mrs) = shr_m mrs / 2 ^ Zpos p.
Proof.
  induction p as [p IH|p IH|]; intros mrs Hm; simpl iter_pos.
  - assert (H1 : 0 <= shr_m (shr_1 mrs)).
    { rewrite shr_m_shr_1 by assumption. apply Z.div_pos; lia. }
    assert (H2 : 0 <= shr_m (iter_pos shr_1 p (shr_1 mrs))).
    { rewrite IH by assumption. apply Z.div_pos; lia. }
    rewrite IH, IH, shr_m_shr_1 by assumption.
    rewrite !Z.div_div by lia. f_equal.
    rewrite Pos2Z.inj_xI, <- !Z.pow_add_r by lia.
    change 2 with (2 ^ 1) at 1. rewrite <- Z.pow_add_r by lia.
    f_equal. lia.
  - assert (H2 : 0 <= shr_m (iter_pos shr_1 p mrs)).
    { rewrite IH by assumption. apply Z.div_pos; lia. }
    rewrite IH, IH by assumption.
    rewrite Z.div_div by lia. f_equal.
    rewrite Pos2Z.inj_xO, <- Z.pow_add_r by lia.
    f_equal. lia.
  - now apply shr_m_shr_1.
Qed.

Lemma shr_spec (mrs : shr_record) (e n : Z) :
  0 <= shr_m mrs ->
  shr_m (fst (shr mrs e n)) = shr_m mrs / 2 ^ Z.max 0 n
  /\ snd (shr mrs e n) = e + Z.max 0 n.
Proof.
  intros Hm. destruct n as [|p|p]; simpl.
  - rewrite Z.div_1_r. split; lia.
  - rewrite shr_m_iter_pos by assumption. split; reflexivity.
  - rewrite Z.div_1_r. split; lia.
Qed.

Lemma shr_m_of_loc (m : Z) (l : location) :
  shr_m (shr_record_of_loc m l) = m.
Proof. destruct l as [|[| |]]; reflexivity. Qed.

Lemma round_nearest_even_range (m : Z) (l : location) :
  m <= round_nearest_even m l <= m + 1.
Proof.
  destruct l as [|[| |]]; simpl; try lia.
  destruct (Z.even m); lia.
Qed.

(** What [binary_round_aux] returns, for a mantissa [mx >= 0]. *)
Lemma binary_round_aux_spec (s : bool) (mx ex : Z) (lx : location) :
  0 <= mx ->
  let n1 := Z.max 0 (fexp (Zdigits2 mx + ex) - ex) in
  let m1 := mx / 2 ^ n1 in
  let e1 := ex + n1 in
  exists m1',
    m1 <= m1' <= m1 + 1 /\
    let n2 := Z.max 0 (fexp (Zdigits2 m1' + e1) - e1) in
    let m2 := m1' / 2 ^ n2 in
    let e2 := e1 + n2 in
    binary_round_aux prec emax s mx ex lx
    = match m2 with
      | Z0 => S754_zero s
      | Zpos m => if e2 <=? emax - prec then S754_finite s m e2
                  else S754_infinity s
      | Zneg _ => S754_nan
      end.
Proof.
  intros Hmx n1 m1 e1.
  unfold binary_round_aux, shr_fexp.
  fold fexp.
  destruct (shr_spec (shr_record_of_loc mx lx) ex
              (fexp (Zdigits2 mx + ex) - ex)) as [Hm1 He1];
    [rewrite shr_m_of_loc; exact Hmx|].
  rewrite shr_m_of_loc in Hm1.
  destruct (shr (shr_record_of_loc mx lx) ex (fexp (Zdigits2 mx + ex) - ex))
    as [mrs' e'] eqn:E1.
  simpl in Hm1, He1. subst e'. fold n1 in Hm1. fold n1. fold e1.
  set (m1' := round_nearest_even (shr_m mrs') (loc_of_shr_record mrs')).
  assert (R : m1 <= m1' <= m1 + 1).
  { unfold m1', m1. rewrite <- Hm1. apply round_nearest_even_range. }
  exists m1'. split; [exact R|]. cbv zeta.
  assert (Hm1' : 0 <= m1').
  { assert (0 <= m1) by (apply Z.div_pos; lia). lia. }
  destruct (shr_spec (shr_record_of_loc m1' loc_Exact) e1
              (fexp (Zdigits2 m1' + e1) - e1)) as [Hm2 He2];
    [rewrite shr_m_of_loc; exact Hm1'|].
  rewrite shr_m_of_loc in Hm2.
  destruct (shr (shr_record_of_loc m1' loc_Exact) e1
                (fexp (Zdigits2 m1' + e1) - e1)) as [mrs'' e''] eqn:E2.
  simpl in Hm2, He2. subst e''. rewrite Hm2. reflexivity.
Qed.

Lemma fexp_mono (a b : Z) : a <= b -> fexp a <= fexp b.
Proof. unfold fexp, SpecFloat.fexp. lia. Qed.

Lemma fexp_lt (a : Z) : emin < a -> fexp a < a.
Proof. unfold fexp, SpecFloat.fexp, emin, prec. lia. Qed.

Lemma fexp_ge_emin (a : Z) : emin <= fexp a.
Proof. unfold fexp, SpecFloat.fexp, emin. lia. Qed.

Lemma Zdigits2_div_pow2_le (m n : Z) :
  0 <= n -> 0 < m / 2 ^ n -> Zdigits2 (m / 2 ^ n) + n <= Zdigits2 m.
Proof.
  intros Hn Hq.
  assert (Hp : 0 < 2 ^ n) by (apply Z.pow_pos_nonneg; lia).
  assert (Hm : 0 < m).
  { destruct (Z.le_gt_cases m 0) as [Hle|]; [|assumption].
    assert (m / 2 ^ n <= 0) by (apply Z.div_le_upper_bound; lia). lia. }
  pose proof (Zdigits2_bounds _ Hq) as [Hlo _].
  pose proof (Z.mul_div_le m (2 ^ n) Hp) as Hmul.
  assert (Hd : Zdigits2 (m / 2 ^ n) - 1 + n + 1 <= Zdigits2 m); [|lia].
  apply Zdigits2_ge; [assumption|].
  replace (Zdigits2 (m / 2 ^ n) - 1 + n + 1 - 1)
    with (n + (Zdigits2 (m / 2 ^ n) - 1)) by lia.
  pose proof (Zdigits2_pos _ Hq). pose proof (Z.log2_nonneg (m / 2 ^ n)).
  rewrite Z.pow_add_r by lia. nia.
Qed.

Lemma Zdigits2_div_pow2_ge (m n : Z) :
  0 <= n -> 0 < m -> n < Zdigits2 m ->
  0 < m / 2 ^ n /\ Zdigits2 m <= Zdigits2 (m / 2 ^ n) + n.
Proof.
  intros Hn Hm Hlt.
  assert (Hp : 0 < 2 ^ n) by (apply Z.pow_pos_nonneg; lia).
  pose proof (Zdigits2_bounds _ Hm) as [Hlo _].
  assert (Hq : 2 ^ (Zdigits2 m - 1 - n) <= m / 2 ^ n).
  { apply Z.div_le_lower_bound; [assumption|].
    rewrite <- Z.pow_add_r by lia.
    replace (n + (Zdigits2 m - 1 - n)) with (Zdigits2 m - 1) by lia.
    exact Hlo. }
  assert (Hq0 : 0 < m / 2 ^ n).
  { assert (0 < 2 ^ (Zdigits2 m - 1 - n)) by (apply Z.pow_pos_nonneg; lia).
    lia. }
  split; [exact Hq0|].
  assert (Zdigits2 m - n <= Zdigits2 (m / 2 ^ n)); [|lia].
  apply Zdigits2_ge; [exact Hq0|].
  replace (Zdigits2 m - n - 1) with (Zdigits2 m - 1 - n) by lia.
  exact Hq.
Qed.

Lemma Zdigits2_succ (m : Z) : 0 <= m -> Zdigits2 (m + 1) <= Zdigits2 m + 1.
Proof.
  intros Hm. destruct (Z.eq_dec m 0) as [->|Hne]; [simpl; lia|].
  assert (H0 : 0 < m) by lia.
  pose proof (Zdigits2_bounds _ H0) as [_ Hhi].
  pose proof (Zdigits2_nonneg m).
  apply Zdigits2_le; try lia.
  rewrite Z.pow_add_r by lia. lia.
Qed.

(** The upper bound: rounding [mx * 2 ^ ex], a number of magnitude at
    most [k], gives a zero or a number of magnitude at most [k + 1]. *)
Lemma binary_round_aux_upper (s : bool) (mx ex : Z) (lx : location)
  (k x : Z) :
  0 <= mx -> Zdigits2 mx + ex <= k -> emin <= k -> ex <= x ->
  rounded_within s (k + 1) (Z.max x (fexp (k + 1)))
                 (binary_round_aux prec emax s mx ex lx).
Proof.
  intros Hmx Hk Hemin Hx.
  destruct (binary_round_aux_spec s mx ex lx Hmx) as (m1' & R & E).
  cbv zeta in E. rewrite E. clear E.
  set (n1 := Z.max 0 (fexp (Zdigits2 mx + ex) - ex)) in *.
  set (m1 := mx / 2 ^ n1) in *.
  set (e1 := ex + n1) in *.
  set (n2 := Z.max 0 (fexp (Zdigits2 m1' + e1) - e1)).
  assert (Hm1 : 0 <= m1) by (apply Z.div_pos; lia).
  assert (Hd1 : Zdigits2 m1 + e1 <= k).
  { destruct (Z.eq_dec m1 0) as [E0|Hne].
    - rewrite E0. simpl Zdigits2. unfold e1, n1.
      pose proof (Zdigits2_nonneg mx).
      pose proof (fexp_mono (Zdigits2 mx + ex) k Hk).
      unfold fexp, SpecFloat.fexp in *. fold emin in *. unfold prec in *.
      lia.
    - pose proof (Zdigits2_div_pow2_le mx n1). unfold e1. fold m1 in H.
      lia. }
  assert (Hd1' : Zdigits2 m1' + e1 <= k + 1).
  { pose proof (Zdigits2_mono m1' (m1 + 1)).
    pose proof (Zdigits2_succ m1 Hm1). lia. }
  assert (He1 : e1 <= Z.max x (fexp (k + 1))).
  { unfold e1, n1. pose proof (fexp_mono (Zdigits2 mx + ex) (k + 1)). lia. }
  assert (He2 : e1 + n2 <= Z.max x (fexp (k + 1))).
  { unfold n2. pose proof (fexp_mono (Zdigits2 m1' + e1) (k + 1)). lia. }
  destruct (m1' / 2 ^ n2) as [|m|m] eqn:Em2.
  - reflexivity.
  - destruct (Z.leb_spec (e1 + n2) (emax - prec)) as [Hle|Hgt];
      unfold rounded_within.
    + split; [reflexivity|]. split; [|split; assumption].
      pose proof (Zdigits2_div_pow2_le m1' n2). rewrite Em2 in H.
      unfold mag. simpl Zdigits2 in H. unfold n2 in *. lia.
    + split; [reflexivity | lia].
  - assert (0 <= m1' / 2 ^ n2) by (apply Z.div_pos; unfold n2; lia). lia.
Qed.

Lemma Zpos_iter_xO (d m : positive) :
  Zpos (Pos.iter xO m d) = Zpos m * 2 ^ Zpos d.
Proof.
  induction d as [|d IH] using Pos.peano_ind.
  - simpl. lia.
  - rewrite Pos.iter_succ, Pos2Z.inj_xO, IH, Pos2Z.inj_succ, Z.pow_succ_r
      by lia. lia.
Qed.

(** The lower bound: rounding [m * 2 ^ e] with [e >= emin], there is no
    underflow, and the magnitude does not go down. *)
Lemma binary_round_lower (s : bool) (m : positive) (e : Z) :
  emin <= e ->
  match binary_round prec emax s m e with
  | S754_finite s' m' e' => s' = s /\ mag m e <= mag m' e'
  | S754_infinity s' => s' = s
  | _ => False
  end.
Proof.
  intros He. unfold binary_round. fold fexp.
  set (magv := Zpos (digits2_pos m) + e).
  assert (Hmagv : emin < magv) by (unfold magv; lia).
  destruct (shl_align m e (fexp magv)) as [mz ez] eqn:Ea.
  assert (Hz : Zdigits2 (Zpos mz) + ez = magv /\ ez <= fexp magv
               /\ emin <= ez).
  { unfold shl_align in Ea.
    destruct (fexp magv - e) as [|d|d] eqn:Ed; injection Ea as <- <-.
    - cbn [Zdigits2]. unfold magv in *. lia.
    - cbn [Zdigits2]. unfold magv in *. lia.
    - split; [|split; [lia | apply fexp_ge_emin]].
      rewrite Zpos_iter_xO.
      assert (Hp : 0 < 2 ^ Zpos d) by (apply Z.pow_pos_nonneg; lia).
      assert (Hd : Zdigits2 (Zpos m * 2 ^ Zpos d) = Zdigits2 (Zpos m) + Zpos d).
      { rewrite !Zdigits2_pos by lia.
        rewrite Z.log2_mul_pow2 by lia. lia. }
      rewrite Hd. cbn [Zdigits2]. unfold magv in *. lia. }
  destruct Hz as (Hmag & Hez & Hezmin).
  destruct (binary_round_aux_spec s (Zpos mz) ez loc_Exact) as (m1' & R & E);
    [lia|].
  cbv zeta in E. rewrite E. clear E.
  rewrite Hmag in *.
  set (n1 := Z.max 0 (fexp magv - ez)) in *.
  set (m1 := Zpos mz / 2 ^ n1) in *.
  set (e1 := ez + n1) in *.
  set (n2 := Z.max 0 (fexp (Zdigits2 m1' + e1) - e1)).
  pose proof (fexp_lt magv Hmagv) as Hf.
  destruct (Zdigits2_div_pow2_ge (Zpos mz) n1) as [Hm1 Hd1];
    [unfold n1; lia | lia | unfold n1; lia |].
  fold m1 in Hm1, Hd1.
  assert (Hd1' : magv <= Zdigits2 m1' + e1).
  { pose proof (Zdigits2_mono m1 m1'). unfold e1. lia. }
  pose proof (fexp_lt (Zdigits2 m1' + e1)) as Hf'.
  destruct (Zdigits2_div_pow2_ge m1' n2) as [Hm2 Hd2];
    [unfold n2; lia | lia | unfold n2; lia |].
  destruct (m1' / 2 ^ n2) as [|m2|m2] eqn:Em2; try lia.
  destruct (e1 + n2 <=? emax - prec); [|reflexivity].
  split; [reflexivity|].
  unfold mag. fold magv. simpl Zdigits2 in Hd2. lia.
Qed.

(** ** Valid numbers and their integer reading *)

Lemma valid_finite (s : bool) (m : positive) (e : Z) :
  valid (S754_finite s m e) ->
  emin <= e /\ e <= emax - prec /\ Zpos (digits2_pos m) <= prec
  /\ (emin < e -> Zpos (digits2_pos m) = prec).
Proof.
  unfold valid, valid_binary, bounded, canonical_mantissa.
  intros H. apply andb_prop in H as [Hc Hb].
  apply Z.eqb_eq in Hc. apply Z.leb_le in Hb.
  unfold SpecFloat.fexp in Hc. fold emin in Hc.
  unfold emin, SpecFloat.emin, emax, prec in *.
  change IntDef.Z.max with Z.max in Hc. lia.
Qed.

Lemma pow2_pos (a : Z) : 0 <= a -> 0 < 2 ^ a.
Proof. intros. apply Z.pow_pos_nonneg; lia. Qed.

(** Of two valid positive numbers, the one with the smaller exponent is
    the smaller. *)
Lemma scaled_lt (m1 m2 : positive) (e1 e2 : Z) :
  valid (S754_finite false m1 e1) -> valid (S754_finite false m2 e2) ->
  e1 < e2 ->
  Zpos m1 * 2 ^ (e1 - emin) < Zpos m2 * 2 ^ (e2 - emin).
Proof.
  intros V1 V2 Hlt.
  apply valid_finite in V1 as (H1 & _ & D1 & _).
  apply valid_finite in V2 as (H2 & _ & _ & D2).
  specialize (D2 ltac:(lia)).
  assert (B1 : Zpos m1 < 2 ^ prec).
  { pose proof (Zdigits2_bounds (Zpos m1) ltac:(lia)) as [_ Hhi].
    simpl Zdigits2 in Hhi.
    eapply Z.lt_le_trans; [exact Hhi|].
    apply Z.pow_le_mono_r; lia. }
  assert (B2 : 2 ^ (prec - 1) <= Zpos m2).
  { pose proof (Zdigits2_bounds (Zpos m2) ltac:(lia)) as [Hlo _].
    simpl Zdigits2 in Hlo. now rewrite D2 in Hlo. }
  replace (e2 - emin) with ((e1 - emin) + (e2 - e1)) by lia.
  rewrite Z.pow_add_r by lia.
  pose proof (pow2_pos (e1 - emin) ltac:(lia)) as P1.
  assert (P2 : 2 <= 2 ^ (e2 - e1)).
  { change 2 with (2 ^ 1) at 1. apply Z.pow_le_mono_r; lia. }
  assert (P3 : 2 ^ prec = 2 * 2 ^ (prec - 1)).
  { replace prec with (1 + (prec - 1)) at 1 by lia.
    rewrite Z.pow_add_r by (unfold prec; lia). reflexivity. }
  set (A := 2 ^ (e1 - emin)) in *. set (T := 2 ^ (e2 - e1)) in *.
  set (P := 2 ^ (prec - 1)) in *.
  assert (S1 : Zpos m1 * A < 2 * P * A) by nia.
  assert (S2 : 2 * P * A <= 2 * (Zpos m2 * A)) by nia.
  assert (S3 : 2 * (Zpos m2 * A) <= T * (Zpos m2 * A)) by nia.
  lia.
Qed.

(** On valid finite numbers the order of float64 is the order of their
    integer readings. *)
Lemma SFcompare_F2Z (x y : float64) :
  valid x -> valid y -> isfinite x = true -> isfinite y = true ->
  SFcompare x y = Some (F2Z x ?= F2Z y).
Proof.
  intros Vx Vy Fx Fy.
  destruct x as [sx|sx| |sx mx ex]; try discriminate;
    destruct y as [sy|sy| |sy my ey]; try discriminate;
    cbn [SFcompare F2Z].
  - reflexivity.
  - pose proof (valid_finite _ _ _ Vy) as (Hy & _).
    pose proof (pow2_pos (ey - emin) ltac:(lia)).
    destruct sy; cbn [cond_Zopp]; f_equal; symmetry.
    + apply Z.compare_gt_iff. lia.
    + apply Z.compare_lt_iff. lia.
  - pose proof (valid_finite _ _ _ Vx) as (Hx & _).
    pose proof (pow2_pos (ex - emin) ltac:(lia)).
    destruct sx; cbn [cond_Zopp]; f_equal; symmetry.
    + apply Z.compare_lt_iff. lia.
    + apply Z.compare_gt_iff. lia.
  - pose proof (valid_finite _ _ _ Vx) as (Hx & _).
    pose proof (valid_finite _ _ _ Vy) as (Hy & _).
    pose proof (pow2_pos (ex - emin) ltac:(lia)) as Px.
    pose proof (pow2_pos (ey - emin) ltac:(lia)) as Py.
    assert (Vx' : valid (S754_finite false mx ex)) by exact Vx.
    assert (Vy' : valid (S754_finite false my ey)) by exact Vy.
    destruct sx, sy; cbn [cond_Zopp]; f_equal; symmetry.
    + destruct (Z.compare_spec ex ey) as [->|Hlt|Hgt].
      * change (Pos.compare_cont Eq mx my) with (Pos.compare mx my).
        destruct (Pos.compare_spec mx my) as [->|H|H]; cbn [CompOpp];
          [apply Z.compare_refl | apply Z.compare_gt_iff; nia
          | apply Z.compare_lt_iff; nia].
      * apply Z.compare_gt_iff.
        pose proof (scaled_lt mx my ex ey Vx' Vy' Hlt). lia.
      * apply Z.compare_lt_iff.
        pose proof (scaled_lt my mx ey ex Vy' Vx' ltac:(lia)). lia.
    + apply Z.compare_lt_iff. lia.
    + apply Z.compare_gt_iff. lia.
    + destruct (Z.compare_spec ex ey) as [->|Hlt|Hgt].
      * change (Pos.compare_cont Eq mx my) with (Pos.compare mx my).
        destruct (Pos.compare_spec mx my) as [->|H|H];
          [apply Z.compare_refl | apply Z.compare_lt_iff; nia
          | apply Z.compare_gt_iff; nia].
      * apply Z.compare_lt_iff. now apply scaled_lt.
      * apply Z.compare_gt_iff.
        pose proof (scaled_lt my mx ey ex Vy' Vx' ltac:(lia)). lia.
Qed.

Lemma le_F2Z (x y : float64) :
  valid x -> valid y -> isfinite x = true -> isfinite y = true ->
  le x y = (F2Z x <=? F2Z y).
Proof.
  intros Vx Vy Fx Fy. unfold le, SFleb.
  rewrite SFcompare_F2Z by assumption.
  unfold Z.leb. now destruct (F2Z x ?= F2Z y).
Qed.

(** ** Subtraction, division and multiplication of finite numbers *)

Lemma shl_align_spec (m : positive) (e e' : Z) :
  Zdigits2 (Zpos (fst (shl_align m e e'))) + snd (shl_align m e e')
  = mag m e
  /\ snd (shl_align m e e') = Z.min e e'
  /\ Zpos (fst (shl_align m e e')) = Zpos m * 2 ^ (e - Z.min e e').
Proof.
  unfold shl_align, mag.
  destruct (e' - e) as [|d|d] eqn:Ed; cbn [fst snd].
  - replace (Z.min e e') with e by lia. rewrite Z.sub_diag. cbn [Zdigits2].
    lia.
  - replace (Z.min e e') with e by lia. rewrite Z.sub_diag. cbn [Zdigits2].
    lia.
  - replace (Z.min e e') with e' by lia.
    rewrite Zpos_iter_xO.
    replace (e - e') with (Zpos d) by lia.
    split; [|split; reflexivity].
    rewrite !Zdigits2_pos by (pose proof (pow2_pos (Zpos d)); lia).
    rewrite Z.log2_mul_pow2, digits2_pos_log2 by lia. lia.
Qed.

Lemma binary_round_upper (s : bool) (m : positive) (e : Z) :
  emin <= e ->
  rounded_within s (mag m e + 1) (fexp (mag m e + 1))
                 (binary_round prec emax s m e).
Proof.
  intros He. unfold binary_round. fold fexp. fold (mag m e).
  pose proof (shl_align_spec m e (fexp (mag m e))) as (Hmag & Hez & _).
  destruct (shl_align m e (fexp (mag m e))) as [mz ez]. cbn [fst snd] in *.
  assert (Hk : emin <= mag m e) by (unfold mag; lia).
  pose proof (binary_round_aux_upper s (Zpos mz) ez loc_Exact
                (mag m e) (fexp (mag m e))) as H.
  pose proof (fexp_mono (mag m e) (mag m e + 1)).
  replace (Z.max (fexp (mag m e)) (fexp (mag m e + 1)))
    with (fexp (mag m e + 1)) in H by lia.
  apply H; lia.
Qed.

Lemma binary_normalize_rounds (M ez : Z) :
  emin <= ez ->
  rounds (M * 2 ^ (ez - emin)) (binary_normalize prec emax M ez false).
Proof.
  intros He.
  pose proof (pow2_pos (ez - emin) ltac:(lia)) as Hp.
  assert (Hmag : forall m : positive,
            Zdigits2 (Z.abs (Zpos m * 2 ^ (ez - emin))) + emin = mag m ez).
  { intros m. rewrite Z.abs_eq by lia. unfold mag.
    rewrite Zdigits2_pos by lia.
    rewrite Z.log2_mul_pow2 by lia.
    rewrite digits2_pos_log2. lia. }
  destruct M as [|m|m]; unfold binary_normalize.
  - reflexivity.
  - pose proof (binary_round_lower false m ez He) as L.
    pose proof (binary_round_upper false m ez He) as U.
    destruct (binary_round prec emax false m ez) as [s'|s'| |s' m' e'];
      unfold rounds, rounded_within in *; try contradiction.
    + subst s'. split; [lia|]. symmetry. apply Z.ltb_ge. lia.
    + destruct L as [-> L]. destruct U as (_ & U1 & _ & U2).
      rewrite Hmag. split; [lia|]. split; [|lia].
      symmetry. apply Z.ltb_ge. lia.
  - pose proof (binary_round_lower true m ez He) as L.
    pose proof (binary_round_upper true m ez He) as U.
    assert (Hneg : Z.neg m * 2 ^ (ez - emin) < 0) by lia.
    assert (Habs : Z.abs (Z.neg m * 2 ^ (ez - emin))
                   = Z.abs (Zpos m * 2 ^ (ez - emin))).
    { rewrite <- Pos2Z.opp_pos, Z.mul_opp_l. apply Z.abs_opp. }
    destruct (binary_round prec emax true m ez) as [s'|s'| |s' m' e'];
      unfold rounds, rounded_within in *; try contradiction.
    + subst s'. split; [lia|]. symmetry. apply Z.ltb_lt. lia.
    + destruct L as [-> L]. destruct U as (_ & U1 & _ & U2).
      rewrite Habs, Hmag. split; [lia|]. split; [|lia].
      symmetry. apply Z.ltb_lt. lia.
Qed.

Lemma rounds_valid_finite (s : bool) (m : positive) (e : Z) :
  valid (S754_finite s m e) ->
  rounds (F2Z (S754_finite s m e)) (S754_finite s m e).
Proof.
  intros V. pose proof (valid_finite _ _ _ V) as (He & Hmax & _).
  pose proof (pow2_pos (e - emin) ltac:(lia)) as Hp.
  unfold rounds, F2Z.
  assert (Hd : Zdigits2 (Z.abs (cond_Zopp s (Zpos m * 2 ^ (e - emin)))) + emin
               = mag m e).
  { assert (E : Z.abs (cond_Zopp s (Zpos m * 2 ^ (e - emin)))
                = Zpos m * 2 ^ (e - emin)).
    { destruct s; cbn [cond_Zopp]; lia. }
    rewrite E. unfold mag. rewrite Zdigits2_pos by lia.
    rewrite Z.log2_mul_pow2 by lia. rewrite digits2_pos_log2. lia. }
  rewrite Hd.
  split; [destruct s; cbn [cond_Zopp]; lia|].
  split; [|lia].
  destruct s; cbn [cond_Zopp]; symmetry;
    [apply Z.ltb_lt | apply Z.ltb_ge]; lia.
Qed.

(** The difference of two valid finite numbers rounds their exact
    difference. *)
Lemma fsub_rounds (x y : float64) :
  valid x -> valid y -> isfinite x = true -> isfinite y = true ->
  rounds (F2Z x - F2Z y) (fsub x y).
Proof.
  intros Vx Vy Fx Fy.
  destruct x as [sx|sx| |sx mx ex]; try discriminate;
    destruct y as [sy|sy| |sy my ey]; try discriminate.
  - unfold fsub, SFsub. destruct sx, sy; reflexivity.
  - unfold fsub, SFsub. cbn [F2Z]. rewrite Z.sub_0_l.
    assert (V' : valid (S754_finite (negb sy) my ey)) by exact Vy.
    pose proof (rounds_valid_finite _ _ _ V') as R.
    cbn [F2Z] in R. destruct sy; cbn [cond_Zopp negb] in *.
    + now rewrite Z.opp_involutive.
    + exact R.
  - unfold fsub, SFsub. cbn [F2Z]. rewrite Z.sub_0_r.
    now apply rounds_valid_finite.
  - pose proof (valid_finite _ _ _ Vx) as (Hx & _).
    pose proof (valid_finite _ _ _ Vy) as (Hy & _).
    unfold fsub, SFsub.
    pose proof (shl_align_spec mx ex (Z.min ex ey)) as (_ & _ & Ex).
    pose proof (shl_align_spec my ey (Z.min ex ey)) as (_ & _ & Ey).
    replace (Z.min ex (Z.min ex ey)) with (Z.min ex ey) in Ex by lia.
    replace (Z.min ey (Z.min ex ey)) with (Z.min ex ey) in Ey by lia.
    change (IntDef.Z.min ex ey) with (Z.min ex ey).
    rewrite Ex, Ey.
    pose proof (binary_normalize_rounds
                  (cond_Zopp sx (Zpos mx * 2 ^ (ex - Z.min ex ey))
                   - cond_Zopp sy (Zpos my * 2 ^ (ey - Z.min ex ey)))
                  (Z.min ex ey) ltac:(lia)) as R.
    change (IntDef.Z.sub ?a ?b) with (Z.sub a b).
    assert (E : (cond_Zopp sx (Zpos mx * 2 ^ (ex - Z.min ex ey))
                 - cond_Zopp sy (Zpos my * 2 ^ (ey - Z.min ex ey)))
                * 2 ^ (Z.min ex ey - emin)
                = F2Z (S754_finite sx mx ex) - F2Z (S754_finite sy my ey)).
    { cbn [F2Z].
      replace (ex - emin) with ((ex - Z.min ex ey) + (Z.min ex ey - emin))
        by lia.
      replace (ey - emin) with ((ey - Z.min ex ey) + (Z.min ex ey - emin))
        by lia.
      rewrite !Z.pow_add_r by lia.
      destruct sx, sy; cbn [cond_Zopp]; ring. }
    rewrite E in R. exact R.
Qed.

Lemma Zdigits2_mul (a b : Z) :
  0 < a -> 0 < b -> Zdigits2 (a * b) <= Zdigits2 a + Zdigits2 b.
Proof.
  intros Ha Hb.
  pose proof (Zdigits2_bounds a Ha) as [_ Ba].
  pose proof (Zdigits2_bounds b Hb) as [_ Bb].
  pose proof (Zdigits2_nonneg a). pose proof (Zdigits2_nonneg b).
  apply Zdigits2_le; try lia.
  rewrite Z.pow_add_r by lia. nia.
Qed.

(** The product of two finite numbers: its magnitude is at most the sum
    of theirs, plus one. *)
Lemma fmul_finite_upper (s1 s2 : bool) (m1 m2 : positive) (e1 e2 k x : Z) :
  mag m1 e1 + mag m2 e2 <= k -> emin <= k -> e1 + e2 <= x ->
  rounded_within (xorb s1 s2) (k + 1) (Z.max x (fexp (k + 1)))
                 (fmul (S754_finite s1 m1 e1) (S754_finite s2 m2 e2)).
Proof.
  intros Hk Hemin Hx. unfold fmul, SFmul.
  apply binary_round_aux_upper; try lia.
  change (IntDef.Z.add e1 e2) with (e1 + e2).
  pose proof (Zdigits2_mul (Zpos m1) (Zpos m2) ltac:(lia) ltac:(lia)) as H.
  rewrite <- Pos2Z.inj_mul in H. cbn [Zdigits2] in *. unfold mag in *.
  lia.
Qed.

(** The division of two finite numbers: the integer quotient [q] of
    the aligned mantissas, which is then rounded. *)
Lemma fdiv_core (s1 s2 : bool) (m1 m2 : positive) (e1 e2 k : Z) :
  mag m1 e1 - mag m2 e2 + 1 <= k -> emin <= k ->
  exists q e' l,
    0 <= q /\ e' = Z.min (fexp (mag m1 e1 - mag m2 e2)) (e1 - e2)
    /\ e' <= fexp k /\ Zdigits2 q + e' <= k
    /\ q * Zpos m2 <= Zpos m1 * 2 ^ (e1 - e2 - e') < (q + 1) * Zpos m2
    /\ fdiv (S754_finite s1 m1 e1) (S754_finite s2 m2 e2)
       = binary_round_aux prec emax (xorb s1 s2) q e' l.
Proof.
  intros Hk Hemin. unfold fdiv, SFdiv, SFdiv_core_binary.
  fold fexp. cbn [Zdigits2].
  change (IntDef.Z.sub ?a ?b) with (a - b).
  change (IntDef.Z.add ?a ?b) with (a + b).
  change (IntDef.Z.min ?a ?b) with (Z.min a b).
  set (e' := Z.min (fexp (Zpos (digits2_pos m1) + e1
                          - (Zpos (digits2_pos m2) + e2))) (e1 - e2)).
  set (sh := e1 - e2 - e').
  assert (Hsh : 0 <= sh) by (unfold sh, e'; lia).
  set (m' := match sh with
             | Z0 => Zpos m1
             | Zpos _ => Z.shiftl (Zpos m1) sh
             | Zneg _ => Z0
             end).
  assert (Em' : m' = Zpos m1 * 2 ^ sh).
  { unfold m'. destruct sh as [|p|p] eqn:Es; try lia.
    now rewrite Z.shiftl_mul_pow2 by lia. }
  pose proof (Z_div_mod m' (Zpos m2) ltac:(lia)) as Hdiv.
  change (IntDef.Z.div_eucl m' (Zpos m2)) with (Z.div_eucl m' (Zpos m2)).
  destruct (Z.div_eucl m' (Zpos m2)) as [q r]. destruct Hdiv as [Eq Hr].
  pose proof (pow2_pos sh Hsh) as Psh.
  assert (Hq : 0 <= q) by nia.
  assert (He' : e' <= fexp k).
  { unfold e'. unfold mag in Hk.
    pose proof (fexp_mono (Zpos (digits2_pos m1) + e1
                           - (Zpos (digits2_pos m2) + e2)) k).
    lia. }
  assert (Hdq : Zdigits2 q + e' <= k).
  { destruct (Z.eq_dec q 0) as [->|Hq0].
    - cbn [Zdigits2]. pose proof (fexp_ge_emin k).
      unfold fexp, SpecFloat.fexp in He'. fold emin in He'.
      unfold fexp, SpecFloat.fexp in *. unfold prec in *. lia.
    - pose proof (Zdigits2_bounds q ltac:(lia)) as [Bq _].
      pose proof (Zdigits2_bounds (Zpos m1) ltac:(lia)) as [_ B1].
      pose proof (Zdigits2_bounds (Zpos m2) ltac:(lia)) as [B2 _].
      cbn [Zdigits2] in B1, B2.
      set (d1 := Zpos (digits2_pos m1)) in *.
      set (d2 := Zpos (digits2_pos m2)) in *.
      assert (Hd2 : 1 <= d2) by (unfold d2; lia).
      assert (Hdq1 : 1 <= Zdigits2 q).
      { rewrite Zdigits2_pos by lia. pose proof (Z.log2_nonneg q). lia. }
      assert (Hlt : 2 ^ (Zdigits2 q - 1 + (d2 - 1)) < 2 ^ (d1 + sh)).
      { rewrite !Z.pow_add_r by lia.
        assert (2 ^ (Zdigits2 q - 1) * 2 ^ (d2 - 1) <= q * Zpos m2) by nia.
        assert (Zpos m1 * 2 ^ sh < 2 ^ d1 * 2 ^ sh) by nia.
        nia. }
      apply Z.pow_lt_mono_r_iff in Hlt; [|lia|unfold d1; lia].
      unfold mag in Hk. fold d1 d2 in Hk. unfold sh in Hlt. lia. }
  exists q, e', (new_location (Zpos m2) r).
  split; [exact Hq|]. split; [reflexivity|]. split; [exact He'|].
  split; [exact Hdq|]. split; [|reflexivity].
  fold sh. rewrite <- Em'. nia.
Qed.

(** The quotient of two finite numbers: its magnitude is at most the
    difference of theirs, plus two. *)
Lemma fdiv_finite_upper (s1 s2 : bool) (m1 m2 : positive) (e1 e2 k : Z) :
  mag m1 e1 - mag m2 e2 + 1 <= k -> emin <= k ->
  rounded_within (xorb s1 s2) (k + 1) (fexp (k + 1))
                 (fdiv (S754_finite s1 m1 e1) (S754_finite s2 m2 e2)).
Proof.
  intros Hk Hemin.
  destruct (fdiv_core s1 s2 m1 m2 e1 e2 k Hk Hemin)
    as (q & e' & l & Hq & _ & He' & Hdq & _ & ->).
  pose proof (binary_round_aux_upper (xorb s1 s2) q e' l
                k (fexp k) Hq Hdq Hemin He') as U.
  pose proof (fexp_mono k (k + 1)).
  replace (Z.max (fexp k) (fexp (k + 1))) with (fexp (k + 1)) in U by lia.
  exact U.
Qed.

(** ** The masks of line 159 *)

Lemma rounded_within_class (s : bool) (k x : Z) (r : float64) :
  rounded_within s k x r ->
  r = S754_zero s \/ r = S754_infinity s
  \/ exists m e, r = S754_finite s m e.
Proof.
  destruct r as [s'|s'| |s' m e]; cbn [rounded_within].
  - intros ->. now left.
  - intros [-> _]. right. now left.
  - contradiction.
  - intros [-> _]. right. right. now exists m, e.
Qed.

Lemma rounds_not_nan (d : Z) (r : float64) : rounds d r -> isnan r = false.
Proof. destruct r; cbn [rounds]; [reflexivity..|contradiction|reflexivity]. Qed.

(** Dividing by a zero is never safe. *)
Lemma domain_safe_divide_zero (a : float64) (sb : bool) :
  isnan a = false -> domain_safe_divide a (S754_zero sb) = true.
Proof.
  intros Ha. unfold domain_safe_divide.
  destruct a as [sa|sa| |sa ma ea]; try discriminate; try reflexivity.
  cbn [SFabs].
  pose proof (fmul_finite_upper false false ma (2 ^ 52) ea (-1074)
                (Z.max (mag ma ea + mag (2 ^ 52) (-1074)) emin)
                (ea + -1074) ltac:(lia) ltac:(lia) ltac:(lia)) as U.
  apply rounded_within_class in U.
  change tiny with (S754_finite false (2 ^ 52) (-1074)).
  destruct U as [-> | [-> | (m & e & ->)]]; reflexivity.
Qed.

(** Dividing an infinity is never safe. *)
Lemma domain_safe_divide_inf (sa : bool) (b : float64) :
  isnan b = false -> domain_safe_divide (S754_infinity sa) b = true.
Proof.
  intros Hb. unfold domain_safe_divide.
  destruct b as [sb|sb| |sb mb eb]; try discriminate; reflexivity.
Qed.

(** ** An entry that is not masked *)

Lemma clip_entry_selects (lo hi v : float64) :
  clip_entry lo hi v = v \/ clip_entry lo hi v = hi
  \/ clip_entry lo hi v = lo.
Proof.
  unfold clip_entry.
  destruct (maximum_selects (minimum v hi) lo) as [-> | ->]; [|auto].
  destruct (minimum_selects v hi) as [-> | ->]; auto.
Qed.

Lemma SFcompare_nan_r (a : float64) : SFcompare a S754_nan = None.
Proof. now destruct a. Qed.

(** A NaN on either side of [minimum] or [maximum] comes out. *)
Lemma minimum_nan (a b : float64) :
  isnan a = true \/ isnan b = true -> isnan (minimum a b) = true.
Proof.
  unfold minimum, le, SFleb. intros [H|H].
  - rewrite H, orb_true_r. exact H.
  - destruct b; try discriminate. rewrite SFcompare_nan_r.
    destruct (isnan a) eqn:Ea; [exact Ea | reflexivity].
Qed.

Lemma maximum_nan (a b : float64) :
  isnan a = true \/ isnan b = true -> isnan (maximum a b) = true.
Proof.
  unfold maximum, ge. intros [H|H].
  - rewrite H, orb_true_r. exact H.
  - destruct b; try discriminate. rewrite SFcompare_nan_r.
    destruct (isnan a) eqn:Ea; [exact Ea | reflexivity].
Qed.

Lemma isfinite_not_nan (a : float64) : isfinite a = true -> isnan a = false.
Proof. now destruct a. Qed.

Lemma clip_entry_finite_not_nan (lo hi v : float64) :
  isfinite (clip_entry lo hi v) = true ->
  isnan lo = false /\ isnan hi = false /\ isnan v = false.
Proof.
  intros H. apply isfinite_not_nan in H. unfold clip_entry in H.
  destruct (isnan lo) eqn:El.
  { rewrite maximum_nan in H by now right. discriminate. }
  destruct (isnan hi) eqn:Eh.
  { rewrite maximum_nan in H; [discriminate|].
    left. apply minimum_nan. now right. }
  destruct (isnan v) eqn:Ev.
  { rewrite maximum_nan in H; [discriminate|].
    left. apply minimum_nan. now left. }
  repeat split.
Qed.

Lemma clip_entry_valid (lo hi v : float64) :
  valid lo -> valid hi -> valid v -> valid (clip_entry lo hi v).
Proof.
  intros Vlo Vhi Vv.
  destruct (clip_entry_selects lo hi v) as [-> | [-> | ->]]; assumption.
Qed.

(** With bounds out of order, a clipped entry that is finite is the
    lower bound. *)
Lemma clip_entry_out_of_order (lo hi v : float64) :
  valid lo -> valid hi -> valid v ->
  isfinite lo = true -> isfinite hi = true ->
  isfinite (clip_entry lo hi v) = true ->
  le lo hi = false -> clip_entry lo hi v = lo.
Proof.
  intros Vlo Vhi Vv Flo Fhi F1 Hb.
  destruct (clip_entry_finite_not_nan lo hi v F1) as (Nlo & Nhi & Nv).
  unfold clip_entry in *. unfold maximum in *.
  rewrite <- (le_ge lo (minimum v hi)) in *.
  destruct (le lo (minimum v hi)) eqn:E1; cbn [orb] in *.
  - exfalso.
    assert (Vt : valid (minimum v hi))
      by (destruct (minimum_selects v hi) as [-> | ->]; assumption).
    rewrite le_F2Z in E1, Hb by assumption.
    assert (E2 : le (minimum v hi) hi = true).
    { unfold minimum. rewrite Nv, orb_false_r.
      destruct (le v hi) eqn:E; [exact E | now apply le_refl]. }
    rewrite le_F2Z in E2 by assumption.
    apply Z.leb_le in E1, E2. apply Z.leb_gt in Hb. lia.
  - assert (Nt : isnan (minimum v hi) = false).
    { destruct (minimum_selects v hi) as [-> | ->]; assumption. }
    now rewrite Nt.
Qed.

(** The entry after rescaling, where it is not masked: a zero, or a
    number of magnitude at most 3. *)
Lemma unmasked_entry_bounded (lo hi v : float64) (mlo mhi : bool) :
  valid lo -> valid hi -> valid v ->
  masked_after_idiv lo hi mlo mhi v = false ->
  exists s,
    rounded_within s 3 (fexp 3) (rescaled_entry lo hi mlo mhi v).
Proof.
  intros Vlo Vhi Vv Hm.
  unfold rescaled_entry. rewrite Hm.
  unfold masked_after_idiv in Hm.
  apply orb_false_elim in Hm as [Hm2 Hm].
  apply orb_false_elim in Hm as [Hmm Hdom].
  unfold shifted_entry, range_entry in *. rewrite Hm2, Hmm in *.
  unfold masked_after_isub in Hm2.
  apply orb_false_elim in Hm2 as [F1 _].
  apply negb_false_iff in F1.
  pose proof (clip_entry_valid lo hi v Vlo Vhi Vv) as V1.
  destruct (clip_entry_finite_not_nan lo hi v F1) as (Nlo & Nhi & Nv).
  set (v1 := clip_entry lo hi v) in *.
  destruct (isfinite lo) eqn:Flo.
  - (* a finite lower bound *)
    pose proof (fsub_rounds v1 lo V1 Vlo F1 Flo) as R2.
    destruct (isfinite hi) eqn:Fhi.
    + (* finite bounds *)
      pose proof (fsub_rounds hi lo Vhi Vlo Fhi Flo) as Rr.
      assert (Hord : F2Z v1 - F2Z lo = 0
                     \/ 0 <= F2Z v1 - F2Z lo <= F2Z hi - F2Z lo).
      { destruct (le lo hi) eqn:Hb.
        - right.
          destruct (clip_entry_between lo hi v Hb Nv) as [H1 H2].
          fold v1 in H1, H2.
          rewrite le_F2Z in H1, H2 by assumption.
          apply Z.leb_le in H1, H2. lia.
        - left. unfold v1.
          rewrite (clip_entry_out_of_order lo hi v) by assumption. lia. }
      destruct (fsub v1 lo) as [s2|s2| |s2 m2 e2] eqn:E2.
      * (* the shifted entry is zero *)
        destruct (fsub hi lo) as [sr|sr| |sr mr er] eqn:Er;
          cbn [rounds] in Rr; try contradiction.
        -- rewrite domain_safe_divide_zero in Hdom by reflexivity.
           discriminate.
        -- exists (xorb s2 sr). reflexivity.
        -- exists (xorb s2 sr). reflexivity.
      * rewrite domain_safe_divide_inf in Hdom
          by (eapply rounds_not_nan; eassumption).
        discriminate.
      * contradiction.
      * destruct (fsub hi lo) as [sr|sr| |sr mr er] eqn:Er;
          cbn [rounds] in Rr; try contradiction.
        -- rewrite domain_safe_divide_zero in Hdom by reflexivity.
           discriminate.
        -- exists (xorb s2 sr). reflexivity.
        -- exists (xorb s2 sr).
           cbn [rounds] in R2.
           destruct R2 as (D2 & _ & [_ U2] & _).
           destruct Rr as (Dr & _ & [Lr _] & _).
           destruct Hord as [H0|Hord]; [contradiction|].
           pose proof (Zdigits2_mono (Z.abs (F2Z v1 - F2Z lo))
                         (Z.abs (F2Z hi - F2Z lo)) ltac:(lia)) as Hd.
           apply (fdiv_finite_upper s2 sr m2 mr e2 er 2);
             [lia | unfold emin, SpecFloat.emin, emax, prec; lia].
    + (* an infinite upper bound *)
      destruct hi as [sh|sh| |sh mh eh]; try discriminate.
      assert (Er : fsub (S754_infinity sh) lo = S754_infinity sh).
      { destruct lo; try discriminate; reflexivity. }
      rewrite Er in *.
      destruct (fsub v1 lo) as [s2|s2| |s2 m2 e2] eqn:E2.
      * exists (xorb s2 sh). reflexivity.
      * rewrite domain_safe_divide_inf in Hdom by reflexivity.
        discriminate.
      * contradiction.
      * exists (xorb s2 sh). reflexivity.
  - (* an infinite lower bound: the entry is masked *)
    exfalso.
    destruct lo as [sl|[|]| |sl ml el]; try discriminate.
    + (* -inf *)
      assert (E2 : fsub v1 (S754_infinity true) = S754_infinity false).
      { destruct v1; try discriminate; reflexivity. }
      rewrite E2 in Hdom.
      rewrite domain_safe_divide_inf in Hdom; [discriminate|].
      destruct hi as [sh|[|]| |sh mh eh]; try discriminate; try reflexivity.
      exfalso. unfold v1, clip_entry in F1.
      destruct v as [sv|[|]| |sv mv ev]; discriminate.
    + (* +inf *)
      unfold v1, clip_entry, maximum in F1.
      destruct (minimum v hi) as [st|[|]| |st mt et]; discriminate.
Qed.

(** ** The entry written back *)

Lemma valid_hundred : valid hundred.
Proof. reflexivity. Qed.

(** The entry written back is finite. *)
Lemma normalize_entry_finite (lo hi v : float64) (mlo mhi : bool) :
  valid lo -> valid hi -> valid v ->
  isfinite (normalize_entry lo hi mlo mhi v) = true.
Proof.
  intros Vlo Vhi Vv. unfold normalize_entry.
  destruct (masked_after_idiv lo hi mlo mhi v) eqn:Hm; [reflexivity|].
  destruct (unmasked_entry_bounded lo hi v mlo mhi Vlo Vhi Vv Hm) as (s & R).
  destruct (rescaled_entry lo hi mlo mhi v) as [s3|s3| |s3 m3 e3];
    cbn [rounded_within] in R.
  - reflexivity.
  - exfalso. destruct R as [_ R]. revert R.
    unfold fexp, SpecFloat.fexp, SpecFloat.emin, emax, prec. lia.
  - contradiction.
  - destruct R as (_ & Hmag & He & _).
    change hundred with (S754_finite false 7036874417766400 (-46)).
    pose proof (fmul_finite_upper s3 false m3 7036874417766400 e3 (-46)
                  10 (-96)) as U.
    assert (Hh : mag 7036874417766400 (-46) = 7) by reflexivity.
    assert (Hf : fexp 3 = -50) by reflexivity.
    specialize (U ltac:(lia) ltac:(unfold emin, SpecFloat.emin, emax, prec; lia)
                  ltac:(lia)).
    apply rounded_within_class in U.
    destruct U as [-> | [E | (m & e & ->)]]; try reflexivity.
    exfalso.
    pose proof (fmul_finite_upper s3 false m3 7036874417766400 e3 (-46)
                  10 (-96) ltac:(lia)
                  ltac:(unfold emin, SpecFloat.emin, emax, prec; lia)
                  ltac:(lia)) as U.
    rewrite E in U. cbn [rounded_within] in U. destruct U as [_ U].
    revert U. unfold fexp, SpecFloat.fexp, SpecFloat.emin, emax, prec. lia.
Qed.

(** An entry that is NaN after rescaling is masked, and written back
    as 0. *)
Lemma nan_after_rescaling_is_zero (lo hi v : float64) (mlo mhi : bool) :
  valid lo -> valid hi -> valid v ->
  isnan (rescaled_entry lo hi mlo mhi v) = true ->
  masked_after_idiv lo hi mlo mhi v = true
  /\ normalize_entry lo hi mlo mhi v = zero.
Proof.
  intros Vlo Vhi Vv Hnan. unfold normalize_entry.
  destruct (masked_after_idiv lo hi mlo mhi v) eqn:Hm.
  - split; reflexivity.
  - destruct (unmasked_entry_bounded lo hi v mlo mhi Vlo Vhi Vv Hm) as (s & R).
    destruct (rescaled_entry lo hi mlo mhi v); try discriminate.
    contradiction.
Qed.

(** An entry of a column whose bound is masked is written back as 0. *)
Lemma masked_column_is_zero (lo hi v : float64) (mhi : bool) :
  normalize_entry lo hi true mhi v = zero.
Proof.
  unfold normalize_entry, masked_after_idiv, masked_after_isub.
  rewrite orb_true_r. reflexivity.
Qed.

(** ** The whole array *)

Lemma Forall_zip_with {A B C : Type} (P : C -> Prop) (f : A -> B -> C)
  (l : list A) (l' : list B) :
  (forall a b, In a l -> In b l' -> P (f a b)) ->
  Forall P (zip_with f l l').
Proof.
  revert l'; induction l as [|a l IH]; intros [|b l'] H; simpl;
    constructor.
  - apply H; now left.
  - apply IH. intros a' b' Ha Hb. apply H; now right.
Qed.

Lemma Forall_broadcast_to {A : Type} (P : A -> Prop) (k : nat)
  (v bv : list A) :
  broadcast_to k v = Some bv -> Forall P v -> Forall P bv.
Proof.
  unfold broadcast_to. destruct (Nat.eqb (length v) k).
  - now intros [= <-].
  - destruct v as [|a [|b v]]; try discriminate.
    intros [= <-] H. inversion H; subst.
    apply Forall_forall. intros x Hx. apply repeat_spec in Hx. now subst.
Qed.

Lemma broadcast_to_same_length {A B : Type} (k : nat) (u bu : list A)
  (v : list B) :
  length v = length u -> broadcast_to k u = Some bu ->
  exists bv, broadcast_to k v = Some bv.
Proof.
  unfold broadcast_to. intros Hl. rewrite Hl.
  destruct (Nat.eqb (length u) k); [eauto|].
  destruct u as [|a [|a' u]]; try discriminate.
  destruct v as [|b [|b' v]]; try discriminate. eauto.
Qed.

(** If the call returns, the bounds broadcast along the rows. *)
Lemma normalize_returns_broadcast (mins maxs : array1) (w w' : world)
  (r : array1 * array1) :
  normalize_by_columns (Some mins) (Some maxs) w = (Return r, w') ->
  exists lo hi,
    broadcast_to (ncols (full_stack w)) (getdata mins) = Some lo
    /\ broadcast_to (ncols (full_stack w)) (getdata maxs) = Some hi.
Proof.
  unfold normalize_by_columns. intros H.
  apply bind_Return in H as (old & w1 & H1 & H).
  unfold seterr in H1. injection H1 as <- <-.
  apply bind_Return in H as ([mins' maxs'] & w2 & H2 & H).
  unfold ret in H2. injection H2 as <- <- <-.
  apply bind_Return in H as ([] & w3 & H3 & _).
  unfold clip in H3.
  apply bind_Return in H3 as (a & w4 & H4 & H3).
  unfold get_stack in H4. injection H4 as <- <-.
  apply bind_Return in H3 as (hi & w5 & H5 & H3).
  cbn [full_stack] in H5.
  destruct (broadcast_to (ncols (full_stack w)) (getdata maxs)) as [hi'|]
    eqn:Ehi; [|discriminate].
  unfold lift_broadcast, ret in H5. injection H5 as <- <-.
  apply bind_Return in H3 as ([] & w6 & H6 & H3).
  unfold put_rows in H6. injection H6 as <-.
  apply bind_Return in H3 as (a & w7 & H7 & H3).
  unfold get_stack in H7. injection H7 as <- <-.
  apply bind_Return in H3 as (lo & w8 & H8 & _).
  cbn [full_stack set_rows ncols] in H8.
  destruct (broadcast_to (ncols (full_stack w)) (getdata mins)) as [lo'|]
    eqn:Elo; [|discriminate].
  eauto.
Qed.

(** Given valid bounds, every entry written back is finite, and each is
    the entry of the same place normalised against the bounds of its
    column. *)
Lemma normalize_given_bounds (mins maxs : array1) (w w' : world)
  (r : array1 * array1) :
  well_formed (full_stack w) -> all_valid (full_stack w) ->
  bounds_ok (Some mins) -> bounds_ok (Some maxs) ->
  normalize_by_columns (Some mins) (Some maxs) w = (Return r, w') ->
  exists lo hi mlo mhi,
    broadcast_to (ncols (full_stack w)) (getdata mins) = Some lo
    /\ broadcast_to (ncols (full_stack w)) (getdata maxs) = Some hi
    /\ broadcast_to (ncols (full_stack w)) (getmaskarray mins) = Some mlo
    /\ broadcast_to (ncols (full_stack w)) (getmaskarray maxs) = Some mhi
    /\ Forall valid lo /\ Forall valid hi
    /\ r = (mins, maxs)
    /\ w' = set_rows w (map (normalize_row lo hi mlo mhi)
                            (rows (full_stack w)))
    /\ all_finite (full_stack w').
Proof.
  intros Wf Va [Wlo Vlo] [Whi Vhi] H.
  destruct (normalize_returns_broadcast mins maxs w w' r H)
    as (lo & hi & Hlo & Hhi).
  destruct (broadcast_to_same_length _ _ _ (getmaskarray mins) Wlo Hlo)
    as (mlo & Hmlo).
  destruct (broadcast_to_same_length _ _ _ (getmaskarray maxs) Whi Hhi)
    as (mhi & Hmhi).
  pose proof (Forall_broadcast_to valid _ _ _ Hlo Vlo) as Vlo'.
  pose proof (Forall_broadcast_to valid _ _ _ Hhi Vhi) as Vhi'.
  rewrite (normalize_with_bounds mins maxs w lo hi mlo mhi) in H
    by assumption.
  injection H as <- <-.
  exists lo, hi, mlo, mhi. repeat split; try assumption.
  unfold all_finite, set_rows. cbn [full_stack rows].
  apply Forall_forall. intros row' Hin.
  apply in_map_iff in Hin as (row & <- & Hrow).
  unfold normalize_row. apply Forall_zip_with. intros v c Hv Hc.
  unfold all_valid in Va. rewrite Forall_forall in Va.
  specialize (Va row Hrow). rewrite Forall_forall in Va, Vlo', Vhi'.
  unfold column_bounds in Hc. destruct c as [[l h] [ml mh]].
  apply in_combine_l in Hc. pose proof (in_combine_l _ _ _ _ Hc) as Hl.
  apply in_combine_r in Hc. cbn [fst snd].
  apply normalize_entry_finite; auto.
Qed.

Lemma fold_left_selects (extreme : float64 -> float64 -> float64)
  (xs : list float64) :
  (forall x y, extreme x y = x \/ extreme x y = y) ->
  forall x, In (fold_left extreme xs x) (x :: xs).
Proof.
  intros Hsel. induction xs as [|y xs IH]; intros x; simpl.
  - now left.
  - destruct (IH (extreme x y)) as [E|Hin].
    + rewrite <- E. destruct (Hsel x y) as [-> | ->]; auto.
    + auto.
Qed.

Lemma bound_skipping_invalid_valid
  (extreme : float64 -> float64 -> float64) (c : list float64) :
  (forall x y, extreme x y = x \/ extreme x y = y) ->
  Forall valid c -> valid (fst (bound_skipping_invalid extreme c)).
Proof.
  intros Hsel Vc. unfold bound_skipping_invalid.
  destruct (filter isfinite c) as [|x xs] eqn:E; [reflexivity|].
  cbn [fst]. rewrite Forall_forall in Vc. apply Vc.
  pose proof (fold_left_selects extreme xs Hsel x) as Hin.
  rewrite <- E in Hin. now apply filter_In in Hin.
Qed.

Lemma column_valid (a : ndarray) (j : nat) :
  well_formed a -> all_valid a -> (j < ncols a)%nat ->
  Forall valid (column j (rows a)).
Proof.
  unfold well_formed, all_valid, column. intros Wf Va Hj.
  rewrite Forall_forall in *. intros x Hin.
  apply in_map_iff in Hin as (row & <- & Hrow).
  specialize (Wf row Hrow). specialize (Va row Hrow).
  rewrite Forall_forall in Va. apply Va. apply nth_In. lia.
Qed.

(** The derived bounds are bounds a caller could give. *)
Lemma derived_bounds_ok (a : ndarray) :
  well_formed a -> rows a <> [] -> all_valid a ->
  bounds_ok (Some (derived_mins a)) /\ bounds_ok (Some (derived_maxs a)).
Proof.
  intros Wf Hne Va.
  destruct (length_derived minimum pinf a Wf Hne) as [Ld Lm].
  destruct (length_derived maximum ninf a Wf Hne) as [Ld' Lm'].
  fold (derived_mins a) in Ld, Lm. fold (derived_maxs a) in Ld', Lm'.
  split; (split; [unfold well_formed1; congruence|]);
    apply Forall_forall; intros x Hin;
    apply In_nth_error in Hin as [j Hj];
    pose proof (nth_error_Some_lt _ _ _ Hj) as Hlt.
  - destruct (derived_mins_column a j Wf Hne ltac:(lia)) as [E _].
    rewrite E in Hj. injection Hj as <-.
    apply bound_skipping_invalid_valid;
      [apply minimum_selects | apply column_valid; [assumption..|lia]].
  - destruct (derived_maxs_column a j Wf Hne ltac:(lia)) as [E _].
    rewrite E in Hj. injection Hj as <-.
    apply bound_skipping_invalid_valid;
      [apply maximum_selects | apply column_valid; [assumption..|lia]].
Qed.

Lemma broadcast_to_exact {A : Type} (k : nat) (v : list A) :
  length v = k -> broadcast_to k v = Some v.
Proof. intros <-. unfold broadcast_to. now rewrite Nat.eqb_refl. Qed.

(** Without bounds, on an array with at least one row, the call
    returns. *)
Lemma normalize_derived_returns (mins maxs : option array1) (w : world) :
  mins = None \/ maxs = None ->
  well_formed (full_stack w) -> rows (full_stack w) <> [] ->
  normalize_by_columns mins maxs w
  = (Return (derived_mins (full_stack w), derived_maxs (full_stack w)),
     set_rows w
       (map (normalize_row (getdata (derived_mins (full_stack w)))
                           (getdata (derived_maxs (full_stack w)))
                           (getmaskarray (derived_mins (full_stack w)))
                           (getmaskarray (derived_maxs (full_stack w))))
            (rows (full_stack w)))).
Proof.
  intros Hnone Wf Hne.
  rewrite (normalize_derives mins maxs w Hnone Hne).
  destruct (length_derived minimum pinf _ Wf Hne) as [Ld Lm].
  destruct (length_derived maximum ninf _ Wf Hne) as [Ld' Lm'].
  fold (derived_mins (full_stack w)) in Ld, Lm.
  fold (derived_maxs (full_stack w)) in Ld', Lm'.
  apply normalize_with_bounds; try assumption;
    try (unfold well_formed1; congruence);
    now apply broadcast_to_exact.
Qed.

(** ** A missing bound *)

(** C10: when one of [mins] and [maxs] is given and the other is
    [None], the call is the call with neither: the given vector is not
    read.  On an array with at least one row the call returns the pair
    derived from the matrix, whose entry [j] is the least (greatest)
    finite entry of column [j], masked when the column has none, and
    the matrix has been normalised against that pair: the entry of row
    [i] and column [j] is 0 where the column has no finite entry, and
    elsewhere it is clipped into the derived bounds [lo], [hi] of its
    column and, unless it is masked, replaced by
    [(c - lo) / (hi - lo) * 100].  The array keeps its shape and the
    error settings are those of the call. *)
Theorem C10_one_bound_missing (given : array1) (w : world) :
  normalize_by_columns (Some given) None w = normalize_by_columns None None w
  /\ normalize_by_columns None (Some given) w
     = normalize_by_columns None None w
  /\ (well_formed (full_stack w) -> rows (full_stack w) <> [] ->
      let mins := derived_mins (full_stack w) in
      let maxs := derived_maxs (full_stack w) in
      exists w',
        normalize_by_columns (Some given) None w = (Return (mins, maxs), w')
        /\ normalize_by_columns None (Some given) w
           = (Return (mins, maxs), w')
        /\ normalize_by_columns (Some mins) (Some maxs) w
           = (Return (mins, maxs), w')
        /\ errs w' = errs w
        /\ ncols (full_stack w') = ncols (full_stack w)
        /\ length (rows (full_stack w')) = length (rows (full_stack w))
        /\ forall j, (j < ncols (full_stack w))%nat ->
             let col := column j (rows (full_stack w)) in
             let lo := fst (bound_skipping_invalid minimum col) in
             let hi := fst (bound_skipping_invalid maximum col) in
             let none_finite := snd (bound_skipping_invalid minimum col) in
             nth_error (getdata mins) j = Some lo
             /\ nth_error (getdata maxs) j = Some hi
             /\ nth_error (getmaskarray mins) j = Some none_finite
             /\ nth_error (getmaskarray maxs) j = Some none_finite
             /\ forall i row v,
                  nth_error (rows (full_stack w)) i = Some row ->
                  nth_error row j = Some v ->
                  exists row',
                    nth_error (rows (full_stack w')) i = Some row'
                    /\ nth_error row' j
                       = Some (if none_finite then zero
                               else
                                 let c := clip_entry lo hi v in
                                 if negb (isfinite c)
                                    || domain_safe_divide (fsub c lo)
                                                          (fsub hi lo)
                                 then zero
                                 else fmul (fdiv (fsub c lo) (fsub hi lo))
                                           hundred)).
Proof.
  split; [reflexivity|]. split; [reflexivity|].
  intros Wf Hne mins maxs.
  pose proof (normalize_derived_returns None None w (or_introl eq_refl)
                Wf Hne) as E.
  fold mins maxs in E.
  eexists. split; [exact E|]. split; [exact E|].
  destruct (length_derived minimum pinf _ Wf Hne) as [Ld Lm].
  destruct (length_derived maximum ninf _ Wf Hne) as [Ld' Lm'].
  fold (derived_mins (full_stack w)) in Ld, Lm.
  fold (derived_maxs (full_stack w)) in Ld', Lm'.
  fold mins in Ld, Lm. fold maxs in Ld', Lm'.
  split.
  { apply normalize_with_bounds; try assumption;
      try (unfold well_formed1; congruence);
      now apply broadcast_to_exact. }
  split; [reflexivity|]. split; [reflexivity|].
  split; [cbn [set_rows full_stack rows]; apply length_map|].
  intros j Hj col lo hi none_finite.
  destruct (derived_mins_column _ j Wf Hne Hj) as [Dlo Mlo].
  destruct (derived_maxs_column _ j Wf Hne Hj) as [Dhi Mhi].
  fold mins in Dlo, Mlo. fold maxs in Dhi, Mhi.
  fold col in Dlo, Mlo, Dhi, Mhi. fold lo in Dlo. fold hi in Dhi.
  fold none_finite in Mlo.
  assert (Em : snd (bound_skipping_invalid maximum col) = none_finite).
  { unfold none_finite, bound_skipping_invalid.
    now destruct (filter isfinite col). }
  rewrite Em in Mhi.
  split; [exact Dlo|]. split; [exact Dhi|]. split; [exact Mlo|].
  split; [exact Mhi|].
  intros i row v Hrow Hv.
  eexists. split.
  { cbn [set_rows full_stack rows].
    rewrite nth_error_map, Hrow. reflexivity. }
  unfold normalize_row, column_bounds.
  rewrite nth_error_zip_with, !nth_error_combine, Hv, Dlo, Dhi, Mlo, Mhi.
  cbn [fst snd]. f_equal.
  destruct none_finite.
  - apply masked_column_is_zero.
  - apply normalize_entry_plain.
Qed.

Lemma C10_witness :
  exists w',
    normalize_by_columns (Some (ndarray1 [of_Z 0; of_Z 0])) None nan_column
    = (Return (derived_mins (full_stack nan_column),
               derived_maxs (full_stack nan_column)), w')
    /\ normalize_by_columns None (Some (ndarray1 [of_Z 0; of_Z 0])) nan_column
       = (Return (derived_mins (full_stack nan_column),
                  derived_maxs (full_stack nan_column)), w')
    /\ rows (full_stack w') = [[zero; zero]; [zero; hundred]].
Proof.
  destruct (proj2 (proj2 (C10_one_bound_missing
                            (ndarray1 [of_Z 0; of_Z 0]) nan_column)))
    as (w' & E1 & E2 & _).
  - repeat constructor.
  - discriminate.
  - exists w'. split; [exact E1|]. split; [exact E2|].
    vm_compute in E1. now injection E1 as <-.
Defined.

Lemma filter_all_nan (c : list float64) :
  Forall (fun x => x = nan) c -> filter isfinite c = [].
Proof.
  induction 1 as [|x c Hx _ IH]; [reflexivity|].
  cbn [filter]. now rewrite Hx, IH.
Qed.

(** C7: when the call returns, on an array of float64 numbers with
    bounds that are float64 numbers (or derived), no NaN and no
    infinity remains; every entry is the normalised entry of its place,
    and it is 0 wherever the rescaling left a NaN.  A column that is NaN
    throughout comes back as a column of 0 and the call returns; the
    column 7, 7, 7 comes back as 0, 0, 0. *)
Theorem C7_no_invalid_value_remains :
  (forall (mins maxs : option array1) (w w' : world) (r : array1 * array1),
     well_formed (full_stack w) -> all_valid (full_stack w) ->
     bounds_ok mins -> bounds_ok maxs ->
     normalize_by_columns mins maxs w = (Return r, w') ->
     all_finite (full_stack w')
     /\ exists lo hi mlo mhi,
          rows (full_stack w')
          = map (normalize_row lo hi mlo mhi) (rows (full_stack w))
          /\ forall j l h ml mh v,
               nth_error lo j = Some l -> nth_error hi j = Some h ->
               nth_error mlo j = Some ml -> nth_error mhi j = Some mh ->
               valid v ->
               isnan (rescaled_entry l h ml mh v) = true ->
               normalize_entry l h ml mh v = zero)
  /\ (forall (w : world) (j : nat),
        well_formed (full_stack w) -> rows (full_stack w) <> [] ->
        (j < ncols (full_stack w))%nat ->
        Forall (fun x => x = nan) (column j (rows (full_stack w))) ->
        exists r w',
          normalize_by_columns None None w = (Return r, w')
          /\ Forall (fun x => x = zero) (column j (rows (full_stack w'))))
  /\ (exists r,
        normalize_by_columns None None sevens
        = (Return r, world_of 1 (column_of [0; 0; 0])))
  /\ (exists r,
        normalize_by_columns None None nan_column
        = (Return r, world_of 2 [[zero; zero]; [zero; hundred]])).
Proof.
  split; [|split; [|split]].
  - intros mins maxs w w' r Wf Va Bmins Bmaxs H.
    assert (G : exists mins' maxs',
               bounds_ok (Some mins') /\ bounds_ok (Some maxs')
               /\ normalize_by_columns (Some mins') (Some maxs') w
                  = (Return r, w')).
    { destruct mins as [mins|]; [destruct maxs as [maxs|]|].
      - exists mins, maxs. auto.
      - assert (Hne : rows (full_stack w) <> []).
        { intros Er.
          destruct (normalize_no_row (Some mins) None w (or_intror eq_refl) Er)
            as (e & E & _). congruence. }
        rewrite (normalize_derives _ _ w (or_intror eq_refl) Hne) in H.
        destruct (derived_bounds_ok _ Wf Hne Va). eauto.
      - assert (Hne : rows (full_stack w) <> []).
        { intros Er.
          destruct (normalize_no_row None maxs w (or_introl eq_refl) Er)
            as (e & E & _). congruence. }
        rewrite (normalize_derives _ _ w (or_introl eq_refl) Hne) in H.
        destruct (derived_bounds_ok _ Wf Hne Va). eauto. }
    destruct G as (mins' & maxs' & B1 & B2 & H').
    destruct (normalize_given_bounds mins' maxs' w w' r Wf Va B1 B2 H')
      as (lo & hi & mlo & mhi & _ & _ & _ & _ & Vlo & Vhi & _ & -> & Hfin).
    split; [exact Hfin|].
    exists lo, hi, mlo, mhi. split; [reflexivity|].
    intros j l h ml mh v Hl Hh _ _ Vv Hnan.
    rewrite Forall_forall in Vlo, Vhi.
    apply nth_error_In in Hl, Hh.
    apply nan_after_rescaling_is_zero; auto.
  - intros w j Wf Hne Hj Hnan.
    eexists _, _. split.
    + apply (normalize_derived_returns None None w (or_introl eq_refl));
        assumption.
    + unfold set_rows. cbn [full_stack rows].
      unfold column in *. rewrite map_map.
      rewrite Forall_forall in *. intros x Hin.
      apply in_map_iff in Hin as (row & <- & Hrow).
      assert (Lrow : length row = ncols (full_stack w)).
      { unfold well_formed in Wf. rewrite Forall_forall in Wf.
        now apply Wf. }
      destruct (derived_mins_column _ j Wf Hne Hj) as [Ed Em].
      destruct (derived_maxs_column _ j Wf Hne Hj) as [Ed' Em'].
      assert (Hcol : filter isfinite (column j (rows (full_stack w))) = []).
      { apply filter_all_nan. unfold column. now apply Forall_forall. }
      unfold bound_skipping_invalid in Em. rewrite Hcol in Em.
      cbn [snd] in Em.
      destruct (nth_error row j) as [v|] eqn:Ev;
        [|apply nth_error_None in Ev; lia].
      unfold normalize_row, column_bounds.
      assert (E : nth_error
                    (zip_with
                       (fun v c =>
                          normalize_entry (fst (fst c)) (snd (fst c))
                                          (fst (snd c)) (snd (snd c)) v)
                       row
                       (combine
                          (combine (getdata (derived_mins (full_stack w)))
                                   (getdata (derived_maxs (full_stack w))))
                          (combine
                             (getmaskarray (derived_mins (full_stack w)))
                             (getmaskarray (derived_maxs (full_stack w))))))
                    j
                  = Some zero).
      { rewrite nth_error_zip_with, !nth_error_combine, Ev, Ed, Ed', Em, Em'.
        cbn [fst snd]. now rewrite masked_column_is_zero. }
      now apply nth_error_nth.
  - eexists. vm_compute. reflexivity.
  - eexists. vm_compute. reflexivity.
Qed.

Lemma C7_witness :
  well_formed (full_stack sevens) /\ all_valid (full_stack sevens)
  /\ all_finite (full_stack (world_of 1 (column_of [0; 0; 0]))).
Proof.
  split; [repeat constructor|]. split; [repeat constructor|].
  refine (proj1 (proj1 C7_no_invalid_value_remains None None sevens
                       (world_of 1 (column_of [0; 0; 0]))
                       (derived_mins (full_stack sevens),
                        derived_maxs (full_stack sevens))
                       _ _ I I _)).
  - repeat constructor.
  - repeat constructor.
  - vm_compute. reflexivity.
Defined.

(** ** How far rounding moves a number *)

(** Rounding [mx * 2 ^ ex]: the result is [m * 2 ^ (ex + n)] for some
    shift [n >= 0], less than two units of its last place away. *)
Lemma binary_round_aux_near (s : bool) (mx ex : Z) (lx : location)
  (k x : Z) :
  0 <= mx -> Zdigits2 mx + ex <= k -> emin <= k -> ex <= x ->
  exists m n,
    0 <= m /\ 0 <= n /\ emin <= ex + n
    /\ ex + n <= Z.max x (fexp (k + 1))
    /\ - 2 * 2 ^ n < m * 2 ^ n - mx <= 2 ^ n
    /\ (m <> 0 -> Zdigits2 m + (ex + n) <= k + 1)
    /\ binary_round_aux prec emax s mx ex lx
       = match m with
         | Z0 => S754_zero s
         | Zpos p => if ex + n <=? emax - prec then S754_finite s p (ex + n)
                     else S754_infinity s
         | Zneg _ => S754_nan
         end.
Proof.
  intros Hmx Hk Hemin Hx.
  destruct (binary_round_aux_spec s mx ex lx Hmx) as (m1' & R & E).
  cbv zeta in E.
  set (n1 := Z.max 0 (fexp (Zdigits2 mx + ex) - ex)) in *.
  set (m1 := mx / 2 ^ n1) in *.
  set (e1 := ex + n1) in *.
  set (n2 := Z.max 0 (fexp (Zdigits2 m1' + e1) - e1)) in *.
  exists (m1' / 2 ^ n2), (n1 + n2).
  assert (Hn1 : 0 <= n1) by (unfold n1; lia).
  assert (Hn2 : 0 <= n2) by (unfold n2; lia).
  pose proof (pow2_pos n1 Hn1) as P1. pose proof (pow2_pos n2 Hn2) as P2.
  assert (Hm1 : 0 <= m1) by (apply Z.div_pos; lia).
  assert (Hd1 : Zdigits2 m1 + e1 <= k).
  { destruct (Z.eq_dec m1 0) as [E0|Hne].
    - rewrite E0. cbn [Zdigits2]. unfold e1, n1.
      pose proof (Zdigits2_nonneg mx).
      pose proof (fexp_mono (Zdigits2 mx + ex) k Hk).
      unfold fexp, SpecFloat.fexp in *. fold emin in *. unfold prec in *.
      lia.
    - pose proof (Zdigits2_div_pow2_le mx n1). unfold e1. fold m1 in H.
      lia. }
  assert (Hd1' : Zdigits2 m1' + e1 <= k + 1).
  { pose proof (Zdigits2_mono m1' (m1 + 1)).
    pose proof (Zdigits2_succ m1 Hm1). lia. }
  split; [apply Z.div_pos; lia|]. split; [lia|].
  split.
  { unfold e1, n1 in *. pose proof (fexp_ge_emin (Zdigits2 mx + ex)). lia. }
  split.
  { pose proof (fexp_mono (Zdigits2 mx + ex) (k + 1)).
    pose proof (fexp_mono (Zdigits2 m1' + e1) (k + 1)).
    unfold n2, e1, n1 in *. lia. }
  split.
  { pose proof (Z.mul_div_le mx (2 ^ n1) P1).
    pose proof (Z.mul_succ_div_gt mx (2 ^ n1) P1).
    pose proof (Z.mul_div_le m1' (2 ^ n2) P2).
    pose proof (Z.mul_succ_div_gt m1' (2 ^ n2) P2).
    fold m1 in H, H0. rewrite Z.pow_add_r by lia.
    set (m2 := m1' / 2 ^ n2) in *.
    assert (0 <= m2) by (apply Z.div_pos; lia).
    nia. }
  split.
  { intros Hne.
    assert (Hq : 0 < m1' / 2 ^ n2).
    { assert (0 <= m1' / 2 ^ n2) by (apply Z.div_pos; lia). lia. }
    pose proof (Zdigits2_div_pow2_le m1' n2 Hn2 Hq). unfold e1 in *. lia. }
  rewrite E. replace (ex + (n1 + n2)) with (e1 + n2) by (unfold e1; lia).
  reflexivity.
Qed.

(** ** Normalising what is already normalised *)

Lemma mag_F2Z (s : bool) (m : positive) (e : Z) :
  valid (S754_finite s m e) ->
  Zdigits2 (Z.abs (F2Z (S754_finite s m e))) + emin = mag m e
  /\ Z.abs (F2Z (S754_finite s m e)) = Zpos m * 2 ^ (e - emin).
Proof.
  intros V. pose proof (valid_finite _ _ _ V) as (He & _).
  pose proof (pow2_pos (e - emin) ltac:(lia)) as Hp.
  assert (E : Z.abs (F2Z (S754_finite s m e)) = Zpos m * 2 ^ (e - emin)).
  { cbn [F2Z]. destruct s; cbn [cond_Zopp]; lia. }
  split; [|exact E].
  rewrite E. unfold mag. rewrite Zdigits2_pos by lia.
  rewrite Z.log2_mul_pow2, digits2_pos_log2 by lia. lia.
Qed.

Lemma F2Z_hundred : F2Z hundred = 100 * 2 ^ 1074.
Proof. reflexivity. Qed.

(** A number between 0 and 100 is finite, and not negative. *)
Lemma between_0_100 (v : float64) :
  le zero v = true -> le v hundred = true ->
  isfinite v = true /\ (forall m e, v <> S754_finite true m e).
Proof.
  intros H0 H100.
  destruct v as [s|[|]| |[|] m e]; try discriminate;
    split; try reflexivity; intros; discriminate.
Qed.

(** A number between 0 and 100 is far from the divisor tiny * |v|: the
    division by 100 is safe. *)
Lemma domain_safe_divide_100 (v : float64) :
  valid v -> le zero v = true -> le v hundred = true ->
  domain_safe_divide v hundred = false.
Proof.
  intros Vv H0 H100.
  destruct (between_0_100 v H0 H100) as [Fv Hpos].
  pose proof H100 as H100'.
  rewrite le_F2Z in H100' by (try assumption; reflexivity).
  apply Z.leb_le in H100'. rewrite F2Z_hundred in H100'.
  unfold domain_safe_divide.
  destruct v as [s|s| |s m e]; try discriminate; [reflexivity|].
  destruct s; [exfalso; eapply Hpos; reflexivity|].
  destruct (mag_F2Z false m e Vv) as [Hmag Habs].
  pose proof (valid_finite _ _ _ Vv) as (He & _).
  pose proof (pow2_pos (e - emin) ltac:(lia)) as Hp.
  assert (HF : 0 < F2Z (S754_finite false m e)).
  { cbn [F2Z cond_Zopp]. lia. }
  rewrite Z.abs_eq in Hmag by lia.
  assert (Hd : Zdigits2 (F2Z (S754_finite false m e)) <= 1081).
  { apply Zdigits2_le; lia. }
  assert (Hm : mag m e <= 7).
  { unfold emin, SpecFloat.emin, emax, prec in Hmag. lia. }
  cbn [SFabs].
  change tiny with (S754_finite false (2 ^ 52) (-1074)).
  assert (Ht : mag (2 ^ 52) (-1074) = -1021) by reflexivity.
  pose proof (fmul_finite_upper false false m (2 ^ 52) e (-1074)
                (-1014) (e + -1074) ltac:(lia)
                ltac:(unfold emin, SpecFloat.emin, emax, prec; lia)
                ltac:(lia)) as U.
  assert (He7 : e <= 6).
  { unfold mag in Hm. pose proof (Pos2Z.is_pos (digits2_pos m)). lia. }
  assert (Hf : fexp (-1014 + 1) = -1066) by reflexivity.
  rewrite Hf in U.
  destruct (fmul (S754_finite false m e) (S754_finite false (2 ^ 52) (-1074)))
    as [s'|s'| |s' m' e']; cbn [rounded_within] in U.
  - subst s'. reflexivity.
  - exfalso. destruct U as [_ U]. unfold emax, prec in U. lia.
  - contradiction.
  - destruct U as (-> & _ & He' & _).
    change hundred with (S754_finite false 7036874417766400 (-46)).
    unfold ge. cbn [SFabs SFcompare].
    assert (Hc : (e' ?= -46) = Lt) by (apply Z.compare_lt_iff; lia).
    now rewrite Hc.
Qed.

(** Against the bounds 0 and 100, an entry between 0 and 100 is neither
    clipped nor shifted nor masked: it is divided by 100 and multiplied
    by 100. *)
Lemma normalize_entry_0_100 (v : float64) :
  valid v -> le zero v = true -> le v hundred = true ->
  normalize_entry zero hundred false false v = fmul (fdiv v hundred) hundred.
Proof.
  intros Vv H0 H100.
  destruct (between_0_100 v H0 H100) as [Fv _].
  assert (Ec : clip_entry zero hundred v = v).
  { unfold clip_entry, minimum, maximum.
    rewrite H100. cbn [orb]. now rewrite <- (le_ge zero v), H0. }
  assert (Es : fsub v zero = v).
  { destruct v as [[|]|s| |s m e]; try discriminate; reflexivity. }
  rewrite normalize_entry_plain. cbv zeta.
  rewrite Ec, Fv, Es.
  change (fsub hundred zero) with hundred.
  now rewrite domain_safe_divide_100.
Qed.

(** Dividing a positive [v <= 100] by 100: the quotient is
    [m * 2 ^ eq] with [|100 * m * 2 ^ eq - v| <= 300 * 2 ^ eq], and [eq]
    is the exponent that the magnitude of [v / 100] calls for. *)
Lemma fdiv_100_near (mv : positive) (ev : Z) :
  valid (S754_finite false mv ev) -> mag mv ev <= 7 ->
  let V := F2Z (S754_finite false mv ev) in
  let k := Z.max (mag mv ev - 6) emin in
  exists m eq,
    0 <= m /\ emin <= eq <= fexp (k + 1)
    /\ (m <> 0 -> Zdigits2 m + eq <= k + 1)
    /\ Z.abs (100 * (m * 2 ^ (eq - emin)) - V) <= 300 * 2 ^ (eq - emin)
    /\ fdiv (S754_finite false mv ev) hundred
       = match m with
         | Z0 => S754_zero false
         | Zpos p => S754_finite false p eq
         | Zneg _ => S754_nan
         end.
Proof.
  intros Vv Hmag V k.
  pose proof (valid_finite _ _ _ Vv) as (Hev & _).
  change hundred with (S754_finite false 7036874417766400 (-46)).
  assert (Hh : mag 7036874417766400 (-46) = 7) by reflexivity.
  assert (Hk : emin <= k) by (unfold k; lia).
  destruct (fdiv_core false false mv 7036874417766400 ev (-46) k
              ltac:(unfold k; lia) Hk)
    as (q0 & e' & l & Hq0 & Ee' & He' & Hdq & Hquot & ->).
  assert (He'min : emin <= e').
  { pose proof (fexp_ge_emin (mag mv ev - mag 7036874417766400 (-46))).
    lia. }
  destruct (binary_round_aux_near (xorb false false) q0 e' l k (fexp k)
              Hq0 Hdq Hk He')
    as (m & n & Hm & Hn & Hmin & Hmax & Hnear & Hdig & ->).
  pose proof (fexp_mono k (k + 1) ltac:(lia)) as Hfk.
  exists m, (e' + n).
  split; [exact Hm|]. split; [lia|]. split; [exact Hdig|].
  assert (Hfin : e' + n <= emax - prec).
  { assert (k + 1 <= 2) by (unfold k, emin, SpecFloat.emin, emax, prec; lia).
    pose proof (fexp_mono (k + 1) 2 ltac:(lia)).
    assert (fexp 2 = -51) by reflexivity.
    unfold emax, prec. lia. }
  split.
  - (* the distance, scaled by 2 ^ 46 *)
    unfold V. cbn [F2Z cond_Zopp].
    replace (e' + n - emin) with ((e' - emin) + n) by lia.
    rewrite Z.pow_add_r by lia.
    set (E := 2 ^ (e' - emin)). set (N := 2 ^ n) in *.
    assert (PE : 0 < E) by (apply pow2_pos; lia).
    assert (PN : 0 < N) by (apply pow2_pos; lia).
    set (M' := Zpos mv * 2 ^ (ev - -46 - e')) in *.
    assert (EV : Zpos mv * 2 ^ (ev - emin) * 2 ^ 46 = M' * E).
    { unfold M', E. rewrite <- !Z.mul_assoc, <- !Z.pow_add_r by lia.
      f_equal. f_equal. lia. }
    assert (Emh : Zpos 7036874417766400 = 100 * 2 ^ 46) by reflexivity.
    rewrite Emh in Hquot.
    set (T := 2 ^ 46) in *. assert (PT : 0 < T) by reflexivity.
    set (W := Zpos mv * 2 ^ (ev - emin)) in *.
    assert (G : Z.abs (100 * (m * (E * N)) - W) * T <= 300 * (E * N) * T).
    { rewrite <- (Z.abs_eq T) at 1 by lia. rewrite <- Z.abs_mul.
      replace ((100 * (m * (E * N)) - W) * T)
        with (E * (m * N * (100 * T) - M')) by (pose proof EV; lia).
      rewrite Z.abs_mul, (Z.abs_eq E) by lia.
      replace (300 * (E * N) * T) with (E * (3 * N * (100 * T))) by ring.
      apply Z.mul_le_mono_nonneg_l; [lia|].
      apply Z.abs_le. nia. }
    apply Z.mul_le_mono_pos_r in G; assumption.
  - cbn [xorb]. destruct m as [|p|p]; try reflexivity.
    apply Z.leb_le in Hfin. now rewrite Hfin.
Qed.

(** Multiplying [p * 2 ^ eq] by 100: the product is [m * 2 ^ eo], less
    than two units of [2 ^ eo] away from the exact product. *)
Lemma fmul_100_near (p : positive) (eq : Z) :
  emin <= eq -> mag p eq <= 9 ->
  exists m eo,
    0 <= m /\ emin <= eo <= Z.max (eq - 46) (fexp (mag p eq + 8))
    /\ Z.abs (m * 2 ^ (eo - emin) - 100 * (Zpos p * 2 ^ (eq - emin)))
       <= 2 * 2 ^ (eo - emin)
    /\ fmul (S754_finite false p eq) hundred
       = match m with
         | Z0 => S754_zero false
         | Zpos p' => S754_finite false p' eo
         | Zneg _ => S754_nan
         end.
Proof.
  intros Heq Hmag.
  change hundred with (S754_finite false 7036874417766400 (-46)).
  unfold fmul, SFmul.
  change (IntDef.Z.add eq (-46)) with (eq + -46).
  assert (Hd : Zdigits2 (Zpos (p * 7036874417766400)) + (eq + -46)
               <= mag p eq + 7).
  { pose proof (Zdigits2_mul (Zpos p) (Zpos 7036874417766400)
                  ltac:(lia) ltac:(lia)) as H.
    rewrite <- Pos2Z.inj_mul in H.
    assert (Zdigits2 (Zpos 7036874417766400) = 53) by reflexivity.
    cbn [Zdigits2] in *. unfold mag. lia. }
  assert (Hk : emin <= mag p eq + 7).
  { unfold mag. pose proof (Pos2Z.is_pos (digits2_pos p)). lia. }
  destruct (binary_round_aux_near (xorb false false)
              (Zpos (p * 7036874417766400)) (eq + -46) loc_Exact
              (mag p eq + 7) (eq + -46) ltac:(lia) Hd Hk ltac:(lia))
    as (m & n & Hm & Hn & Hmin & Hmax & Hnear & _ & ->).
  exists m, (eq + -46 + n).
  replace (mag p eq + 7 + 1) with (mag p eq + 8) in Hmax by lia.
  split; [exact Hm|]. split; [lia|].
  assert (Hfin : eq + -46 + n <= emax - prec).
  { pose proof (fexp_mono (mag p eq + 8) 17 ltac:(lia)).
    assert (fexp 17 = -36) by reflexivity.
    unfold mag in Hmag. pose proof (Pos2Z.is_pos (digits2_pos p)).
    unfold emax, prec. lia. }
  split.
  - set (A := 2 ^ (eq - emin)). set (N := 2 ^ n) in *.
    set (T := 2 ^ 46). assert (PT : 0 < T) by reflexivity.
    assert (PA : 0 < A) by (apply pow2_pos; lia).
    assert (PN : 0 < N) by (apply pow2_pos; lia).
    set (B := 2 ^ (eq + -46 + n - emin)).
    assert (EB : B * T = A * N).
    { unfold B, T, A, N. rewrite <- !Z.pow_add_r by lia. f_equal. lia. }
    rewrite Pos2Z.inj_mul in Hnear.
    assert (Emh : Zpos 7036874417766400 = 100 * T) by reflexivity.
    rewrite Emh in Hnear.
    assert (G : Z.abs (m * B - 100 * (Zpos p * A)) * T <= 2 * B * T).
    { rewrite <- (Z.abs_eq T) at 1 by lia. rewrite <- Z.abs_mul.
      replace ((m * B - 100 * (Zpos p * A)) * T)
        with (A * (m * N - Zpos p * (100 * T))) by (pose proof EB; nia).
      replace (2 * B * T) with (A * (2 * N)) by (pose proof EB; lia).
      rewrite Z.abs_mul, (Z.abs_eq A) by lia.
      apply Z.mul_le_mono_nonneg_l; [lia|].
      apply Z.abs_le. lia. }
    apply Z.mul_le_mono_pos_r in G; assumption.
  - cbn [xorb]. destruct m as [|p'|p']; try reflexivity.
    apply Z.leb_le in Hfin. now rewrite Hfin.
Qed.

(** A power of two below the unit in the last place of [V]. *)
Lemma ulp_below (V c e : Z) :
  0 < V -> 0 <= c ->
  emin <= e <= Z.max (Zdigits2 V + emin - c - 1) emin ->
  2 ^ c * 2 ^ (e - emin) <= V + 2 ^ c.
Proof.
  intros HV Hc He.
  pose proof (pow2_pos c Hc) as Pc.
  destruct (Z.le_gt_cases (Zdigits2 V + emin - c - 1) emin) as [Hs|Hl].
  - replace e with emin by lia. rewrite Z.sub_diag. cbn [Z.pow]. lia.
  - pose proof (Zdigits2_bounds V HV) as [Hlo _].
    rewrite <- Z.pow_add_r by lia.
    assert (2 ^ (c + (e - emin)) <= 2 ^ (Zdigits2 V - 1))
      by (apply Z.pow_le_mono_r; lia).
    lia.
Qed.

Lemma mag_le_100 (m : positive) (e : Z) :
  valid (S754_finite false m e) ->
  le (S754_finite false m e) hundred = true -> mag m e <= 7.
Proof.
  intros Vv H100.
  rewrite le_F2Z in H100 by (try assumption; reflexivity).
  apply Z.leb_le in H100. rewrite F2Z_hundred in H100.
  destruct (mag_F2Z false m e Vv) as [Hmag Habs].
  pose proof (valid_finite _ _ _ Vv) as (He & _).
  pose proof (pow2_pos (e - emin) ltac:(lia)) as Hp.
  assert (HF : 0 < F2Z (S754_finite false m e)).
  { cbn [F2Z cond_Zopp]. lia. }
  rewrite Z.abs_eq in Hmag by lia.
  assert (Hd : Zdigits2 (F2Z (S754_finite false m e)) <= 1081).
  { apply Zdigits2_le; lia. }
  unfold emin, SpecFloat.emin, emax, prec in Hmag. lia.
Qed.

(** Dividing a number between 0 and 100 by 100 and multiplying it by
    100 gives a number within [2 ^ -47] of it in relative terms, or
    within [2 ^ 9] units of [2 ^ -1074]. *)
Lemma round_trip_100 (v : float64) :
  valid v -> le zero v = true -> le v hundred = true ->
  isfinite (fmul (fdiv v hundred) hundred) = true
  /\ Z.abs (F2Z (fmul (fdiv v hundred) hundred) - F2Z v) * 2 ^ 47
     <= F2Z v + 2 ^ 56.
Proof.
  intros Vv H0 H100.
  destruct (between_0_100 v H0 H100) as [Fv Hpos].
  destruct v as [s|s| |s mv ev]; try discriminate.
  { destruct s; (split; [reflexivity | vm_compute; discriminate]). }
  destruct s; [exfalso; eapply Hpos; reflexivity|].
  pose proof (mag_le_100 mv ev Vv H100) as Hmag.
  destruct (mag_F2Z false mv ev Vv) as [HmagV HabsV].
  pose proof (valid_finite _ _ _ Vv) as (Hev & _).
  pose proof (pow2_pos (ev - emin) ltac:(lia)) as Pev.
  destruct (fdiv_100_near mv ev Vv Hmag)
    as (m & eq & Hm & Heq & Hdig & HA & ->).
  set (V := F2Z (S754_finite false mv ev)) in *.
  assert (HV : 0 < V) by (unfold V; cbn [F2Z cond_Zopp]; lia).
  rewrite Z.abs_eq in HmagV by lia.
  set (k := Z.max (mag mv ev - 6) emin) in *.
  assert (Hfk : fexp (k + 1) = Z.max (mag mv ev - 58) emin).
  { unfold k, fexp, SpecFloat.fexp. fold emin. unfold prec. lia. }
  set (A := 2 ^ (eq - emin)) in *.
  assert (PA : 0 < A) by (apply pow2_pos; lia).
  assert (BA : 2 ^ 57 * A <= V + 2 ^ 57).
  { apply ulp_below; lia. }
  destruct m as [|p|p]; try lia.
  - (* the quotient underflows to 0 *)
    split; [reflexivity|].
    change (fmul (S754_zero false) hundred) with (S754_zero false).
    cbn [F2Z]. rewrite Z.mul_0_l, Z.mul_0_r in HA.
    rewrite Z.sub_0_l, Z.abs_opp, Z.abs_eq in * by lia.
    lia.
  - assert (Hmq : mag p eq <= k + 1).
    { specialize (Hdig ltac:(lia)). cbn [Zdigits2] in Hdig. exact Hdig. }
    assert (Hk2 : k + 1 <= 2) by (unfold k, emin, SpecFloat.emin, emax, prec; lia).
    destruct (fmul_100_near p eq ltac:(lia) ltac:(lia))
      as (m2 & eo & Hm2 & Heo & HB & ->).
    set (B := 2 ^ (eo - emin)) in *.
    assert (PB : 0 < B) by (apply pow2_pos; lia).
    assert (BB : 2 ^ 49 * B <= V + 2 ^ 49).
    { apply ulp_below; try lia.
      pose proof (fexp_mono (mag p eq + 8) (k + 9) ltac:(lia)).
      assert (fexp (k + 9) = Z.max (mag mv ev - 50) emin).
      { unfold k, fexp, SpecFloat.fexp. fold emin. unfold prec. lia. }
      lia. }
    assert (EF : F2Z match m2 with
                     | Z0 => S754_zero false
                     | Zpos p' => S754_finite false p' eo
                     | Zneg _ => S754_nan
                     end = m2 * B).
    { destruct m2 as [|p'|p']; try lia; reflexivity. }
    split; [destruct m2 as [|p'|p']; try lia; reflexivity|].
    rewrite EF.
    assert (HD : Z.abs (m2 * B - V) <= 2 * B + 300 * A).
    { replace (m2 * B - V)
        with ((m2 * B - 100 * (Zpos p * A)) + (100 * (Zpos p * A) - V))
        by ring.
      eapply Z.le_trans; [apply Z.abs_triangle|]. lia. }
    lia.
Qed.

(** C9: normalising against the bounds 0 and 100 an array whose entry
    [v] of row [i] and column [j] is a float64 number between 0 and 100,
    the call returns and the entry written back is [v / 100 * 100] as
    float64 computes it: a finite number [v'] with
    [|v' - v| <= 2 ^ -47 * v + 2 ^ -1065], the distance being counted
    here in units of [2 ^ -1074]. *)
Theorem C9_unchanged_within_tolerance (mins maxs : list float64)
  (w : world) (i j : nat) (row : list float64) (v : float64) :
  well_formed (full_stack w) ->
  length mins = ncols (full_stack w) ->
  length maxs = ncols (full_stack w) ->
  nth_error mins j = Some zero -> nth_error maxs j = Some hundred ->
  nth_error (rows (full_stack w)) i = Some row ->
  nth_error row j = Some v ->
  valid v -> le zero v = true -> le v hundred = true ->
  exists w' row' v',
    normalize_by_columns (Some (ndarray1 mins)) (Some (ndarray1 maxs)) w
    = (Return (ndarray1 mins, ndarray1 maxs), w')
    /\ nth_error (rows (full_stack w')) i = Some row'
    /\ nth_error row' j = Some v'
    /\ v' = fmul (fdiv v hundred) hundred
    /\ isfinite v' = true
    /\ Z.abs (F2Z v' - F2Z v) * 2 ^ 47 <= F2Z v + 2 ^ 56.
Proof.
  intros Wf Lmins Lmaxs Hlo Hhi Hrow Hv Vv H0 H100.
  destruct (normalize_entry_at_plain mins maxs w i j row v zero hundred)
    as (w' & row' & E & _ & Hi & Hj); try assumption.
  rewrite normalize_entry_0_100 in Hj by assumption.
  destruct (round_trip_100 v Vv H0 H100) as [Hfin Hnear].
  exists w', row', (fmul (fdiv v hundred) hundred).
  repeat split; assumption.
Qed.

Lemma C9_witness :
  exists w' row' v',
    normalize_by_columns (Some (ndarray1 [zero])) (Some (ndarray1 [hundred]))
                         (world_of 1 (column_of [0; 50; 100]))
    = (Return (ndarray1 [zero], ndarray1 [hundred]), w')
    /\ nth_error (rows (full_stack w')) 1 = Some row'
    /\ nth_error row' 0 = Some v'
    /\ v' = fmul (fdiv (of_Z 50) hundred) hundred
    /\ isfinite v' = true
    /\ Z.abs (F2Z v' - F2Z (of_Z 50)) * 2 ^ 47 <= F2Z (of_Z 50) + 2 ^ 56.
Proof.
  apply (C9_unchanged_within_tolerance [zero] [hundred]
           (world_of 1 (column_of [0; 50; 100])) 1%nat 0%nat
           [of_Z 50] (of_Z 50));
    try reflexivity.
  repeat constructor.
Defined.

Lemma sample_all_unique (n k : nat) (s : SampleImageTiles)
  (r r' : list yielded * SampleImageTiles) :
  sample_all n s = Some r -> sample_all k s = Some r' -> r = r'.
Proof.
  intros H H'.
  apply (sample_all_more_fuel n k) in H.
  apply (sample_all_more_fuel k n) in H'.
  rewrite Nat.add_comm in H'. congruence.
Qed.

(** The pass over an instance with positive tile sizes, whatever fuel
    it was given to finish: its items are the grid's. *)
Lemma finished_pass_is_grid (s : SampleImageTiles) (fuel : nat)
  (ys : list yielded) (s' : SampleImageTiles) :
  0 < tile_width s -> 0 < tile_height s ->
  0 <= width (image s) -> 0 <= height (image s) ->
  sample_all fuel s = Some (ys, s') ->
  ys = grid s (Z.to_nat (width (image s) / tile_width s))
              (Z.to_nat (height (image s) / tile_height s)).
Proof.
  intros Hw Hh HW HH E.
  destruct (sample_all_grid s
              (Z.to_nat (width (image s) / tile_width s))
              (Z.to_nat (height (image s) / tile_height s)) Hw Hh)
    as (s0 & E0 & _); try (apply fits; assumption).
  pose proof (sample_all_unique _ _ _ _ _ E E0) as U.
  now injection U.
Qed.

Lemma In_grid (s : SampleImageTiles) (nx ny : nat) (it : yielded) :
  In it (grid s nx ny) ->
  exists k, (k < ny * nx)%nat
    /\ it = tile_at s k (Z.of_nat k / Z.of_nat nx)
                    (Z.of_nat k mod Z.of_nat nx).
Proof.
  intros Hin. apply In_nth_error in Hin as (k & Hk).
  assert (Hlt : (k < ny * nx)%nat).
  { rewrite <- (length_grid s nx ny). apply nth_error_Some. congruence. }
  exists k. split; [exact Hlt|].
  rewrite nth_error_grid in Hk by exact Hlt. congruence.
Qed.

(** Row and column of the item of index [k] in a grid of [nx] columns
    and [ny] rows. *)
Lemma grid_index (nx ny k : nat) :
  (k < ny * nx)%nat ->
  0 <= Z.of_nat k / Z.of_nat nx < Z.of_nat ny
  /\ 0 <= Z.of_nat k mod Z.of_nat nx < Z.of_nat nx.
Proof.
  intros Hk.
  assert (Hnx : 0 < Z.of_nat nx) by (destruct nx; lia).
  split.
  - split; [apply Z.div_pos; lia|].
    apply Z.div_lt_upper_bound; [lia|]. nia.
  - apply Z.mod_pos_bound. lia.
Qed.

(** A pass over an instance with positive tile sizes ends, with as many
    items as tiles fit into the image. *)
Lemma positive_pass (s : SampleImageTiles) :
  0 < tile_width s -> 0 < tile_height s ->
  0 <= width (image s) -> 0 <= height (image s) ->
  exists fuel ys s',
    sample_all fuel s = Some (ys, s')
    /\ same_configuration s s'
    /\ ys = grid s (Z.to_nat (width (image s) / tile_width s))
                   (Z.to_nat (height (image s) / tile_height s))
    /\ Z.of_nat (length ys)
       = (width (image s) / tile_width s)
         * (height (image s) / tile_height s).
Proof.
  intros Hw Hh HW HH.
  destruct (sample_all_grid s
              (Z.to_nat (width (image s) / tile_width s))
              (Z.to_nat (height (image s) / tile_height s)) Hw Hh)
    as (s0 & E0 & C0); try (apply fits; assumption).
  eexists _, _, s0. split; [exact E0|]. split; [exact C0|].
  split; [reflexivity|].
  rewrite length_grid, Nat2Z.inj_mul, !Z2Nat.id by (apply Z.div_pos; lia).
  lia.
Qed.

(** X1: a full pass over an instance whose tile size is positive ends,
    leaves the fields set by [__init__] as they were, and yields as
    many tiles as fit into the image:
    [floor(width / tile_width) * floor(height / tile_height)]. *)
Theorem X1_pass_yields_the_tiles_that_fit (s : SampleImageTiles) :
  0 < tile_width s -> 0 < tile_height s ->
  0 <= width (image s) -> 0 <= height (image s) ->
  exists fuel ys s',
    sample_all fuel s = Some (ys, s')
    /\ same_configuration s s'
    /\ Z.of_nat (length ys)
       = (width (image s) / tile_width s)
         * (height (image s) / tile_height s).
Proof.
  intros Hw Hh HW HH.
  destruct (positive_pass s Hw Hh HW HH) as (fuel & ys & s' & E & C & _ & L).
  now exists fuel, ys, s'.
Qed.

Lemma X1_witness :
  exists fuel ys s',
    sample_all fuel count_10_10_4_4 = Some (ys, s')
    /\ same_configuration count_10_10_4_4 s'
    /\ Z.of_nat (length ys) = (10 / 2) * (10 / 2).
Proof.
  apply (X1_pass_yields_the_tiles_that_fit count_10_10_4_4); simpl; lia.
Defined.

(** What [__init__] leaves in an instance, by mode. *)
Lemma init_fields (exists_ : string -> bool)
  (OpenImage : ImageMatrix -> string -> Z * ImageMatrix)
  (image_in : PyObject) (x y : Z) (is_fixed : bool)
  (s : SampleImageTiles) :
  init exists_ OpenImage image_in x y is_fixed = Return s ->
  x <> 0 /\ y <> 0
  /\ samples s = tiles_x s * tiles_y s
  /\ if is_fixed
     then tile_width s = x /\ tile_height s = y
          /\ tiles_x s = width (image s) / x
          /\ tiles_y s = height (image s) / y
     else tile_width s = width (image s) / x
          /\ tile_height s = height (image s) / y
          /\ tiles_x s = x /\ tiles_y s = y.
Proof.
  intros Hinit. unfold init in Hinit.
  destruct (init_image _ _ image_in) as [im|e]; [|discriminate].
  unfold init_tiling, py_div in Hinit.
  destruct (Z.eqb_spec x 0); [destruct is_fixed; discriminate|].
  destruct (Z.eqb_spec y 0); [destruct is_fixed; discriminate|].
  destruct is_fixed; injection Hinit as <-; simpl; tauto.
Qed.

(** X2: in fixed mode, for positive [x] and [y], a full pass ends
    after exactly [samples] items, and the item of index [k] is yielded
    with the cursor at row [k / tiles_x], column [k mod tiles_x], at the
    pixel [(col * x, row * y)], for the rectangle of [x] by [y] pixels
    that starts there. *)
Theorem X2_fixed_mode_pass_is_samples_in_row_major_order
  (exists_ : string -> bool)
  (OpenImage : ImageMatrix -> string -> Z * ImageMatrix)
  (image_in : PyObject) (x y : Z) (s : SampleImageTiles) :
  0 < x -> 0 < y ->
  init exists_ OpenImage image_in x y true = Return s ->
  0 <= width (image s) -> 0 <= height (image s) ->
  exists fuel ys s',
    sample_all fuel s = Some (ys, s')
    /\ Z.of_nat (length ys) = samples s
    /\ forall (k : nat) (it : yielded),
         nth_error ys k = Some it ->
         current_row (y_self it) = Z.of_nat k / tiles_x s
         /\ current_col (y_self it) = Z.of_nat k mod tiles_x s
         /\ current_x (y_self it) = current_col (y_self it) * x
         /\ current_y (y_self it) = current_row (y_self it) * y
         /\ bb (y_tile it)
            = (current_x (y_self it), current_y (y_self it),
               current_x (y_self it) + x - 1,
               current_y (y_self it) + y - 1).
Proof.
  intros Hx Hy Hinit HW HH.
  destruct (init_fields _ _ _ _ _ _ _ Hinit)
    as (_ & _ & Hs & Htw & Hth & Htx & Hty).
  assert (Hqx : 0 <= width (image s) / x) by (apply Z.div_pos; lia).
  assert (Hqy : 0 <= height (image s) / y) by (apply Z.div_pos; lia).
  destruct (sample_all_grid s (Z.to_nat (tiles_x s)) (Z.to_nat (tiles_y s)))
    as (s' & E & _);
    try (rewrite ?Htw, ?Hth, ?Htx, ?Hty; try apply fits; lia).
  eexists _, _, s'. split; [exact E|]. split.
  - rewrite length_grid, Nat2Z.inj_mul, !Z2Nat.id by lia. lia.
  - intros k it Hk.
    assert (Hlt : (k < Z.to_nat (tiles_y s) * Z.to_nat (tiles_x s))%nat).
    { rewrite <- (length_grid s). apply nth_error_Some. congruence. }
    rewrite nth_error_grid in Hk by exact Hlt.
    injection Hk as <-. rewrite Z2Nat.id by lia.
    simpl. rewrite Htw, Hth. repeat split; lia.
Qed.

Lemma X2_witness :
  exists fuel ys s',
    sample_all fuel
      {| image := ramp 100 50; tile_width := 10; tile_height := 5;
         tiles_x := 10; tiles_y := 10; samples := 100;
         current_row := 0; current_col := 0;
         current_x := 0; current_y := 0 |} = Some (ys, s')
    /\ Z.of_nat (length ys) = 100
    /\ forall (k : nat) (it : yielded),
         nth_error ys k = Some it ->
         current_row (y_self it) = Z.of_nat k / 10
         /\ current_col (y_self it) = Z.of_nat k mod 10
         /\ current_x (y_self it) = current_col (y_self it) * 10
         /\ current_y (y_self it) = current_row (y_self it) * 5
         /\ bb (y_tile it)
            = (current_x (y_self it), current_y (y_self it),
               current_x (y_self it) + 10 - 1,
               current_y (y_self it) + 5 - 1).
Proof.
  apply (X2_fixed_mode_pass_is_samples_in_row_major_order
           no_file cannot_open (PyImageMatrix (ramp 100 50)) 10 5);
    [lia | lia | reflexivity | simpl; lia | simpl; lia].
Defined.

(** X3: in count mode, when [x] and [y] are positive and not more than
    the image's width and height, a full pass ends and yields at least
    [samples] items; it yields exactly [samples] when [x] divides the
    width and [y] the height. *)
Theorem X3_count_mode_pass_has_at_least_samples_items
  (exists_ : string -> bool)
  (OpenImage : ImageMatrix -> string -> Z * ImageMatrix)
  (image_in : PyObject) (x y : Z) (s : SampleImageTiles) :
  init exists_ OpenImage image_in x y false = Return s ->
  0 < x <= width (image s) -> 0 < y <= height (image s) ->
  exists fuel ys s',
    sample_all fuel s = Some (ys, s')
    /\ samples s <= Z.of_nat (length ys)
    /\ (width (image s) mod x = 0 -> height (image s) mod y = 0 ->
        Z.of_nat (length ys) = samples s).
Proof.
  intros Hinit Hx Hy.
  destruct (init_fields _ _ _ _ _ _ _ Hinit)
    as (_ & _ & Hs & Htw & Hth & Htx & Hty).
  set (W := width (image s)) in *. set (H := height (image s)) in *.
  assert (Hw : 0 < W / x) by (apply Z.div_str_pos; lia).
  assert (Hh : 0 < H / y) by (apply Z.div_str_pos; lia).
  assert (Fit : forall L n, 0 < n <= L -> n <= L / (L / n)).
  { intros L n Hn.
    assert (0 < L / n) by (apply Z.div_str_pos; lia).
    apply Z.div_le_lower_bound; [lia|].
    rewrite Z.mul_comm. apply Z.mul_div_le. lia. }
  assert (Exact : forall L n, 0 < n <= L -> L mod n = 0 -> L / (L / n) = n).
  { intros L n Hn Hm.
    assert (0 < L / n) by (apply Z.div_str_pos; lia).
    pose proof (Z.div_mod L n ltac:(lia)) as D. rewrite Hm in D.
    rewrite D at 1. rewrite Z.add_0_r. apply Z.div_mul. lia. }
  destruct (positive_pass s)
    as (fuel & ys & s' & E & _ & _ & L);
    try (rewrite ?Htw, ?Hth; fold W; fold H; lia).
  exists fuel, ys, s'. split; [exact E|].
  rewrite L, Hs, Htw, Hth, Htx, Hty. fold W. fold H. split.
  - pose proof (Fit W x Hx). pose proof (Fit H y Hy). nia.
  - intros Mx My. now rewrite (Exact W x Hx Mx), (Exact H y Hy My).
Qed.

Lemma X3_witness :
  exists fuel ys s',
    sample_all fuel count_10_10_4_4 = Some (ys, s')
    /\ samples count_10_10_4_4 <= Z.of_nat (length ys)
    /\ (width (image count_10_10_4_4) mod 4 = 0 ->
        height (image count_10_10_4_4) mod 4 = 0 ->
        Z.of_nat (length ys) = samples count_10_10_4_4).
Proof.
  apply (X3_count_mode_pass_has_at_least_samples_items
           no_file cannot_open (PyImageMatrix (ramp 10 10)) 4 4);
    [reflexivity | simpl; lia | simpl; lia].
Defined.

(** The rectangle of the tile in row [r] and column [c]. *)
Lemma bb_tile_at (s : SampleImageTiles) (a : nat) (r c : Z) :
  bb (y_tile (tile_at s a r c))
  = (c * tile_width s, r * tile_height s,
     c * tile_width s + tile_width s - 1,
     r * tile_height s + tile_height s - 1).
Proof. reflexivity. Qed.

(** X4: every tile of a finished pass over an instance with positive
    tile size is [tile_width] by [tile_height] pixels and lies inside
    the image. *)
Theorem X4_every_tile_has_the_tile_size_and_lies_inside_the_image
  (s : SampleImageTiles) (fuel : nat) (ys : list yielded)
  (s' : SampleImageTiles) (it : yielded) (x1 y1 x2 y2 : Z) :
  0 < tile_width s -> 0 < tile_height s ->
  0 <= width (image s) -> 0 <= height (image s) ->
  sample_all fuel s = Some (ys, s') ->
  In it ys -> bb (y_tile it) = (x1, y1, x2, y2) ->
  0 <= x1 /\ x2 < width (image s) /\ 0 <= y1 /\ y2 < height (image s)
  /\ x2 - x1 + 1 = tile_width s /\ y2 - y1 + 1 = tile_height s.
Proof.
  intros Hw Hh HW HH E Hin Hbb.
  rewrite (finished_pass_is_grid s fuel ys s' Hw Hh HW HH E) in Hin.
  apply In_grid in Hin as (k & Hk & ->).
  rewrite bb_tile_at in Hbb.
  destruct (grid_index _ _ _ Hk) as [Hr Hc].
  set (r := Z.of_nat k / _) in *. set (c := Z.of_nat k mod _) in *.
  rewrite !Z2Nat.id in Hr, Hc by (apply Z.div_pos; lia).
  injection Hbb as <- <- <- <-.
  pose proof (Z.mul_div_le (width (image s)) (tile_width s) Hw).
  pose proof (Z.mul_div_le (height (image s)) (tile_height s) Hh).
  repeat split; nia.
Qed.

Lemma X4_witness :
  0 <= 2 /\ 3 < width (image fixed_5_2_2_2)
  /\ 0 <= 0 /\ 1 < height (image fixed_5_2_2_2)
  /\ 3 - 2 + 1 = tile_width fixed_5_2_2_2
  /\ 1 - 0 + 1 = tile_height fixed_5_2_2_2.
Proof.
  eapply (X4_every_tile_has_the_tile_size_and_lies_inside_the_image
            fixed_5_2_2_2 10 _ _ (tile_at fixed_5_2_2_2 1 0 1));
    [simpl; lia | simpl; lia | simpl; lia | simpl; lia
     | reflexivity | right; left; reflexivity | reflexivity].
Defined.

(** A pixel lies in the tile of row [r] and column [c] when [c] and [r]
    are the quotients of its coordinates by the tile size. *)
Lemma in_box_tile_at (s : SampleImageTiles) (a : nat) (r c p q : Z) :
  0 < tile_width s -> 0 < tile_height s ->
  in_box (bb (y_tile (tile_at s a r c))) p q
  <-> c = p / tile_width s /\ r = q / tile_height s.
Proof.
  intros Hw Hh. rewrite bb_tile_at. unfold in_box.
  split.
  - intros [Hp Hq]. split.
    + apply (Z.div_unique_pos p (tile_width s) c (p - c * tile_width s)); lia.
    + apply (Z.div_unique_pos q (tile_height s) r (q - r * tile_height s));
        lia.
  - intros [-> ->].
    pose proof (Z.mul_div_le p (tile_width s) Hw).
    pose proof (Z.mul_succ_div_gt p (tile_width s) Hw).
    pose proof (Z.mul_div_le q (tile_height s) Hh).
    pose proof (Z.mul_succ_div_gt q (tile_height s) Hh).
    lia.
Qed.

(** X5: no pixel lies in the rectangles of two items of different
    index of a finished pass: the tiles do not overlap. *)
Theorem X5_tiles_do_not_overlap
  (s : SampleImageTiles) (fuel : nat) (ys : list yielded)
  (s' : SampleImageTiles) (i j : nat) (a b : yielded) (p q : Z) :
  0 < tile_width s -> 0 < tile_height s ->
  0 <= width (image s) -> 0 <= height (image s) ->
  sample_all fuel s = Some (ys, s') ->
  nth_error ys i = Some a -> nth_error ys j = Some b -> i <> j ->
  ~ (in_box (bb (y_tile a)) p q /\ in_box (bb (y_tile b)) p q).
Proof.
  intros Hw Hh HW HH E Ha Hb Hij [Ia Ib].
  rewrite (finished_pass_is_grid s fuel ys s' Hw Hh HW HH E) in Ha, Hb.
  set (nx := Z.to_nat (width (image s) / tile_width s)) in *.
  set (ny := Z.to_nat (height (image s) / tile_height s)) in *.
  assert (Li : (i < ny * nx)%nat).
  { rewrite <- (length_grid s nx ny). apply nth_error_Some. congruence. }
  assert (Lj : (j < ny * nx)%nat).
  { rewrite <- (length_grid s nx ny). apply nth_error_Some. congruence. }
  rewrite nth_error_grid in Ha, Hb by assumption.
  injection Ha as <-. injection Hb as <-.
  apply in_box_tile_at in Ia as [Ca Ra]; try assumption.
  apply in_box_tile_at in Ib as [Cb Rb]; try assumption.
  assert (Hnx : 0 < Z.of_nat nx) by (destruct nx; lia).
  pose proof (Z.div_mod (Z.of_nat i) (Z.of_nat nx) ltac:(lia)) as Di.
  pose proof (Z.div_mod (Z.of_nat j) (Z.of_nat nx) ltac:(lia)) as Dj.
  rewrite Ca, Ra in Di. rewrite Cb, Rb in Dj. lia.
Qed.

Lemma X5_witness :
  ~ (in_box (bb (y_tile (tile_at fixed_5_2_2_2 0 0 0))) 2 0
     /\ in_box (bb (y_tile (tile_at fixed_5_2_2_2 1 0 1))) 2 0).
Proof.
  eapply (X5_tiles_do_not_overlap fixed_5_2_2_2 10 _ _ 0%nat 1%nat);
    [simpl; lia | simpl; lia | simpl; lia | simpl; lia
     | reflexivity | reflexivity | reflexivity | lia].
Defined.

(** X6: a pixel lies in a tile of a finished pass exactly when it lies
    in the top-left area of
    [floor(width / tile_width) * tile_width] by
    [floor(height / tile_height) * tile_height] pixels: that area is
    covered, the remainder on the right and at the bottom is left
    out. *)
Theorem X6_tiles_cover_the_tiled_area_and_nothing_else
  (s : SampleImageTiles) (fuel : nat) (ys : list yielded)
  (s' : SampleImageTiles) (p q : Z) :
  0 < tile_width s -> 0 < tile_height s ->
  0 <= width (image s) -> 0 <= height (image s) ->
  sample_all fuel s = Some (ys, s') ->
  (exists it, In it ys /\ in_box (bb (y_tile it)) p q)
  <-> 0 <= p < width (image s) / tile_width s * tile_width s
      /\ 0 <= q < height (image s) / tile_height s * tile_height s.
Proof.
  intros Hw Hh HW HH E.
  rewrite (finished_pass_is_grid s fuel ys s' Hw Hh HW HH E).
  assert (Hqx : 0 <= width (image s) / tile_width s)
    by (apply Z.div_pos; lia).
  assert (Hqy : 0 <= height (image s) / tile_height s)
    by (apply Z.div_pos; lia).
  set (nx := Z.to_nat (width (image s) / tile_width s)) in *.
  set (ny := Z.to_nat (height (image s) / tile_height s)) in *.
  assert (Enx : Z.of_nat nx = width (image s) / tile_width s)
    by (subst nx; now rewrite Z2Nat.id).
  assert (Eny : Z.of_nat ny = height (image s) / tile_height s)
    by (subst ny; now rewrite Z2Nat.id).
  split.
  - intros (it & Hin & Hbox).
    apply In_grid in Hin as (k & Hk & ->).
    destruct (grid_index _ _ _ Hk) as [Hr Hc].
    rewrite bb_tile_at in Hbox. unfold in_box in Hbox.
    rewrite <- Enx, <- Eny.
    set (r := Z.of_nat k / _) in *. set (c := Z.of_nat k mod _) in *.
    split; nia.
  - intros [Hp Hq].
    set (c := p / tile_width s). set (r := q / tile_height s).
    assert (Hc : 0 <= c < Z.of_nat nx).
    { subst c. split; [apply Z.div_pos; lia|].
      apply Z.div_lt_upper_bound; [lia|]. rewrite Enx. lia. }
    assert (Hr : 0 <= r < Z.of_nat ny).
    { subst r. split; [apply Z.div_pos; lia|].
      apply Z.div_lt_upper_bound; [lia|]. rewrite Eny. lia. }
    set (k := Z.to_nat (r * Z.of_nat nx + c)).
    assert (Ek : Z.of_nat k = r * Z.of_nat nx + c)
      by (subst k; rewrite Z2Nat.id; nia).
    assert (Hk : (k < ny * nx)%nat) by nia.
    exists (tile_at s k r c). split.
    + apply (nth_error_In _ k). rewrite nth_error_grid by exact Hk.
      f_equal. rewrite Ek. f_equal.
      * symmetry. apply (Z.div_unique_pos _ _ r c); lia.
      * symmetry. apply (Z.mod_unique_pos _ _ r c); lia.
    + apply in_box_tile_at; try assumption. now split.
Qed.

Lemma X6_witness :
  (exists it,
     In it [tile_at fixed_5_2_2_2 0 0 0; tile_at fixed_5_2_2_2 1 0 1]
     /\ in_box (bb (y_tile it)) 4 0)
  <-> 0 <= 4 < width (image fixed_5_2_2_2) / tile_width fixed_5_2_2_2
                * tile_width fixed_5_2_2_2
      /\ 0 <= 0 < height (image fixed_5_2_2_2) / tile_height fixed_5_2_2_2
                  * tile_height fixed_5_2_2_2.
Proof.
  eapply (X6_tiles_cover_the_tiled_area_and_nothing_else
            fixed_5_2_2_2 10 _ _ 4 0);
    [simpl; lia | simpl; lia | simpl; lia | simpl; lia | reflexivity].
Defined.

(** *** Passes over the same configuration *)

Lemma same_self (s s' : SampleImageTiles) :
  same_configuration s s' ->
  current_row s = current_row s' -> current_col s = current_col s' ->
  current_x s = current_x s' -> current_y s = current_y s' ->
  s = s'.
Proof.
  unfold same_configuration. destruct s, s'; simpl.
  intros (-> & -> & -> & -> & -> & ->) -> -> -> ->. reflexivity.
Qed.

Lemma step_same_place (m m' : machine) :
  same_place m m' -> same_place (step m) (step m').
Proof.
  unfold same_place. intros (Hpc & Ha & Hc & Hcur).
  unfold step. rewrite <- Hpc, <- Ha.
  pose proof Hc as (Ci & Cw & Ch & Cx & Cy & Cs).
  destruct (pc m) as [|l|l|l t|] eqn:Epc; simpl.
  - rewrite Ci, Cw, Ch. repeat split; try tauto.
  - destruct Hcur as [Hr Hy]. rewrite <- Hy.
    destruct (_ <=? _); simpl.
    + repeat split; try tauto.
      apply same_self; simpl; try tauto.
    + repeat split; tauto.
  - rewrite <- Hcur.
    destruct (_ <=? _); simpl; repeat split;
      unfold same_configuration; tauto.
  - rewrite <- Hcur. repeat split; unfold same_configuration; tauto.
  - rewrite <- Hpc, Epc. repeat split; tauto.
Qed.

Lemma observe_same_place (m m' : machine) :
  same_place m m' -> observe m = observe m'.
Proof.
  unfold same_place, observe. intros (Hpc & _ & _ & Hcur).
  rewrite <- Hpc. destruct (pc m); try reflexivity. now rewrite Hcur.
Qed.

Lemma run_same_place (n : nat) : forall m m' : machine,
  same_place m m' ->
  fst (run n m) = fst (run n m')
  /\ same_place (snd (run n m)) (snd (run n m')).
Proof.
  induction n as [|n IH]; intros m m' H; simpl; [now split|].
  pose proof (step_same_place m m' H) as H1.
  destruct (IH _ _ H1) as [Hys Hm].
  rewrite (observe_same_place _ _ H1).
  destruct (run n (step m)) as [ys m2], (run n (step m')) as [ys' m2'].
  simpl in *. subst ys'. now split.
Qed.

(** X7: when a pass over an instance has finished, a second pass over
    the instance as the first one leaves it finishes within the same
    number of moves and yields the same items: same rectangles, same
    pixels, same cursor at each [yield].  No hypothesis on the tile
    size is needed. *)
Theorem X7_second_pass_repeats_the_first
  (s : SampleImageTiles) (fuel : nat) (ys : list yielded)
  (s1 : SampleImageTiles) :
  sample_all fuel s = Some (ys, s1) ->
  exists s2, sample_all fuel s1 = Some (ys, s2)
             /\ same_configuration s s2.
Proof.
  unfold sample_all. intros E.
  pose proof (run_same_configuration fuel (sample s)) as C.
  destruct (run fuel (sample s)) as [ys0 m] eqn:R.
  destruct (pc m) eqn:Epc; try discriminate.
  injection E as -> <-. simpl in C.
  assert (P : same_place (sample s) (sample (self m))).
  { unfold same_place; simpl. tauto. }
  destruct (run_same_place fuel _ _ P) as [Hys Hm].
  rewrite R in Hys, Hm. simpl in Hys, Hm.
  destruct (run fuel (sample (self m))) as [ys' m'].
  simpl in Hys, Hm. subst ys'.
  destruct Hm as (Hpc & _ & C' & _).
  rewrite <- Hpc, Epc. exists (self m'). split; [reflexivity|].
  unfold same_configuration in *. intuition congruence.
Qed.

Lemma X7_witness :
  exists s2,
    sample_all 10 (with_cursor fixed_5_2_2_2 1 2 4 2)
    = Some ([tile_at fixed_5_2_2_2 0 0 0; tile_at fixed_5_2_2_2 1 0 1], s2)
    /\ same_configuration fixed_5_2_2_2 s2.
Proof.
  apply (X7_second_pass_repeats_the_first fixed_5_2_2_2 10). reflexivity.
Defined.

(** X8: the cursor is an attribute of the instance, which all
    generators made by [sample] share.  While a generator [A] is
    suspended at a [yield], wherever its cursor is, starting a second
    generator on the instance and taking its first item puts the cursor
    back to [(0, 0)]; the next item of [A] is then the tile of row 0,
    column 1, whatever [A] had yielded before. *)
Theorem X8_two_generators_share_one_cursor
  (s : SampleImageTiles) (t : tile) (a : nat) :
  0 < tile_width s -> 0 < tile_height s ->
  2 * tile_width s <= width (image s) ->
  tile_height s <= height (image s) ->
  let A := {| self := s; pc := Yielded (locals_of s) t; allocated := a |} in
  exists itB B itA A',
    next 3 (sample (self A)) = Some (Some itB, B)
    /\ y_self itB = with_cursor s 0 0 0 0
    /\ next 2 (on_instance (self B) A) = Some (Some itA, A')
    /\ y_self itA = with_cursor s 0 1 (tile_width s) 0
    /\ bb (y_tile itA)
       = (tile_width s, 0, 2 * tile_width s - 1, tile_height s - 1).
Proof.
  intros Hw Hh HW HH A.
  assert (T1 : (tile_height s <=? height (image s)) = true)
    by (apply Z.leb_le; lia).
  assert (T2 : (tile_width s <=? width (image s)) = true)
    by (apply Z.leb_le; lia).
  assert (T3 : (tile_width s + tile_width s <=? width (image s)) = true)
    by (apply Z.leb_le; lia).
  eexists _, _, _, _.
  split; [|split; [|split; [|split]]].
  - cbn [next]. unfold sample, step at 3; cbn.
    unfold step at 2; cbn. rewrite T1.
    unfold step; cbn. rewrite T2. cbn. reflexivity.
  - reflexivity.
  - cbn [next]. unfold on_instance, step at 2; cbn.
    unfold step; cbn. rewrite T3. cbn. reflexivity.
  - reflexivity.
  - replace (2 * tile_width s) with (tile_width s + tile_width s) by lia.
    reflexivity.
Qed.

Lemma X8_witness :
  exists itB B itA A',
    next 3 (sample (with_cursor fixed_5_2_2_2 0 1 2 0)) = Some (Some itB, B)
    /\ y_self itB = with_cursor (with_cursor fixed_5_2_2_2 0 1 2 0) 0 0 0 0
    /\ next 2 (on_instance (self B)
                 {| self := with_cursor fixed_5_2_2_2 0 1 2 0;
                    pc := Yielded (locals_of fixed_5_2_2_2)
                            (y_tile (tile_at fixed_5_2_2_2 1 0 1));
                    allocated := 2 |})
       = Some (Some itA, A')
    /\ y_self itA = with_cursor (with_cursor fixed_5_2_2_2 0 1 2 0) 0 1 2 0
    /\ bb (y_tile itA) = (2, 0, 2 * 2 - 1, 2 - 1).
Proof.
  apply (X8_two_generators_share_one_cursor
           (with_cursor fixed_5_2_2_2 0 1 2 0)
           (y_tile (tile_at fixed_5_2_2_2 1 0 1)) 2);
    simpl; lia.
Defined.

(** X9: once the image source has been accepted, [x = 0] or [y = 0]
    makes the construction raise [ZeroDivisionError], in both modes. *)
Theorem X9_zero_tile_parameter_raises_ZeroDivisionError
  (exists_ : string -> bool)
  (OpenImage : ImageMatrix -> string -> Z * ImageMatrix)
  (image_in : PyObject) (im : ImageMatrix) (x y : Z) (is_fixed : bool) :
  init_image exists_ OpenImage image_in = Return im ->
  x = 0 \/ y = 0 ->
  exists e,
    init exists_ OpenImage image_in x y is_fixed = Raise e
    /\ cls e = ZeroDivisionError.
Proof.
  intros Him Hz. unfold init. rewrite Him.
  unfold init_tiling, py_div.
  destruct (Z.eqb_spec x 0) as [Hx|Hx].
  - destruct is_fixed; eexists; split; reflexivity.
  - destruct (Z.eqb_spec y 0) as [Hy|Hy]; [|lia].
    destruct is_fixed; eexists; split; reflexivity.
Qed.

Lemma X9_witness :
  exists e,
    init no_file cannot_open (PyImageMatrix (ramp 3 3)) 3 0 true = Raise e
    /\ cls e = ZeroDivisionError.
Proof.
  apply (X9_zero_tile_parameter_raises_ZeroDivisionError
           no_file cannot_open (PyImageMatrix (ramp 3 3)) (ramp 3 3) 3 0 true);
    [reflexivity | right; reflexivity].
Defined.

(** * More on the column normaliser *)

Lemma length_normalize_row (k : nat) (lo hi : list float64)
  (mlo mhi : list bool) (r : list float64) :
  length lo = k -> length hi = k -> length mlo = k -> length mhi = k ->
  length r = k ->
  length (normalize_row lo hi mlo mhi r) = k.
Proof.
  intros Llo Lhi Lmlo Lmhi Lr. unfold normalize_row, column_bounds.
  rewrite length_zip_with, !length_combine. lia.
Qed.

(** What a call that returns has done: the rows of [full_stack] are the
    rows it had, each normalised against bounds of one entry per
    column. *)
Lemma normalize_returns_rows (mins maxs : option array1) (w w' : world)
  (r : array1 * array1) :
  well_formed (full_stack w) -> bounds_shape mins -> bounds_shape maxs ->
  normalize_by_columns mins maxs w = (Return r, w') ->
  exists lo hi mlo mhi,
    length lo = ncols (full_stack w) /\ length hi = ncols (full_stack w)
    /\ length mlo = ncols (full_stack w)
    /\ length mhi = ncols (full_stack w)
    /\ w' = set_rows w (map (normalize_row lo hi mlo mhi)
                            (rows (full_stack w))).
Proof.
  intros Wf Smins Smaxs H.
  assert (Derived : mins = None \/ maxs = None ->
            exists lo hi mlo mhi,
              length lo = ncols (full_stack w)
              /\ length hi = ncols (full_stack w)
              /\ length mlo = ncols (full_stack w)
              /\ length mhi = ncols (full_stack w)
              /\ w' = set_rows w (map (normalize_row lo hi mlo mhi)
                                      (rows (full_stack w)))).
  { intros Hnone.
    assert (Hne : rows (full_stack w) <> []).
    { intros Er. destruct (normalize_no_row mins maxs w Hnone Er)
        as (e & E & _). congruence. }
    rewrite (normalize_derived_returns mins maxs w Hnone Wf Hne) in H.
    injection H as _ <-.
    destruct (length_derived minimum pinf _ Wf Hne) as [Ld Lm].
    destruct (length_derived maximum ninf _ Wf Hne) as [Ld' Lm'].
    eexists _, _, _, _.
    split; [exact Ld|]. split; [exact Ld'|]. split; [exact Lm|].
    split; [exact Lm'|]. reflexivity. }
  destruct mins as [mins|]; [|apply Derived; now left].
  destruct maxs as [maxs|]; [|apply Derived; now right].
  clear Derived. cbn [bounds_shape] in *.
  destruct (normalize_returns_broadcast mins maxs w w' r H)
    as (lo & hi & Hlo & Hhi).
  destruct (broadcast_to_same_length _ _ _ (getmaskarray mins) Smins Hlo)
    as (mlo & Hmlo).
  destruct (broadcast_to_same_length _ _ _ (getmaskarray maxs) Smaxs Hhi)
    as (mhi & Hmhi).
  rewrite (normalize_with_bounds mins maxs w lo hi mlo mhi) in H
    by assumption.
  injection H as _ <-.
  exists lo, hi, mlo, mhi.
  repeat split; eapply length_broadcast_to; eassumption.
Qed.

(** X10: whatever the error settings are when [normalize_by_columns]
    is called, and whatever its arguments, they are in force again when
    it returns. *)
Theorem X10_settings_restored_on_return (mins maxs : option array1)
  (w w' : world) (r : array1 * array1) :
  normalize_by_columns mins maxs w = (Return r, w') ->
  errs w' = errs w.
Proof. apply normalize_restores_on_return. Qed.

Lemma X10_witness :
  errs (world_of 1 (column_of [0; 50; 100; 100; 0]))
  = errs (world_of 1 (column_of [0; 5; 10; 15; -5])).
Proof.
  apply (X10_settings_restored_on_return
           (Some (ndarray1 [of_Z 0])) (Some (ndarray1 [of_Z 10]))
           (world_of 1 (column_of [0; 5; 10; 15; -5]))
           (world_of 1 (column_of [0; 50; 100; 100; 0]))
           (ndarray1 [of_Z 0], ndarray1 [of_Z 10])).
  vm_compute. reflexivity.
Defined.

(** X11: on an array without rows, when [mins] or [maxs] is [None],
    the reduction of line 149 raises [ValueError]; [full_stack] is left
    as it was and the error settings are left at ['ignore']. *)
Theorem X11_deriving_bounds_of_an_array_without_rows_raises
  (mins maxs : option array1) (w : world) :
  rows (full_stack w) = [] ->
  mins = None \/ maxs = None ->
  exists e,
    normalize_by_columns mins maxs w
    = (Raise e, {| errs := all_ err_ignore; full_stack := full_stack w |})
    /\ cls e = ValueError.
Proof.
  intros Er Hnone. now apply normalize_no_row.
Qed.

Lemma X11_witness :
  exists e,
    normalize_by_columns None (Some (ndarray1 [of_Z 1])) (world_of 1 [])
    = (Raise e, {| errs := all_ err_ignore;
                   full_stack := full_stack (world_of 1 []) |})
    /\ cls e = ValueError.
Proof.
  apply (X11_deriving_bounds_of_an_array_without_rows_raises
           None (Some (ndarray1 [of_Z 1])) (world_of 1 []));
    [reflexivity | left; reflexivity].
Defined.

(** X12: when the call returns, [full_stack] has the number of
    columns and of rows it had, and every row has as many entries as
    there are columns. *)
Theorem X12_array_keeps_its_shape (mins maxs : option array1)
  (w w' : world) (r : array1 * array1) :
  well_formed (full_stack w) -> bounds_shape mins -> bounds_shape maxs ->
  normalize_by_columns mins maxs w = (Return r, w') ->
  ncols (full_stack w') = ncols (full_stack w)
  /\ length (rows (full_stack w')) = length (rows (full_stack w))
  /\ well_formed (full_stack w').
Proof.
  intros Wf Smins Smaxs H.
  destruct (normalize_returns_rows mins maxs w w' r Wf Smins Smaxs H)
    as (lo & hi & mlo & mhi & Llo & Lhi & Lmlo & Lmhi & ->).
  unfold set_rows. cbn [full_stack ncols rows].
  split; [reflexivity|]. split; [apply length_map|].
  unfold well_formed in *. cbn [rows ncols].
  rewrite Forall_forall in *. intros row' Hin.
  apply in_map_iff in Hin as (row & <- & Hrow).
  apply length_normalize_row; auto.
Qed.

Lemma X12_witness :
  ncols (full_stack (world_of 1 (column_of [0; 50; 100; 100; 0])))
  = ncols (full_stack (world_of 1 (column_of [0; 5; 10; 15; -5])))
  /\ length (rows (full_stack (world_of 1 (column_of [0; 50; 100; 100; 0]))))
     = length (rows (full_stack (world_of 1 (column_of [0; 5; 10; 15; -5]))))
  /\ well_formed (full_stack (world_of 1 (column_of [0; 50; 100; 100; 0]))).
Proof.
  apply (X12_array_keeps_its_shape
           (Some (ndarray1 [of_Z 0])) (Some (ndarray1 [of_Z 10]))
           (world_of 1 (column_of [0; 5; 10; 15; -5]))
           (world_of 1 (column_of [0; 50; 100; 100; 0]))
           (ndarray1 [of_Z 0], ndarray1 [of_Z 10])).
  - repeat constructor.
  - reflexivity.
  - reflexivity.
  - vm_compute. reflexivity.
Defined.

(** * More on float64 *)

(** ** What rounding returns is a float64 *)

Lemma binary_round_valid (s : bool) (m : positive) (e : Z) :
  emin <= e -> valid (binary_round prec emax s m e).
Proof.
  intros He. unfold binary_round. fold fexp.
  set (magv := Zpos (digits2_pos m) + e).
  assert (Hmagv : emin < magv) by (unfold magv; lia).
  destruct (shl_align m e (fexp magv)) as [mz ez] eqn:Ea.
  assert (Hz : Zdigits2 (Zpos mz) + ez = magv /\ ez <= fexp magv
               /\ emin <= ez).
  { unfold shl_align in Ea.
    destruct (fexp magv - e) as [|d|d] eqn:Ed; injection Ea as <- <-.
    - cbn [Zdigits2]. unfold magv in *. lia.
    - cbn [Zdigits2]. unfold magv in *. lia.
    - split; [|split; [lia | apply fexp_ge_emin]].
      rewrite Zpos_iter_xO.
      assert (Hp : 0 < 2 ^ Zpos d) by (apply Z.pow_pos_nonneg; lia).
      assert (Hd : Zdigits2 (Zpos m * 2 ^ Zpos d) = Zdigits2 (Zpos m) + Zpos d).
      { rewrite !Zdigits2_pos by lia.
        rewrite Z.log2_mul_pow2 by lia. lia. }
      rewrite Hd. cbn [Zdigits2]. unfold magv in *. lia. }
  destruct Hz as (Hmag & Hez & Hezmin).
  destruct (binary_round_aux_spec s (Zpos mz) ez loc_Exact) as (m1' & R & E);
    [lia|].
  cbv zeta in E. rewrite E. clear E.
  rewrite Hmag in *.
  set (n1 := Z.max 0 (fexp magv - ez)) in *.
  set (m1 := Zpos mz / 2 ^ n1) in *.
  set (e1 := ez + n1) in *.
  set (n2 := Z.max 0 (fexp (Zdigits2 m1' + e1) - e1)).
  pose proof (fexp_lt magv Hmagv) as Hf.
  destruct (Zdigits2_div_pow2_ge (Zpos mz) n1) as [Hm1 Hd1];
    [unfold n1; lia | lia | unfold n1; lia |].
  fold m1 in Hm1, Hd1.
  assert (Hd1' : magv <= Zdigits2 m1' + e1).
  { pose proof (Zdigits2_mono m1 m1'). unfold e1. lia. }
  pose proof (fexp_lt (Zdigits2 m1' + e1)) as Hf'.
  pose proof (fexp_mono magv (Zdigits2 m1' + e1) Hd1') as Hfm.
  destruct (Zdigits2_div_pow2_ge m1' n2) as [Hm2 Hd2];
    [unfold n2; lia | lia | unfold n2; lia |].
  pose proof (Zdigits2_div_pow2_le m1' n2 ltac:(unfold n2; lia) Hm2) as Hd2'.
  destruct (m1' / 2 ^ n2) as [|m2|m2] eqn:Em2; try lia.
  destruct (Z.leb_spec (e1 + n2) (emax - prec)) as [Hle|Hgt];
    [|reflexivity].
  unfold valid, valid_binary, bounded, canonical_mantissa. fold fexp.
  cbn [Zdigits2] in Hd2, Hd2'.
  replace (Zpos (digits2_pos m2) + (e1 + n2)) with (Zdigits2 m1' + e1)
    by lia.
  apply andb_true_intro. split.
  - apply Z.eqb_eq. unfold n2, e1, n1 in *. lia.
  - apply Z.leb_le. exact Hle.
Qed.

Lemma binary_normalize_valid (M ez : Z) :
  emin <= ez -> valid (binary_normalize prec emax M ez false).
Proof.
  intros He. destruct M as [|m|m]; unfold binary_normalize.
  - reflexivity.
  - now apply binary_round_valid.
  - now apply binary_round_valid.
Qed.

(** The difference of two float64 numbers is a float64 number. *)
Lemma fsub_valid (x y : float64) : valid x -> valid y -> valid (fsub x y).
Proof.
  intros Vx Vy.
  destruct x as [sx|sx| |sx mx ex], y as [sy|sy| |sy my ey];
    try reflexivity; try exact Vx; try exact Vy.
  - unfold fsub, SFsub. destruct sx, sy; reflexivity.
  - unfold fsub, SFsub. destruct sx, sy; reflexivity.
  - pose proof (valid_finite _ _ _ Vx) as (Hx & _).
    pose proof (valid_finite _ _ _ Vy) as (Hy & _).
    unfold fsub, SFsub. apply binary_normalize_valid.
    change (IntDef.Z.min ex ey) with (Z.min ex ey). lia.
Qed.

(** ** Exact quotients *)

(** A finite number divided by itself is 1. *)
Lemma fdiv_self (s : bool) (m : positive) (e : Z) :
  fdiv (S754_finite s m e) (S754_finite s m e) = one.
Proof.
  unfold fdiv, SFdiv, SFdiv_core_binary.
  change (IntDef.Z.sub ?a ?b) with (a - b).
  change (IntDef.Z.add ?a ?b) with (a + b).
  change (IntDef.Z.min ?a ?b) with (Z.min a b).
  change (IntDef.Z.shiftl ?a ?b) with (Z.shiftl a b).
  change (IntDef.Z.div_eucl ?a ?b) with (Z.div_eucl a b).
  rewrite !Z.sub_diag.
  change (Z.min (SpecFloat.fexp prec emax 0) 0) with (-53).
  change (0 - -53) with 53.
  assert (E : Z.div_eucl (Z.shiftl (Zpos m) 53) (Zpos m) = (2 ^ 53, 0)).
  { rewrite Z.shiftl_mul_pow2 by lia.
    pose proof (Z_div_mod (Zpos m * 2 ^ 53) (Zpos m) ltac:(lia)) as H.
    destruct (Z.div_eucl (Zpos m * 2 ^ 53) (Zpos m)) as [q r].
    destruct H as [H Hr].
    assert (r = 0 /\ q = 2 ^ 53) as [-> ->]; [|reflexivity].
    assert (Hq : Zpos m * (2 ^ 53 - q) = r) by lia.
    assert (2 ^ 53 - q = 0) by nia. lia. }
  cbv iota. rewrite E.
  assert (L : new_location (Zpos m) 0 = loc_Exact).
  { unfold new_location, new_location_even, new_location_odd.
    destruct (IntDef.Z.even (Zpos m)); reflexivity. }
  rewrite L. destruct s; vm_compute; reflexivity.
Qed.

(** ** Divisions that are safe *)

Lemma digits2_pos_lt (a b : positive) :
  (Zpos (digits2_pos a) < Zpos (digits2_pos b)) -> (a < b)%positive.
Proof.
  intros H. apply Pos.lt_nle. intros Hle.
  pose proof (Zdigits2_mono (Zpos b) (Zpos a) ltac:(lia)) as M.
  cbn [Zdigits2] in M. lia.
Qed.

(** Dividing a number other than 0 by itself is safe. *)
Lemma domain_safe_divide_self (s : bool) (m : positive) (e : Z) :
  valid (S754_finite s m e) ->
  domain_safe_divide (S754_finite s m e) (S754_finite s m e) = false.
Proof.
  intros V. pose proof (valid_finite _ _ _ V) as (He & Hmax & Hd & _).
  assert (Hcan : fexp (mag m e) = e).
  { unfold valid, valid_binary, bounded, canonical_mantissa in V.
    apply andb_prop in V as [V _]. apply Z.eqb_eq in V. exact V. }
  unfold domain_safe_divide. cbn [SFabs].
  change tiny with (S754_finite false (2 ^ 52) (-1074)).
  destruct (Pos.eq_dec m 1) as [->|Hm1].
  { assert (e = emin) as ->.
    { unfold mag in Hcan. cbn [digits2_pos] in Hcan.
      unfold fexp, SpecFloat.fexp in Hcan.
      change (IntDef.Z.max ?a ?b) with (Z.max a b) in Hcan.
      unfold emin, SpecFloat.emin, prec, emax in *. lia. }
    vm_compute. reflexivity. }
  assert (Hdm : 2 <= Zpos (digits2_pos m)).
  { destruct m as [p|p|]; cbn [digits2_pos]; lia. }
  pose proof (fmul_finite_upper false false m (2 ^ 52) e (-1074)
                (Z.max (mag m e + mag (2 ^ 52) (-1074)) emin)
                (e + -1074) ltac:(lia) ltac:(lia) ltac:(lia)) as U.
  change (mag (2 ^ 52) (-1074)) with (-1021) in U.
  set (k := Z.max (mag m e + -1021) emin) in *.
  assert (Hfk : fexp (k + 1) <= e).
  { unfold k, mag in *.
    unfold fexp, SpecFloat.fexp, emin, SpecFloat.emin, prec, emax in *.
    lia. }
  destruct (fmul (S754_finite false m e) (S754_finite false (2 ^ 52) (-1074)))
    as [s'|s'| |s' m' e']; cbn [rounded_within] in U.
  - subst s'. reflexivity.
  - exfalso. unfold emax, prec in *. lia.
  - contradiction.
  - destruct U as (-> & Um & Ue & _).
    unfold ge. cbn [SFcompare].
    destruct (Z.compare_spec e' e) as [Ee|Elt|Egt].
    + subst e'.
      assert (Hlt : (m' < m)%positive).
      { apply digits2_pos_lt. unfold k, mag in *. unfold emin in *.
        unfold SpecFloat.emin, prec, emax in *. lia. }
      change (PosDef.Pos.compare_cont Eq m' m) with (Pos.compare m' m).
      now rewrite (proj2 (Pos.compare_lt_iff m' m) Hlt).
    + reflexivity.
    + exfalso. lia.
Qed.

(** Dividing 0 by a number other than 0 is safe. *)
Lemma domain_safe_divide_zero_l (s0 s : bool) (m : positive) (e : Z) :
  domain_safe_divide (S754_zero s0) (S754_finite s m e) = false.
Proof. reflexivity. Qed.

(** ** The ends of the range *)

(** A finite number minus itself is +0. *)
Lemma fsub_self (x : float64) : isfinite x = true -> fsub x x = zero.
Proof.
  destruct x as [s| | |s m e]; try discriminate; intros _.
  - destruct s; reflexivity.
  - unfold fsub, SFsub.
    change (IntDef.Z.sub ?a ?b) with (a - b).
    now rewrite Z.sub_diag.
Qed.

Lemma le_trans_finite (a b c : float64) :
  valid a -> valid b -> valid c ->
  isnan a = false -> isfinite b = true -> isfinite c = true ->
  le a b = true -> le b c = true -> le a c = true.
Proof.
  intros Va Vb Vc Na Fb Fc Hab Hbc.
  destruct a as [sa|sa| |sa ma ea]; try discriminate.
  - rewrite le_F2Z in * by (assumption || reflexivity).
    apply Z.leb_le in Hab, Hbc. apply Z.leb_le. lia.
  - destruct sa.
    + destruct c; try discriminate; reflexivity.
    + destruct b; discriminate.
  - rewrite le_F2Z in * by (assumption || reflexivity).
    apply Z.leb_le in Hab, Hbc. apply Z.leb_le. lia.
Qed.

(** Entries at or above the upper bound are clipped to it, entries at
    or below the lower bound to the lower bound. *)
Lemma clip_entry_above (lo hi v : float64) :
  le lo hi = true ->
  v = hi \/ (isnan v = false /\ le v hi = false) ->
  clip_entry lo hi v = hi.
Proof.
  intros Hb Hv. destruct (le_not_nan lo hi Hb) as [Nlo Nhi].
  assert (E : minimum v hi = hi).
  { unfold minimum. destruct Hv as [->|[Nv Hv]].
    - now rewrite le_refl.
    - now rewrite Hv, Nv. }
  unfold clip_entry. rewrite E. unfold maximum.
  now rewrite <- le_ge, Hb.
Qed.

Lemma clip_entry_below (lo hi v : float64) :
  valid lo -> valid hi -> valid v ->
  isfinite lo = true -> isfinite hi = true ->
  le lo hi = true ->
  v = lo \/ (isnan v = false /\ le lo v = false) ->
  clip_entry lo hi v = lo.
Proof.
  intros Vlo Vhi Vv Flo Fhi Hb Hv.
  destruct (le_not_nan lo hi Hb) as [Nlo Nhi].
  unfold clip_entry. destruct Hv as [->|[Nv Hv]].
  - unfold minimum. rewrite Hb. cbn [orb].
    unfold maximum. destruct (ge lo lo || isnan lo); reflexivity.
  - assert (Hvl : le v lo = true) by now apply le_total.
    assert (Hvh : le v hi = true)
      by now apply (le_trans_finite v lo hi).
    unfold minimum. rewrite Hvh. cbn [orb].
    unfold maximum. now rewrite <- le_ge, Hv, Nv.
Qed.

(** With finite bounds [lo < hi] whose difference does not overflow,
    an entry clipped to [hi] comes out as 100 and an entry clipped to
    [lo] as 0. *)
Lemma normalize_entry_ends (lo hi v : float64) :
  valid lo -> valid hi ->
  isfinite lo = true -> isfinite hi = true ->
  le hi lo = false -> isfinite (fsub hi lo) = true ->
  (clip_entry lo hi v = hi -> normalize_entry lo hi false false v = hundred)
  /\ (clip_entry lo hi v = lo -> normalize_entry lo hi false false v = zero).
Proof.
  intros Vlo Vhi Flo Fhi Hlt Fr.
  pose proof (fsub_rounds hi lo Vhi Vlo Fhi Flo) as R.
  pose proof (fsub_valid hi lo Vhi Vlo) as Vr.
  rewrite le_F2Z in Hlt by assumption. apply Z.leb_gt in Hlt.
  destruct (fsub hi lo) as [sr|sr| |sr mr er] eqn:Er; try discriminate.
  { cbn [rounds] in R. lia. }
  assert (sr = false) as ->.
  { cbn [rounds] in R. destruct R as (_ & -> & _). apply Z.ltb_ge. lia. }
  rewrite normalize_entry_plain. cbv zeta. split; intros ->.
  - rewrite Fhi, Er. cbn [negb orb].
    rewrite domain_safe_divide_self by exact Vr.
    rewrite fdiv_self. vm_compute. reflexivity.
  - rewrite Flo, Er, fsub_self by exact Flo. cbn [negb orb].
    change zero with (S754_zero false).
    rewrite domain_safe_divide_zero_l. reflexivity.
Qed.

(** Where the bounds of a column are the same finite number, every
    entry comes out as 0. *)
Lemma normalize_entry_zero_range (b v : float64) :
  valid b -> valid v -> isfinite b = true ->
  normalize_entry b b false false v = zero.
Proof.
  intros Vb Vv Fb.
  rewrite normalize_entry_plain. cbv zeta.
  rewrite (fsub_self b Fb).
  destruct (isfinite (clip_entry b b v)) eqn:Fc; [|reflexivity].
  cbn [negb orb].
  pose proof (clip_entry_valid b b v Vb Vb Vv) as Vc.
  pose proof (fsub_rounds _ _ Vc Vb Fc Fb) as R.
  apply rounds_not_nan in R.
  change zero with (S754_zero false).
  now rewrite domain_safe_divide_zero.
Qed.

(** Two numbers each at most the other are the same number, or two
    zeros. *)
Lemma le_antisym (x y : float64) :
  le x y = true -> le y x = true ->
  x = y \/ exists s s', x = S754_zero s /\ y = S754_zero s'.
Proof.
  unfold le, SFleb. rewrite (SFcompare_swap x y).
  destruct (SFcompare x y) as [[| |]|] eqn:E; cbn; try discriminate.
  intros _ _.
  destruct x as [s|s| |s m e], y as [s'|s'| |s' m' e']; cbn in E;
    try discriminate; try (destruct s; discriminate);
    try (destruct s'; discriminate).
  - right. now exists s, s'.
  - left. destruct s, s'; try discriminate; reflexivity.
  - left. injection E as E.
    assert (G : s = s' /\ e = e' /\ m = m').
    { change (PosDef.Pos.compare_cont Eq m m') with (Pos.compare m m') in E.
      destruct s, s'; try discriminate;
        destruct (Z.compare_spec e e') as [Ee|Ee|Ee]; try discriminate;
        destruct (Pos.compare_spec m m') as [Em|Em|Em]; try discriminate;
        auto. }
    destruct G as (-> & -> & ->). reflexivity.
Qed.

(** An entry that is a zero, against an upper bound that is a zero, is
    clipped to itself. *)
Lemma clip_entry_zero_above (lo : float64) (s s' : bool) :
  le (S754_zero s') lo = false -> isnan lo = false ->
  clip_entry lo (S754_zero s') (S754_zero s) = S754_zero s.
Proof.
  intros Hlt Nlo. unfold clip_entry, minimum. cbn [le SFleb SFcompare orb].
  unfold maximum.
  assert (E : ge (S754_zero s) lo = true).
  { rewrite <- le_ge.
    assert (H : le lo (S754_zero s') = true) by now apply le_total.
    destruct lo; exact H. }
  now rewrite E.
Qed.

Lemma normalize_entry_top (lo hi v : float64) :
  valid lo -> valid hi -> valid v ->
  isfinite lo = true -> isfinite hi = true ->
  le hi lo = false -> isfinite (fsub hi lo) = true ->
  le hi v = true ->
  normalize_entry lo hi false false v = hundred.
Proof.
  intros Vlo Vhi Vv Flo Fhi Hlt Fr Hv.
  assert (Hb : le lo hi = true).
  { apply le_total; try assumption; now apply isfinite_not_nan. }
  destruct (normalize_entry_ends lo hi hi Vlo Vhi Flo Fhi Hlt Fr)
    as [Hup _].
  assert (Hhh : normalize_entry lo hi false false hi = hundred).
  { apply Hup. apply clip_entry_above; [exact Hb | now left]. }
  destruct (le_not_nan _ _ Hv) as [_ Nv].
  destruct (le v hi) eqn:Hvh.
  - destruct (le_antisym v hi Hvh Hv) as [->|(s & s' & -> & ->)];
      [exact Hhh|].
    rewrite <- Hhh. rewrite !normalize_entry_plain. cbv zeta.
    rewrite clip_entry_zero_above
      by (assumption || now apply isfinite_not_nan).
    rewrite (clip_entry_above lo (S754_zero s') (S754_zero s'))
      by (assumption || now left).
    destruct lo as [sl| | |sl ml el]; try discriminate.
    reflexivity.
  - destruct (normalize_entry_ends lo hi v Vlo Vhi Flo Fhi Hlt Fr)
      as [Hup' _].
    apply Hup'. apply clip_entry_above; [exact Hb|]. right. now split.
Qed.

Lemma normalize_entry_bottom (lo hi v : float64) :
  valid lo -> valid hi -> valid v ->
  isfinite lo = true -> isfinite hi = true ->
  le hi lo = false -> isfinite (fsub hi lo) = true ->
  (le v lo = true -> ~ (v = S754_zero true /\ lo = S754_zero false) ->
   normalize_entry lo hi false false v = zero)
  /\ (v = S754_zero true -> lo = S754_zero false ->
      normalize_entry lo hi false false v = S754_zero true).
Proof.
  intros Vlo Vhi Vv Flo Fhi Hlt Fr.
  assert (Hb : le lo hi = true).
  { apply le_total; try assumption; now apply isfinite_not_nan. }
  destruct (normalize_entry_ends lo hi v Vlo Vhi Flo Fhi Hlt Fr)
    as [_ Hdown].
  pose proof (fsub_rounds hi lo Vhi Vlo Fhi Flo) as R.
  assert (Hlt' := Hlt).
  rewrite le_F2Z in Hlt' by assumption. apply Z.leb_gt in Hlt'.
  split.
  - intros Hv Hex. destruct (le_not_nan _ _ Hv) as [Nv _].
    destruct (le lo v) eqn:Hlv.
    + destruct (le_antisym v lo Hv Hlv) as [->|(s & s' & -> & ->)].
      * apply Hdown. apply clip_entry_below; try assumption. now left.
      * destruct s, s'.
        -- apply Hdown. apply clip_entry_below; try assumption. now left.
        -- exfalso. apply Hex. now split.
        -- rewrite normalize_entry_plain. cbv zeta.
           destruct hi as [sh| | |sh mh eh]; try discriminate.
           destruct sh; [discriminate|].
           reflexivity.
        -- apply Hdown. apply clip_entry_below; try assumption. now left.
    + apply Hdown. apply clip_entry_below; try assumption. right.
      now split.
  - intros -> ->.
    rewrite normalize_entry_plain. cbv zeta.
    destruct hi as [sh| | |sh mh eh]; try discriminate.
    destruct sh; [discriminate|].
    reflexivity.
Qed.

(** X13: with finite bounds [lo < hi] of a column whose difference
    does not overflow, every entry [v >= hi] ([+Inf] included) is
    written back as exactly [100.0] and every entry [v <= lo] ([-Inf]
    included) as exactly [+0.0], with one exception: the entry [-0.0]
    against the bound [lo = +0.0] is written back as [-0.0]. *)
Theorem X13_entries_at_the_bounds_become_0_and_100
  (mins maxs : list float64) (w : world) (i j : nat)
  (row : list float64) (v lo hi : float64) :
  well_formed (full_stack w) ->
  length mins = ncols (full_stack w) ->
  length maxs = ncols (full_stack w) ->
  nth_error (rows (full_stack w)) i = Some row ->
  nth_error row j = Some v ->
  nth_error mins j = Some lo -> nth_error maxs j = Some hi ->
  valid lo -> valid hi -> valid v ->
  isfinite lo = true -> isfinite hi = true ->
  le hi lo = false -> isfinite (fsub hi lo) = true ->
  exists w' row' v',
    normalize_by_columns (Some (ndarray1 mins)) (Some (ndarray1 maxs)) w
    = (Return (ndarray1 mins, ndarray1 maxs), w')
    /\ nth_error (rows (full_stack w')) i = Some row'
    /\ nth_error row' j = Some v'
    /\ (le hi v = true -> v' = hundred)
    /\ (le v lo = true ->
        ~ (v = S754_zero true /\ lo = S754_zero false) -> v' = zero)
    /\ (v = S754_zero true -> lo = S754_zero false -> v' = S754_zero true).
Proof.
  intros Wf Lmins Lmaxs Hrow Hv Hlo Hhi Vlo Vhi Vv Flo Fhi Hlt Fr.
  destruct (normalize_entry_at_plain mins maxs w i j row v lo hi)
    as (w' & row' & E & _ & Hi & Hj); try assumption.
  destruct (normalize_entry_bottom lo hi v Vlo Vhi Vv Flo Fhi Hlt Fr)
    as [Hdown Hneg].
  exists w', row', (normalize_entry lo hi false false v).
  split; [exact E|]. split; [exact Hi|]. split; [exact Hj|].
  split; [|split].
  - now apply normalize_entry_top.
  - exact Hdown.
  - exact Hneg.
Qed.

(** X14: where the two bounds of a column are the same finite number,
    every entry of the column is written back as 0, whatever it was
    (NaN and the infinities included). *)
Theorem X14_column_with_equal_bounds_becomes_0
  (mins maxs : list float64) (w : world) (i j : nat)
  (row : list float64) (v b : float64) :
  well_formed (full_stack w) ->
  length mins = ncols (full_stack w) ->
  length maxs = ncols (full_stack w) ->
  nth_error (rows (full_stack w)) i = Some row ->
  nth_error row j = Some v ->
  nth_error mins j = Some b -> nth_error maxs j = Some b ->
  valid b -> valid v -> isfinite b = true ->
  exists w' row',
    normalize_by_columns (Some (ndarray1 mins)) (Some (ndarray1 maxs)) w
    = (Return (ndarray1 mins, ndarray1 maxs), w')
    /\ nth_error (rows (full_stack w')) i = Some row'
    /\ nth_error row' j = Some zero.
Proof.
  intros Wf Lmins Lmaxs Hrow Hv Hlo Hhi Vb Vv Fb.
  destruct (normalize_entry_at_plain mins maxs w i j row v b b)
    as (w' & row' & E & _ & Hi & Hj); try assumption.
  exists w', row'. split; [exact E|]. split; [exact Hi|].
  now rewrite Hj, normalize_entry_zero_range.
Qed.

Lemma X13_witness :
  exists w' row' v',
    normalize_by_columns (Some (ndarray1 [of_Z 0])) (Some (ndarray1 [of_Z 10]))
                         (world_of 1 (column_of [0; 5; 10; 15; -5]))
    = (Return (ndarray1 [of_Z 0], ndarray1 [of_Z 10]), w')
    /\ nth_error (rows (full_stack w')) 3 = Some row'
    /\ nth_error row' 0 = Some v'
    /\ (le (of_Z 10) (of_Z 15) = true -> v' = hundred)
    /\ (le (of_Z 15) (of_Z 0) = true ->
        ~ (of_Z 15 = S754_zero true /\ of_Z 0 = S754_zero false) ->
        v' = zero)
    /\ (of_Z 15 = S754_zero true -> of_Z 0 = S754_zero false ->
        v' = S754_zero true).
Proof.
  apply (X13_entries_at_the_bounds_become_0_and_100
           [of_Z 0] [of_Z 10] (world_of 1 (column_of [0; 5; 10; 15; -5]))
           3%nat 0%nat [of_Z 15] (of_Z 15) (of_Z 0) (of_Z 10));
    try reflexivity.
  repeat constructor.
Defined.

Lemma X14_witness :
  exists w' row',
    normalize_by_columns (Some (ndarray1 [of_Z 7])) (Some (ndarray1 [of_Z 7]))
                         (world_of 1 (column_of [3; 7; 9]))
    = (Return (ndarray1 [of_Z 7], ndarray1 [of_Z 7]), w')
    /\ nth_error (rows (full_stack w')) 2 = Some row'
    /\ nth_error row' 0 = Some zero.
Proof.
  apply (X14_column_with_equal_bounds_becomes_0
           [of_Z 7] [of_Z 7] (world_of 1 (column_of [3; 7; 9]))
           2%nat 0%nat [of_Z 9] (of_Z 9) (of_Z 7));
    try reflexivity.
  repeat constructor.
Defined.

(** * Rounding, exactly *)

(** ** Rounding to nearest *)

Lemma rne_range (m k : Z) : m / 2 ^ k <= rne m k <= m / 2 ^ k + 1.
Proof.
  unfold rne. cbv zeta.
  destruct (_ <? _); [lia|]. destruct (_ <? _); [lia|].
  destruct (Z.even _); lia.
Qed.

(** A multiple of [2 ^ k] is not moved. *)
Lemma rne_exact (b k : Z) : 0 <= k -> rne (b * 2 ^ k) k = b.
Proof.
  intros Hk. pose proof (pow2_pos k Hk) as Hp.
  unfold rne. cbv zeta.
  rewrite Z.mod_mul, Z.div_mul by lia.
  destruct (Z.ltb_spec (2 * 0) (2 ^ k)); [reflexivity | lia].
Qed.

Lemma rne_mono (a b k : Z) : 0 <= k -> a <= b -> rne a k <= rne b k.
Proof.
  intros Hk Hab. pose proof (pow2_pos k Hk) as Hp.
  pose proof (Z.div_le_mono a b (2 ^ k) Hp Hab) as Hq.
  destruct (Z.eq_dec (a / 2 ^ k) (b / 2 ^ k)) as [E|Hne].
  - pose proof (Z.div_mod a (2 ^ k) ltac:(lia)) as Da.
    pose proof (Z.div_mod b (2 ^ k) ltac:(lia)) as Db.
    assert (Hr : a mod 2 ^ k <= b mod 2 ^ k) by (rewrite E in Da; lia).
    unfold rne. cbv zeta. rewrite E.
    destruct (Z.ltb_spec (2 * (a mod 2 ^ k)) (2 ^ k));
      destruct (Z.ltb_spec (2 * (b mod 2 ^ k)) (2 ^ k));
      destruct (Z.ltb_spec (2 ^ k) (2 * (a mod 2 ^ k)));
      destruct (Z.ltb_spec (2 ^ k) (2 * (b mod 2 ^ k)));
      destruct (Z.even (b / 2 ^ k)); lia.
  - pose proof (rne_range a k). pose proof (rne_range b k). lia.
Qed.

(** Rounding does not go beyond a multiple of [2 ^ k]. *)
Lemma rne_le_multiple (m b k : Z) :
  0 <= k -> m <= b * 2 ^ k -> rne m k <= b.
Proof.
  intros Hk Hm. rewrite <- (rne_exact b k Hk). now apply rne_mono.
Qed.

Lemma rne_ge_multiple (m b k : Z) :
  0 <= k -> b * 2 ^ k <= m -> b <= rne m k.
Proof.
  intros Hk Hm. rewrite <- (rne_exact b k Hk). now apply rne_mono.
Qed.

(** Trailing zeros do not matter. *)
Lemma rne_scale (m k j : Z) :
  0 <= k -> 0 <= j -> rne (m * 2 ^ j) (k + j) = rne m k.
Proof.
  intros Hk Hj.
  pose proof (pow2_pos k Hk) as Hpk. pose proof (pow2_pos j Hj) as Hpj.
  unfold rne. cbv zeta.
  rewrite Z.pow_add_r by lia.
  rewrite Z.div_mul_cancel_r by lia.
  rewrite Zmult_mod_distr_r.
  destruct (Z.ltb_spec (2 * (m mod 2 ^ k)) (2 ^ k));
    destruct (Z.ltb_spec (2 * (m mod 2 ^ k * 2 ^ j)) (2 ^ k * 2 ^ j));
    try nia; try reflexivity.
  destruct (Z.ltb_spec (2 ^ k) (2 * (m mod 2 ^ k)));
    destruct (Z.ltb_spec (2 ^ k * 2 ^ j) (2 * (m mod 2 ^ k * 2 ^ j)));
    try nia; reflexivity.
Qed.

(** ** The bits that [shr] keeps *)

Lemma iter_pos_nat {A : Type} (f : A -> A) (p : positive) : forall x : A,
  iter_pos f p x = Nat.iter (Pos.to_nat p) f x.
Proof.
  induction p as [p IH|p IH|]; intros x; cbn [iter_pos].
  - rewrite !IH, Pos2Nat.inj_xI.
    replace (S (2 * Pos.to_nat p)) with (Pos.to_nat p + (Pos.to_nat p + 1))%nat
      by lia.
    rewrite !Nat.iter_add. reflexivity.
  - rewrite !IH, Pos2Nat.inj_xO.
    replace (2 * Pos.to_nat p)%nat with (Pos.to_nat p + Pos.to_nat p)%nat
      by lia.
    now rewrite Nat.iter_add.
  - reflexivity.
Qed.

Lemma shr_1_bits (m : Z) (r s : bool) :
  0 <= m ->
  shr_1 {| shr_m := m; shr_r := r; shr_s := s |}
  = {| shr_m := m / 2; shr_r := Z.odd m; shr_s := r || s |}.
Proof.
  intros Hm. destruct m as [|[p|p|]|p]; try lia; cbn [shr_1].
  - reflexivity.
  - f_equal. rewrite Pos2Z.inj_xI.
    apply Z.div_unique with 1; lia.
  - f_equal. rewrite Pos2Z.inj_xO.
    apply Z.div_unique with 0; lia.
  - reflexivity.
Qed.

(** After [k] shifts of an exact mantissa [m]: with [M = 2 m], the
    mantissa is [M / 2 ^ (k + 1)], the round bit is bit [k] of [M] and
    the sticky bit tells whether a bit below it is set. *)
Lemma shr_iter_bits (m : Z) (k : nat) :
  0 <= m ->
  Nat.iter k shr_1 {| shr_m := m; shr_r := false; shr_s := false |}
  = {| shr_m := (2 * m) / 2 ^ (Z.of_nat k + 1);
       shr_r := Z.odd ((2 * m) / 2 ^ Z.of_nat k);
       shr_s := negb ((2 * m) mod 2 ^ Z.of_nat k =? 0) |}.
Proof.
  intros Hm. induction k as [|k IH].
  - cbn [Nat.iter Z.of_nat].
    assert (E1 : 2 * m / 2 ^ (0 + 1) = m).
    { change (2 ^ (0 + 1)) with 2. rewrite Z.mul_comm. apply Z.div_mul. lia. }
    assert (E2 : Z.odd (2 * m / 2 ^ 0) = false).
    { rewrite Z.pow_0_r, Z.div_1_r, Z.odd_mul. reflexivity. }
    assert (E3 : (2 * m) mod 2 ^ 0 = 0).
    { rewrite Z.pow_0_r. apply Z.mod_1_r. }
    rewrite E1, E2, E3. reflexivity.
  - rewrite Nat.iter_succ, IH.
    pose proof (pow2_pos (Z.of_nat k) ltac:(lia)) as Hp.
    rewrite shr_1_bits by (apply Z.div_pos; [lia | apply pow2_pos; lia]).
    rewrite Nat2Z.inj_succ.
    replace (Z.succ (Z.of_nat k) + 1) with (Z.of_nat k + 1 + 1) by lia.
    rewrite (Z.pow_add_r 2 (Z.of_nat k + 1) 1) by lia.
    change (2 ^ 1) with 2.
    rewrite <- Z.div_div by (try apply pow2_pos; lia).
    replace (Z.succ (Z.of_nat k)) with (Z.of_nat k + 1) by lia.
    f_equal.
    rewrite (Z.pow_add_r 2 (Z.of_nat k) 1) by lia. change (2 ^ 1) with 2.
    rewrite Z.rem_mul_r by lia.
    set (M := 2 * m).
    rewrite <- Z.bit0_mod, Z.bit0_odd.
    pose proof (Z.mod_pos_bound M (2 ^ Z.of_nat k) Hp) as Hb.
    destruct (Z.odd (M / 2 ^ Z.of_nat k)); cbn [Z.b2z orb].
    + symmetry. apply negb_true_iff. apply Z.eqb_neq. lia.
    + rewrite Z.mul_0_r, Z.add_0_r. reflexivity.
Qed.

(** Shifting an exact mantissa and rounding it to nearest-even is
    [rne]. *)
Lemma shr_exact_round (m e n : Z) :
  0 <= m ->
  let mrs := fst (shr (shr_record_of_loc m loc_Exact) e n) in
  round_nearest_even (shr_m mrs) (loc_of_shr_record mrs)
  = rne m (Z.max 0 n).
Proof.
  intros Hm. cbv zeta.
  assert (R0 : rne m 0 = m).
  { replace m with (m * 2 ^ 0) at 1 by (rewrite Z.pow_0_r; lia).
    now apply rne_exact. }
  destruct n as [|p|p]; cbn [shr fst shr_record_of_loc].
  { change (Z.max 0 0) with 0. now rewrite R0. }
  2: { replace (Z.max 0 (Zneg p)) with 0 by lia. now rewrite R0. }
  replace (Z.max 0 (Zpos p)) with (Zpos p) by lia.
  rewrite iter_pos_nat, shr_iter_bits by exact Hm.
  rewrite positive_nat_Z.
  set (k := Zpos p). assert (Hk : 0 < k) by (unfold k; lia).
  pose proof (pow2_pos k ltac:(lia)) as Hp.
  cbn [shr_m loc_of_shr_record].
  assert (Eq : 2 * m / 2 ^ (k + 1) = m / 2 ^ k).
  { rewrite Z.pow_add_r by lia. change (2 ^ 1) with 2.
    rewrite (Z.mul_comm (2 ^ k) 2), Z.div_mul_cancel_l by lia.
    reflexivity. }
  rewrite Eq.
  assert (E2 : 2 * (m mod 2 ^ k)
               = (2 * m) mod 2 ^ k
                 + 2 ^ k * Z.b2z (Z.odd (2 * m / 2 ^ k))).
  { rewrite <- Z.bit0_odd, Z.bit0_mod.
    rewrite <- Z.rem_mul_r by lia.
    replace (2 ^ k * 2) with (2 * 2 ^ k) by lia.
    now rewrite Zmult_mod_distr_l. }
  pose proof (Z.mod_pos_bound (2 * m) (2 ^ k) Hp) as Hb.
  unfold rne. cbv zeta.
  destruct (Z.odd (2 * m / 2 ^ k)); cbn [Z.b2z] in E2.
  - destruct (Z.eqb_spec ((2 * m) mod 2 ^ k) 0) as [E0|E0]; cbn [negb].
    + cbn [round_nearest_even].
      destruct (Z.ltb_spec (2 * (m mod 2 ^ k)) (2 ^ k)); [lia|].
      destruct (Z.ltb_spec (2 ^ k) (2 * (m mod 2 ^ k))); [lia|].
      reflexivity.
    + cbn [round_nearest_even].
      destruct (Z.ltb_spec (2 * (m mod 2 ^ k)) (2 ^ k)); [lia|].
      destruct (Z.ltb_spec (2 ^ k) (2 * (m mod 2 ^ k))); [reflexivity|lia].
  - destruct (Z.ltb_spec (2 * (m mod 2 ^ k)) (2 ^ k)); [|lia].
    destruct (negb _); reflexivity.
Qed.

(** Rounding an exact mantissa: the first shift rounds to nearest-even,
    the second one makes room when the rounding carried. *)
Lemma binary_round_aux_exact (s : bool) (mx ex : Z) :
  0 <= mx ->
  let n1 := Z.max 0 (fexp (Zdigits2 mx + ex) - ex) in
  let m1' := rne mx n1 in
  let e1 := ex + n1 in
  let n2 := Z.max 0 (fexp (Zdigits2 m1' + e1) - e1) in
  let m2 := m1' / 2 ^ n2 in
  let e2 := e1 + n2 in
  binary_round_aux prec emax s mx ex loc_Exact
  = match m2 with
    | Z0 => S754_zero s
    | Zpos m => if e2 <=? emax - prec then S754_finite s m e2
                else S754_infinity s
    | Zneg _ => S754_nan
    end.
Proof.
  intros Hmx n1 m1' e1 n2 m2 e2.
  unfold binary_round_aux, shr_fexp. fold fexp.
  pose proof (shr_exact_round mx ex (fexp (Zdigits2 mx + ex) - ex) Hmx) as R.
  cbv zeta in R. fold n1 in R.
  destruct (shr_spec (shr_record_of_loc mx loc_Exact) ex
              (fexp (Zdigits2 mx + ex) - ex)) as [_ He1];
    [rewrite shr_m_of_loc; exact Hmx|].
  destruct (shr (shr_record_of_loc mx loc_Exact) ex
                (fexp (Zdigits2 mx + ex) - ex)) as [mrs' e'] eqn:E1.
  cbn [fst snd] in R, He1. subst e'. fold n1. fold e1.
  rewrite R. fold m1'.
  assert (Hm1' : 0 <= m1').
  { pose proof (rne_range mx n1).
    assert (0 <= mx / 2 ^ n1)
      by (apply Z.div_pos; [lia | apply pow2_pos; unfold n1; lia]).
    unfold m1'. lia. }
  destruct (shr_spec (shr_record_of_loc m1' loc_Exact) e1
              (fexp (Zdigits2 m1' + e1) - e1)) as [Hm2 He2];
    [rewrite shr_m_of_loc; exact Hm1'|].
  rewrite shr_m_of_loc in Hm2.
  destruct (shr (shr_record_of_loc m1' loc_Exact) e1
                (fexp (Zdigits2 m1' + e1) - e1)) as [mrs'' e''] eqn:E2.
  cbn [fst snd] in Hm2, He2. subst e''. rewrite Hm2. reflexivity.
Qed.

(** ** Rounding a multiple of [2 ^ emin] *)

Lemma fexp_digits (D : Z) :
  0 < D ->
  0 <= fexp (Zdigits2 D + emin) - emin < Zdigits2 D.
Proof.
  intros HD. pose proof (Zdigits2_bounds D HD).
  assert (1 <= Zdigits2 D).
  { rewrite Zdigits2_pos by lia. pose proof (Z.log2_nonneg D). lia. }
  unfold fexp, SpecFloat.fexp. fold emin. unfold prec.
  change (IntDef.Z.max ?a ?b) with (Z.max a b). lia.
Qed.

(** [rnd D] lies in the binade of [D], ends included. *)
Lemma rnd_binade (D : Z) :
  0 < D -> 2 ^ (Zdigits2 D - 1) <= rnd D <= 2 ^ Zdigits2 D.
Proof.
  intros HD. pose proof (Zdigits2_bounds D HD) as [Lo Hi].
  pose proof (fexp_digits D HD) as Hn.
  unfold rnd. cbv zeta.
  set (n := fexp (Zdigits2 D + emin) - emin) in *.
  set (d := Zdigits2 D) in *.
  pose proof (pow2_pos n ltac:(lia)) as Hp.
  assert (E1 : 2 ^ (d - 1) = 2 ^ (d - 1 - n) * 2 ^ n).
  { rewrite <- Z.pow_add_r by lia. f_equal. lia. }
  assert (E2 : 2 ^ d = 2 ^ (d - n) * 2 ^ n).
  { rewrite <- Z.pow_add_r by lia. f_equal. lia. }
  split.
  - assert (2 ^ (d - 1 - n) <= rne D n)
      by (apply rne_ge_multiple; lia).
    rewrite E1. nia.
  - assert (rne D n <= 2 ^ (d - n))
      by (apply rne_le_multiple; lia).
    rewrite E2. nia.
Qed.

(** Rounding is monotone. *)
Lemma rnd_mono (D1 D2 : Z) : 0 < D1 -> D1 <= D2 -> rnd D1 <= rnd D2.
Proof.
  intros H1 H12.
  pose proof (Zdigits2_mono D1 D2 ltac:(lia)) as Hd.
  destruct (Z.eq_dec (Zdigits2 D1) (Zdigits2 D2)) as [E|Hne].
  - unfold rnd. cbv zeta. rewrite E.
    pose proof (fexp_digits D2 ltac:(lia)) as Hn.
    set (n := fexp (Zdigits2 D2 + emin) - emin) in *.
    pose proof (pow2_pos n ltac:(lia)).
    pose proof (rne_mono D1 D2 n ltac:(lia) H12). nia.
  - pose proof (rnd_binade D1 H1) as [_ U].
    pose proof (rnd_binade D2 ltac:(lia)) as [L _].
    assert (2 ^ Zdigits2 D1 <= 2 ^ (Zdigits2 D2 - 1)).
    { apply Z.pow_le_mono_r; [lia|]. lia. }
    lia.
Qed.

(** The value of a float64 is not moved. *)
Lemma rnd_valid (s : bool) (m : positive) (e : Z) :
  valid (S754_finite s m e) ->
  rnd (Zpos m * 2 ^ (e - emin)) = Zpos m * 2 ^ (e - emin).
Proof.
  intros V. pose proof (valid_finite _ _ _ V) as (He & _).
  assert (Hcan : fexp (mag m e) = e).
  { unfold valid, valid_binary, bounded, canonical_mantissa in V.
    apply andb_prop in V as [V _]. apply Z.eqb_eq in V. exact V. }
  pose proof (pow2_pos (e - emin) ltac:(lia)) as Hp.
  unfold rnd. cbv zeta.
  assert (Hd : Zdigits2 (Zpos m * 2 ^ (e - emin)) + emin = mag m e).
  { unfold mag. rewrite Zdigits2_pos by lia.
    rewrite Z.log2_mul_pow2 by lia. rewrite digits2_pos_log2. lia. }
  rewrite Hd, Hcan. rewrite rne_exact by lia. reflexivity.
Qed.

Lemma Zdigits2_mul_pow2 (m j : Z) :
  0 < m -> 0 <= j -> Zdigits2 (m * 2 ^ j) = Zdigits2 m + j.
Proof.
  intros Hm Hj. pose proof (pow2_pos j Hj).
  rewrite !Zdigits2_pos by lia. rewrite Z.log2_mul_pow2 by lia. lia.
Qed.

(** When adding 1 takes one more digit, the sum is a power of two. *)
Lemma Zdigits2_carry (m : Z) :
  0 < m -> Zdigits2 (m + 1) = Zdigits2 m + 1 -> m + 1 = 2 ^ Zdigits2 m.
Proof.
  intros Hm E.
  pose proof (Zdigits2_bounds m Hm) as [_ Hi].
  pose proof (Zdigits2_bounds (m + 1) ltac:(lia)) as [Lo _].
  rewrite E in Lo. replace (Zdigits2 m + 1 - 1) with (Zdigits2 m) in Lo by lia.
  lia.
Qed.

Lemma fexp_succ (a : Z) : fexp a <= fexp (a + 1) <= fexp a + 1.
Proof.
  unfold fexp, SpecFloat.fexp.
  change (IntDef.Z.max ?x ?y) with (Z.max x y). lia.
Qed.

Lemma fexp_le_emax (a : Z) : fexp a <= emax - prec <-> a <= emax.
Proof.
  unfold fexp, SpecFloat.fexp, SpecFloat.emin, emax, prec.
  change (IntDef.Z.max ?x ?y) with (Z.max x y). lia.
Qed.

(** What [binary_round] returns for [m * 2 ^ e]: the float64 whose
    value is the rounded value, or an infinity when that value is
    beyond the greatest float64. *)
Lemma binary_round_exact (s : bool) (m : positive) (e : Z) :
  emin <= e ->
  let V := rnd (Zpos m * 2 ^ (e - emin)) in
  match binary_round prec emax s m e with
  | S754_finite s' m' e' =>
      s' = s /\ emin <= e' /\ Zpos m' * 2 ^ (e' - emin) = V
      /\ Zdigits2 V + emin <= emax
  | S754_infinity s' => s' = s /\ emax < Zdigits2 V + emin
  | _ => False
  end.
Proof.
  intros He V. unfold binary_round. fold fexp.
  set (magv := Zpos (digits2_pos m) + e).
  assert (Hmagv : emin < magv) by (unfold magv; lia).
  pose proof (shl_align_spec m e (fexp magv)) as (Sd & Se & Sm).
  destruct (shl_align m e (fexp magv)) as [mz ez] eqn:Ea.
  cbn [fst snd] in Sd, Se, Sm.
  assert (Hmag : Zdigits2 (Zpos mz) + ez = magv) by exact Sd.
  assert (Hez : ez <= fexp magv) by lia.
  assert (Hezmin : emin <= ez).
  { pose proof (fexp_ge_emin magv). lia. }
  set (D := Zpos m * 2 ^ (e - emin)) in *.
  assert (HD : Zpos mz * 2 ^ (ez - emin) = D).
  { unfold D. rewrite Sm, <- Se.
    replace (e - emin) with ((e - ez) + (ez - emin)) by lia.
    rewrite Z.pow_add_r by lia. ring. }
  assert (HdD : Zdigits2 D + emin = magv).
  { rewrite <- HD, Zdigits2_mul_pow2 by lia. lia. }
  rewrite (binary_round_aux_exact s (Zpos mz) ez) by lia.
  rewrite Hmag.
  set (n1 := Z.max 0 (fexp magv - ez)).
  assert (En1 : n1 = fexp magv - ez) by (unfold n1; lia).
  set (m1' := rne (Zpos mz) n1).
  set (e1 := ez + n1).
  assert (Ee1 : e1 = fexp magv) by (unfold e1; lia).
  set (N := fexp magv - emin).
  assert (HV : V = m1' * 2 ^ N).
  { unfold V, rnd. cbv zeta. rewrite HdD. fold N. f_equal.
    rewrite <- HD. replace N with (n1 + (ez - emin)) by (unfold N; lia).
    unfold m1'. apply rne_scale; lia. }
  pose proof (fexp_lt magv Hmagv) as Hf.
  destruct (Zdigits2_div_pow2_ge (Zpos mz) n1) as [Hm1 Hd1];
    [lia | lia | cbn [Zdigits2] in *; lia |].
  pose proof (Zdigits2_div_pow2_le (Zpos mz) n1 ltac:(lia) Hm1) as Hd1'.
  set (m1 := Zpos mz / 2 ^ n1) in *.
  assert (Hdm1 : Zdigits2 m1 + e1 = magv) by lia.
  pose proof (rne_range (Zpos mz) n1) as R. fold m1 m1' in R.
  assert (Hm1' : 0 < m1') by lia.
  assert (HN : 0 <= N) by (unfold N; pose proof (fexp_ge_emin magv); lia).
  assert (HdV : Zdigits2 V + emin = Zdigits2 m1' + e1).
  { rewrite HV, Zdigits2_mul_pow2 by lia. unfold N. lia. }
  (* the second shift *)
  assert (Hcase : (Zdigits2 m1' = Zdigits2 m1)
                  \/ (Zdigits2 m1' = Zdigits2 m1 + 1
                      /\ m1' = 2 ^ Zdigits2 m1)).
  { destruct (Z.eq_dec m1' m1) as [->|Hne]; [now left|].
    assert (E : m1' = m1 + 1) by lia.
    pose proof (Zdigits2_mono m1 m1' ltac:(lia)).
    pose proof (Zdigits2_succ m1 ltac:(lia)). rewrite <- E in *.
    destruct (Z.eq_dec (Zdigits2 m1') (Zdigits2 m1)); [now left|].
    right. assert (Ed : Zdigits2 m1' = Zdigits2 m1 + 1) by lia.
    split; [exact Ed|]. rewrite E in *. now apply Zdigits2_carry. }
  set (g' := Zdigits2 m1' + e1) in *.
  set (n2 := Z.max 0 (fexp g' - e1)).
  assert (Hn2 : m1' / 2 ^ n2 * 2 ^ n2 = m1' /\ 0 <= n2
                /\ e1 + n2 = fexp g').
  { destruct Hcase as [Ed | [Ed Ep]].
    - assert (Eg : fexp g' = fexp magv) by (f_equal; unfold g'; lia).
      assert (n2 = 0) by (unfold n2; lia).
      replace n2 with 0. rewrite Z.pow_0_r, Z.div_1_r. lia.
    - assert (Eg : fexp g' = fexp (magv + 1)) by (f_equal; unfold g'; lia).
      pose proof (fexp_succ magv) as Fs. rewrite <- Eg in Fs.
      assert (1 <= Zdigits2 m1).
      { rewrite Zdigits2_pos by lia. pose proof (Z.log2_nonneg m1). lia. }
      destruct (Z.eq_dec (fexp g') (fexp magv)) as [E0|E1].
      + assert (n2 = 0) by (unfold n2; lia).
        replace n2 with 0. rewrite Z.pow_0_r, Z.div_1_r. lia.
      + assert (En2 : n2 = 1) by (unfold n2; lia).
        rewrite En2. change (2 ^ 1) with 2. split; [|lia].
        rewrite Ep.
        replace (Zdigits2 m1) with (Zdigits2 m1 - 1 + 1) by lia.
        rewrite Z.pow_add_r by lia. change (2 ^ 1) with 2.
        rewrite Z.div_mul by lia. reflexivity. }
  destruct Hn2 as (Hm2 & Hn2 & He2).
  pose proof (pow2_pos n2 Hn2) as Hp2.
  destruct (m1' / 2 ^ n2) as [|m2|m2] eqn:Em2; try nia.
  rewrite He2.
  destruct (Z.leb_spec (fexp g') (emax - prec)) as [Hle|Hgt].
  - split; [reflexivity|]. split; [pose proof (fexp_ge_emin g'); lia|].
    split.
    + rewrite HV, <- Hm2.
      replace (fexp g' - emin) with (n2 + N) by (unfold N; lia).
      rewrite Z.pow_add_r by lia. ring.
    + rewrite HdV. now apply fexp_le_emax.
  - split; [reflexivity|]. rewrite HdV.
    pose proof (fexp_le_emax g'). lia.
Qed.

Lemma valid_mag_le_emax (s : bool) (m : positive) (e : Z) :
  valid (S754_finite s m e) ->
  Zdigits2 (Zpos m * 2 ^ (e - emin)) + emin <= emax.
Proof.
  intros V. pose proof (valid_finite _ _ _ V) as (He & Hmax & Hd & _).
  rewrite Zdigits2_mul_pow2 by lia. cbn [Zdigits2].
  unfold emax, prec in *. lia.
Qed.

(** The difference of two float64 numbers, when it is positive: the
    float64 whose value is the rounded exact difference, or +Inf. *)
Lemma fsub_exact (x y : float64) :
  valid x -> valid y -> isfinite x = true -> isfinite y = true ->
  0 < F2Z x - F2Z y ->
  let V := rnd (F2Z x - F2Z y) in
  match fsub x y with
  | S754_finite s m e =>
      s = false /\ emin <= e /\ Zpos m * 2 ^ (e - emin) = V
      /\ Zdigits2 V + emin <= emax
  | S754_infinity s => s = false /\ emax < Zdigits2 V + emin
  | _ => False
  end.
Proof.
  intros Vx Vy Fx Fy HD V.
  destruct x as [sx|sx| |sx mx ex]; try discriminate;
    destruct y as [sy|sy| |sy my ey]; try discriminate.
  - pose proof (valid_finite _ _ _ Vy) as (Hy & _).
    pose proof (pow2_pos (ey - emin) ltac:(lia)).
    assert (sy = true) as ->.
    { destruct sy; [reflexivity|]. cbn [F2Z cond_Zopp] in HD. lia. }
    unfold fsub, SFsub. cbn [negb].
    assert (EV : V = Zpos my * 2 ^ (ey - emin)).
    { unfold V. cbn [F2Z cond_Zopp].
      replace (0 - - (Zpos my * 2 ^ (ey - emin)))
        with (Zpos my * 2 ^ (ey - emin)) by lia.
      now apply (rnd_valid true). }
    split; [reflexivity|]. split; [exact Hy|]. split; [now rewrite EV|].
    rewrite EV. now apply (valid_mag_le_emax true).
  - pose proof (valid_finite _ _ _ Vx) as (Hx & _).
    pose proof (pow2_pos (ex - emin) ltac:(lia)).
    assert (sx = false) as ->.
    { destruct sx; [|reflexivity]. cbn [F2Z cond_Zopp] in HD. lia. }
    unfold fsub, SFsub.
    assert (EV : V = Zpos mx * 2 ^ (ex - emin)).
    { unfold V. cbn [F2Z cond_Zopp]. rewrite Z.sub_0_r.
      now apply (rnd_valid false). }
    split; [reflexivity|]. split; [exact Hx|]. split; [now rewrite EV|].
    rewrite EV. now apply (valid_mag_le_emax false).
  - pose proof (valid_finite _ _ _ Vx) as (Hx & _).
    pose proof (valid_finite _ _ _ Vy) as (Hy & _).
    unfold fsub, SFsub.
    pose proof (shl_align_spec mx ex (Z.min ex ey)) as (_ & _ & Ex).
    pose proof (shl_align_spec my ey (Z.min ex ey)) as (_ & _ & Ey).
    replace (Z.min ex (Z.min ex ey)) with (Z.min ex ey) in Ex by lia.
    replace (Z.min ey (Z.min ex ey)) with (Z.min ex ey) in Ey by lia.
    change (IntDef.Z.min ex ey) with (Z.min ex ey).
    rewrite Ex, Ey.
    change (IntDef.Z.sub ?a ?b) with (Z.sub a b).
    set (ez := Z.min ex ey) in *.
    set (M := cond_Zopp sx (Zpos mx * 2 ^ (ex - ez))
              - cond_Zopp sy (Zpos my * 2 ^ (ey - ez))).
    assert (E : M * 2 ^ (ez - emin)
                = F2Z (S754_finite sx mx ex) - F2Z (S754_finite sy my ey)).
    { unfold M. cbn [F2Z].
      replace (ex - emin) with ((ex - ez) + (ez - emin)) by lia.
      replace (ey - emin) with ((ey - ez) + (ez - emin)) by lia.
      rewrite !Z.pow_add_r by lia.
      destruct sx, sy; cbn [cond_Zopp]; ring. }
    pose proof (pow2_pos (ez - emin) ltac:(lia)) as Hp.
    assert (HM : 0 < M) by nia.
    destruct M as [|m|m] eqn:EM; try lia.
    unfold binary_normalize.
    pose proof (binary_round_exact false m ez ltac:(lia)) as R.
    cbv zeta in R. rewrite E in R. exact R.
Qed.

(** Subtracting the same number is monotone: with [a <= b <= c] and
    [c - a] finite, [b - a] is finite and at most [c - a]. *)
Lemma fsub_le (a b c : float64) (sr : bool) (mr : positive) (er : Z) :
  valid a -> valid b -> valid c ->
  isfinite a = true -> isfinite b = true -> isfinite c = true ->
  0 < F2Z b - F2Z a <= F2Z c - F2Z a ->
  fsub c a = S754_finite sr mr er ->
  sr = false /\ emin <= er
  /\ exists m e,
       fsub b a = S754_finite false m e /\ emin <= e
       /\ Zpos m * 2 ^ (e - emin) <= Zpos mr * 2 ^ (er - emin).
Proof.
  intros Va Vb Vc Fa Fb Fc Hord Er.
  pose proof (fsub_exact c a Vc Va Fc Fa ltac:(lia)) as Rc.
  pose proof (fsub_exact b a Vb Va Fb Fa ltac:(lia)) as Rb.
  cbv zeta in Rc, Rb. rewrite Er in Rc.
  destruct Rc as (-> & Her & Vr & Dr).
  split; [reflexivity|]. split; [exact Her|].
  pose proof (rnd_mono (F2Z b - F2Z a) (F2Z c - F2Z a) ltac:(lia) ltac:(lia))
    as Mono.
  pose proof (rnd_binade (F2Z b - F2Z a) ltac:(lia)) as [Lb _].
  assert (Pb : 0 < rnd (F2Z b - F2Z a)).
  { pose proof (Zdigits2_bounds (F2Z b - F2Z a) ltac:(lia)).
    assert (0 < 2 ^ (Zdigits2 (F2Z b - F2Z a) - 1)).
    { apply pow2_pos.
      rewrite Zdigits2_pos by lia.
      pose proof (Z.log2_nonneg (F2Z b - F2Z a)). lia. }
    lia. }
  pose proof (Zdigits2_mono (rnd (F2Z b - F2Z a)) (rnd (F2Z c - F2Z a))
                ltac:(lia)) as Hd.
  destruct (fsub b a) as [s|s| |s m e]; try contradiction.
  - destruct Rb as [_ Rb]. lia.
  - destruct Rb as (-> & He & Vb' & _).
    exists m, e. split; [reflexivity|]. split; [exact He|]. lia.
Qed.

(** ** Quotients and products that stay in range *)

Lemma pow2_split (a b : Z) : 0 <= a -> 0 <= b -> 2 ^ (a + b) = 2 ^ a * 2 ^ b.
Proof. intros. now apply Z.pow_add_r. Qed.

(** The quotient of a positive number by a greater one is at most 1. *)
Lemma fdiv_lt_one (m1 m2 : positive) (e1 e2 : Z) :
  emin <= e1 -> emin <= e2 ->
  Zpos m1 * 2 ^ (e1 - emin) < Zpos m2 * 2 ^ (e2 - emin) ->
  match fdiv (S754_finite false m1 e1) (S754_finite false m2 e2) with
  | S754_zero s => s = false
  | S754_finite s m e =>
      s = false /\ emin <= e /\ Zpos m * 2 ^ (e - emin) <= 2 ^ (- emin)
  | _ => False
  end.
Proof.
  intros He1 He2 Hlt.
  pose proof (pow2_pos (e1 - emin) ltac:(lia)) as P1.
  pose proof (pow2_pos (e2 - emin) ltac:(lia)) as P2.
  assert (Hmag : mag m1 e1 <= mag m2 e2).
  { pose proof (Zdigits2_mono (Zpos m1 * 2 ^ (e1 - emin))
                  (Zpos m2 * 2 ^ (e2 - emin)) ltac:(lia)) as H.
    rewrite !Zdigits2_mul_pow2 in H by lia. cbn [Zdigits2] in H.
    unfold mag. lia. }
  destruct (fdiv_core false false m1 m2 e1 e2 1 ltac:(lia)
              ltac:(unfold emin, SpecFloat.emin, emax, prec; lia))
    as (q & e' & l & Hq & Ee' & _ & _ & Hqm & ->).
  cbn [xorb].
  assert (He'53 : e' <= -53).
  { pose proof (fexp_mono (mag m1 e1 - mag m2 e2) 0 ltac:(lia)) as F.
    change (fexp 0) with (-53) in F. lia. }
  assert (Hsh : 0 <= e1 - e2 - e') by lia.
  set (sh := e1 - e2 - e') in *.
  pose proof (pow2_pos sh Hsh) as Psh.
  pose proof (pow2_pos (- e') ltac:(lia)) as Pe'.
  assert (Hq' : q < 2 ^ (- e')).
  { assert (E : 2 ^ sh * 2 ^ (e2 - emin) = 2 ^ (e1 - emin) * 2 ^ (- e')).
    { rewrite <- !pow2_split by lia. f_equal. unfold sh. lia. }
    assert (Zpos m1 * 2 ^ sh < Zpos m2 * 2 ^ (- e')) by nia.
    nia. }
  destruct (binary_round_aux_spec false q e' l Hq) as (m1' & R & E).
  cbv zeta in E. rewrite E. clear E.
  assert (Hdq : Zdigits2 q + e' <= 0).
  { pose proof (Zdigits2_le q (- e') Hq ltac:(lia) Hq'). lia. }
  pose proof (fexp_mono (Zdigits2 q + e') 0 Hdq) as Ff.
  change (fexp 0) with (-53) in Ff.
  pose proof (fexp_ge_emin (Zdigits2 q + e')) as Fg.
  set (n1 := Z.max 0 (fexp (Zdigits2 q + e') - e')) in *.
  set (e1v := e' + n1) in *.
  assert (Hn1 : 0 <= n1) by (unfold n1; lia).
  assert (He1v : emin <= e1v <= -53) by (unfold e1v, n1; lia).
  pose proof (pow2_pos n1 Hn1) as Pn1.
  pose proof (pow2_pos (- e1v) ltac:(lia)) as Pe1v.
  assert (Hm1' : 0 <= m1' <= 2 ^ (- e1v)).
  { assert (0 <= q / 2 ^ n1) by (apply Z.div_pos; lia).
    assert (q / 2 ^ n1 < 2 ^ (- e1v)).
    { apply Z.div_lt_upper_bound; [lia|].
      rewrite <- pow2_split by lia.
      replace (n1 + - e1v) with (- e') by (unfold e1v; lia). exact Hq'. }
    lia. }
  assert (Hdm1' : Zdigits2 m1' + e1v <= 1).
  { assert (Zdigits2 m1' <= - e1v + 1); [|lia].
    apply Zdigits2_le; try lia.
    rewrite pow2_split by lia. change (2 ^ 1) with 2. lia. }
  pose proof (fexp_mono (Zdigits2 m1' + e1v) 1 Hdm1') as Ff'.
  change (fexp 1) with (-52) in Ff'.
  set (n2 := Z.max 0 (fexp (Zdigits2 m1' + e1v) - e1v)) in *.
  assert (Hn2 : 0 <= n2) by (unfold n2; lia).
  pose proof (pow2_pos n2 Hn2) as Pn2.
  pose proof (Z.mul_div_le m1' (2 ^ n2) Pn2) as Hdiv.
  destruct (m1' / 2 ^ n2) as [|m|m] eqn:Em2.
  - reflexivity.
  - assert (Hfin : (e1v + n2 <=? emax - prec) = true).
    { apply Z.leb_le. unfold n2, emax, prec. lia. }
    rewrite Hfin.
    split; [reflexivity|]. split; [lia|].
    replace (e1v + n2 - emin) with (n2 + (e1v - emin)) by lia.
    rewrite pow2_split by lia.
    pose proof (pow2_pos (e1v - emin) ltac:(lia)) as Pv.
    assert (E : 2 ^ (- emin) = 2 ^ (- e1v) * 2 ^ (e1v - emin)).
    { rewrite <- pow2_split by lia. f_equal. lia. }
    rewrite E. nia.
  - assert (0 <= m1' / 2 ^ n2) by (apply Z.div_pos; lia). lia.
Qed.

(** A number of [[0, 1]] times 100 is in [[0, 100]]. *)
Lemma fmul_hundred_le (m : positive) (e : Z) :
  emin <= e -> Zpos m * 2 ^ (e - emin) <= 2 ^ (- emin) ->
  within_0_100 (fmul (S754_finite false m e) hundred).
Proof.
  intros He HV.
  assert (Hemin : emin = -1074) by reflexivity.
  pose proof (pow2_pos (e - emin) ltac:(lia)) as Pe.
  assert (He0 : e <= 0).
  { assert (H : 2 ^ (e - emin) <= 2 ^ (- emin)) by nia.
    apply Z.pow_le_mono_r_iff in H; lia. }
  pose proof (pow2_pos (- e) ltac:(lia)) as Pme.
  assert (Hm : Zpos m <= 2 ^ (- e)).
  { assert (E : 2 ^ (- emin) = 2 ^ (- e) * 2 ^ (e - emin)).
    { rewrite <- pow2_split by lia. f_equal. lia. }
    rewrite E in HV. nia. }
  change hundred with (S754_finite false 7036874417766400 (-46)).
  unfold fmul, SFmul. cbn [xorb].
  change (IntDef.Z.add e (-46)) with (e + -46).
  rewrite (binary_round_aux_exact false (Zpos (m * 7036874417766400))
             (e + -46)) by lia.
  rewrite Pos2Z.inj_mul.
  change (Zpos 7036874417766400) with (100 * 2 ^ 46).
  set (mx := Zpos m * (100 * 2 ^ 46)).
  set (ex := e + -46).
  assert (Hmx : 0 < mx) by (unfold mx; lia).
  assert (Hmxle : mx <= 100 * 2 ^ (- ex)).
  { unfold mx, ex. replace (- (e + -46)) with (- e + 46) by lia.
    rewrite pow2_split by lia. nia. }
  assert (Hg : Zdigits2 mx + ex <= 7).
  { assert (Zdigits2 mx <= 7 + - ex); [|lia].
    apply Zdigits2_le; try (unfold ex; lia).
    rewrite pow2_split by (unfold ex; lia).
    change (2 ^ 7) with 128.
    pose proof (pow2_pos (- ex) ltac:(unfold ex; lia)). lia. }
  pose proof (fexp_mono (Zdigits2 mx + ex) 7 Hg) as Ff.
  change (fexp 7) with (-46) in Ff.
  pose proof (fexp_ge_emin (Zdigits2 mx + ex)) as Fg.
  set (n1 := Z.max 0 (fexp (Zdigits2 mx + ex) - ex)) in *.
  set (e1 := ex + n1) in *.
  assert (Hn1 : 0 <= n1) by (unfold n1; lia).
  assert (He1 : emin <= e1 <= -46) by (unfold e1, n1, ex in *; lia).
  pose proof (pow2_pos n1 Hn1) as Pn1.
  pose proof (pow2_pos (- e1) ltac:(lia)) as Pe1.
  set (m1' := rne mx n1) in *.
  assert (Hm1' : 0 <= m1' <= 100 * 2 ^ (- e1)).
  { split.
    - pose proof (rne_range mx n1).
      assert (0 <= mx / 2 ^ n1) by (apply Z.div_pos; lia).
      unfold m1'. lia.
    - apply rne_le_multiple; [exact Hn1|].
      rewrite <- Z.mul_assoc, <- pow2_split by lia.
      replace (- e1 + n1) with (- ex) by (unfold e1; lia). exact Hmxle. }
  assert (Hdm1' : Zdigits2 m1' + e1 <= 7).
  { assert (Zdigits2 m1' <= 7 + - e1); [|lia].
    apply Zdigits2_le; try lia.
    rewrite pow2_split by lia. change (2 ^ 7) with 128. lia. }
  pose proof (fexp_mono (Zdigits2 m1' + e1) 7 Hdm1') as Ff'.
  change (fexp 7) with (-46) in Ff'.
  set (n2 := Z.max 0 (fexp (Zdigits2 m1' + e1) - e1)) in *.
  assert (Hn2 : 0 <= n2) by (unfold n2; lia).
  pose proof (pow2_pos n2 Hn2) as Pn2.
  pose proof (Z.mul_div_le m1' (2 ^ n2) Pn2) as Hdiv.
  destruct (m1' / 2 ^ n2) as [|p|p] eqn:Em2.
  - exact I.
  - assert (Hfin : (e1 + n2 <=? emax - prec) = true).
    { apply Z.leb_le. unfold n2, emax, prec. lia. }
    rewrite Hfin. cbn [within_0_100].
    split; [reflexivity|]. split; [lia|].
    replace (e1 + n2 - emin) with (n2 + (e1 - emin)) by lia.
    rewrite pow2_split by lia.
    pose proof (pow2_pos (e1 - emin) ltac:(lia)) as Pv.
    assert (E : 2 ^ (- emin) = 2 ^ (- e1) * 2 ^ (e1 - emin)).
    { rewrite <- pow2_split by lia. f_equal. lia. }
    rewrite E. nia.
  - assert (0 <= m1' / 2 ^ n2) by (apply Z.div_pos; lia). lia.
Qed.

(** Two float64 numbers of the same value are the same. *)
Lemma valid_same_value (m m' : positive) (e e' : Z) :
  valid (S754_finite false m e) -> valid (S754_finite false m' e') ->
  Zpos m * 2 ^ (e - emin) = Zpos m' * 2 ^ (e' - emin) ->
  m = m' /\ e = e'.
Proof.
  intros V V' E.
  pose proof (SFcompare_F2Z _ _ V V' eq_refl eq_refl) as C.
  cbn [F2Z cond_Zopp] in C. rewrite E, Z.compare_refl in C.
  cbn [SFcompare] in C.
  destruct (Z.compare_spec e e') as [Ee|Ee|Ee]; try discriminate.
  split; [|exact Ee].
  injection C as C.
  change (PosDef.Pos.compare_cont Eq m m') with (Pos.compare m m') in C.
  now apply Pos.compare_eq.
Qed.

(** ** Every entry written back lies in [[0, 100]] *)

(** The entry after rescaling, where it is not masked, lies in
    [[0, 1]]. *)
Lemma unmasked_entry_unit (lo hi v : float64) (mlo mhi : bool) :
  valid lo -> valid hi -> valid v ->
  masked_after_idiv lo hi mlo mhi v = false ->
  within_0_1 (rescaled_entry lo hi mlo mhi v).
Proof.
  intros Vlo Vhi Vv Hm.
  unfold rescaled_entry. rewrite Hm.
  unfold masked_after_idiv in Hm.
  apply orb_false_elim in Hm as [Hm2 Hm].
  apply orb_false_elim in Hm as [Hmm Hdom].
  unfold shifted_entry, range_entry in *. rewrite Hm2, Hmm in *.
  unfold masked_after_isub in Hm2.
  apply orb_false_elim in Hm2 as [F1 _].
  apply negb_false_iff in F1.
  pose proof (clip_entry_valid lo hi v Vlo Vhi Vv) as V1.
  destruct (clip_entry_finite_not_nan lo hi v F1) as (Nlo & Nhi & Nv).
  set (v1 := clip_entry lo hi v) in *.
  destruct (isfinite lo) eqn:Flo.
  - (* a finite lower bound *)
    pose proof (fsub_rounds v1 lo V1 Vlo F1 Flo) as R2.
    destruct (isfinite hi) eqn:Fhi.
    + (* finite bounds *)
      pose proof (fsub_rounds hi lo Vhi Vlo Fhi Flo) as Rr.
      assert (Hord : F2Z v1 - F2Z lo = 0
                     \/ 0 < F2Z v1 - F2Z lo <= F2Z hi - F2Z lo).
      { destruct (le lo hi) eqn:Hb.
        - destruct (clip_entry_between lo hi v Hb Nv) as [H1 H2].
          fold v1 in H1, H2.
          rewrite le_F2Z in H1, H2 by assumption.
          apply Z.leb_le in H1, H2. lia.
        - left. unfold v1.
          rewrite (clip_entry_out_of_order lo hi v) by assumption. lia. }
      destruct Hord as [H0|Hord].
      * (* the shifted entry is zero *)
        rewrite H0 in R2.
        destruct (fsub v1 lo) as [s2|s2| |s2 m2 e2] eqn:E2;
          cbn [rounds] in R2; try contradiction; try lia.
        destruct (fsub hi lo) as [sr|sr| |sr mr er] eqn:Er;
          cbn [rounds] in Rr; try contradiction.
        -- rewrite domain_safe_divide_zero in Hdom by reflexivity.
           discriminate.
        -- exact I.
        -- exact I.
      * (* a positive shifted entry, at most the range *)
        pose proof (fsub_exact hi lo Vhi Vlo Fhi Flo ltac:(lia)) as Xr.
        pose proof (fsub_exact v1 lo V1 Vlo F1 Flo ltac:(lia)) as X2.
        cbv zeta in Xr, X2.
        pose proof (fsub_valid hi lo Vhi Vlo) as Vr.
        pose proof (fsub_valid v1 lo V1 Vlo) as V2.
        destruct (fsub hi lo) as [sr|sr| |sr mr er] eqn:Er;
          try contradiction.
        -- (* the range overflows *)
           destruct (fsub v1 lo) as [s2|s2| |s2 m2 e2] eqn:E2;
             try contradiction.
           ++ rewrite domain_safe_divide_inf in Hdom by reflexivity.
              discriminate.
           ++ exact I.
        -- destruct (fsub_le lo v1 hi sr mr er Vlo V1 Vhi Flo F1 Fhi Hord Er)
             as (-> & Her & m2 & e2 & E2 & He2 & Hle).
           rewrite E2 in *.
           destruct (Z.eq_dec (Zpos m2 * 2 ^ (e2 - emin))
                              (Zpos mr * 2 ^ (er - emin))) as [Eq|Hne].
           ++ destruct (valid_same_value m2 mr e2 er V2 Vr Eq) as [-> ->].
              rewrite fdiv_self. vm_compute. intuition discriminate.
           ++ pose proof (fdiv_lt_one m2 mr e2 er He2 Her ltac:(lia)) as Q.
              destruct (fdiv (S754_finite false m2 e2)
                             (S754_finite false mr er));
                try contradiction; [exact I | exact Q].
    + (* an infinite upper bound *)
      destruct hi as [sh|sh| |sh mh eh]; try discriminate.
      assert (Er : fsub (S754_infinity sh) lo = S754_infinity sh).
      { destruct lo; try discriminate; reflexivity. }
      rewrite Er in *.
      destruct (fsub v1 lo) as [s2|s2| |s2 m2 e2] eqn:E2.
      * exact I.
      * rewrite domain_safe_divide_inf in Hdom by reflexivity.
        discriminate.
      * contradiction.
      * exact I.
  - (* an infinite lower bound: the entry is masked *)
    exfalso.
    destruct lo as [sl|[|]| |sl ml el]; try discriminate.
    + (* -inf *)
      assert (E2 : fsub v1 (S754_infinity true) = S754_infinity false).
      { destruct v1; try discriminate; reflexivity. }
      rewrite E2 in Hdom.
      rewrite domain_safe_divide_inf in Hdom; [discriminate|].
      destruct hi as [sh|[|]| |sh mh eh]; try discriminate; try reflexivity.
      exfalso. unfold v1, clip_entry in F1.
      destruct v as [sv|[|]| |sv mv ev]; discriminate.
    + (* +inf *)
      unfold v1, clip_entry, maximum in F1.
      destruct (minimum v hi) as [st|[|]| |st mt et]; discriminate.
Qed.

(** The entry written back lies in [[0, 100]]. *)
Lemma normalize_entry_within (lo hi v : float64) (mlo mhi : bool) :
  valid lo -> valid hi -> valid v ->
  within_0_100 (normalize_entry lo hi mlo mhi v).
Proof.
  intros Vlo Vhi Vv. unfold normalize_entry.
  destruct (masked_after_idiv lo hi mlo mhi v) eqn:Hm; [exact I|].
  pose proof (unmasked_entry_unit lo hi v mlo mhi Vlo Vhi Vv Hm) as U.
  destruct (rescaled_entry lo hi mlo mhi v) as [s|s| |s m e];
    cbn [within_0_1] in U; try contradiction.
  - exact I.
  - destruct U as (-> & He & HV). now apply fmul_hundred_le.
Qed.

(** A call that returns on float64 numbers has normalised every row
    against bounds that are float64 numbers. *)
Lemma normalize_returns_valid_bounds (mins maxs : option array1)
  (w w' : world) (r : array1 * array1) :
  well_formed (full_stack w) -> all_valid (full_stack w) ->
  bounds_ok mins -> bounds_ok maxs ->
  normalize_by_columns mins maxs w = (Return r, w') ->
  exists lo hi mlo mhi,
    Forall valid lo /\ Forall valid hi
    /\ w' = set_rows w (map (normalize_row lo hi mlo mhi)
                            (rows (full_stack w))).
Proof.
  intros Wf Va Bmins Bmaxs H.
  assert (G : exists mins' maxs',
             bounds_ok (Some mins') /\ bounds_ok (Some maxs')
             /\ normalize_by_columns (Some mins') (Some maxs') w
                = (Return r, w')).
  { assert (Derived : mins = None \/ maxs = None ->
              exists mins' maxs',
                bounds_ok (Some mins') /\ bounds_ok (Some maxs')
                /\ normalize_by_columns (Some mins') (Some maxs') w
                   = (Return r, w')).
    { intros Hnone.
      assert (Hne : rows (full_stack w) <> []).
      { intros Er. destruct (normalize_no_row mins maxs w Hnone Er)
          as (e & E & _). congruence. }
      rewrite (normalize_derives _ _ w Hnone Hne) in H.
      destruct (derived_bounds_ok _ Wf Hne Va). eauto. }
    destruct mins as [mins|]; [|apply Derived; now left].
    destruct maxs as [maxs|]; [|apply Derived; now right].
    exists mins, maxs. auto. }
  destruct G as (mins' & maxs' & B1 & B2 & H').
  destruct (normalize_given_bounds mins' maxs' w w' r Wf Va B1 B2 H')
    as (lo & hi & mlo & mhi & _ & _ & _ & _ & Vlo & Vhi & _ & E & _).
  now exists lo, hi, mlo, mhi.
Qed.

(** X15: when the call returns, on an array of float64 numbers with
    bounds that are float64 numbers (or derived), every entry written
    back lies in [[0, 100]]: it is a zero, or a positive number
    [m * 2 ^ e] that is at most 100.  The proof follows the rounding of
    each operation: the subtraction is monotone, so the shifted entry
    is at most the range; their quotient is at most 1; and 100 times a
    number of [[0, 1]] rounds to at most 100. *)
Theorem X15_every_entry_written_back_lies_in_0_100
  (mins maxs : option array1) (w w' : world) (r : array1 * array1) :
  well_formed (full_stack w) -> all_valid (full_stack w) ->
  bounds_ok mins -> bounds_ok maxs ->
  normalize_by_columns mins maxs w = (Return r, w') ->
  Forall (Forall within_0_100) (rows (full_stack w')).
Proof.
  intros Wf Va Bmins Bmaxs H.
  destruct (normalize_returns_valid_bounds mins maxs w w' r Wf Va Bmins Bmaxs H)
    as (lo & hi & mlo & mhi & Vlo & Vhi & ->).
  unfold set_rows. cbn [full_stack rows].
  apply Forall_forall. intros row' Hin.
  apply in_map_iff in Hin as (row & <- & Hrow).
  unfold normalize_row. apply Forall_zip_with. intros v c Hv Hc.
  unfold all_valid in Va. rewrite Forall_forall in Va.
  specialize (Va row Hrow). rewrite Forall_forall in Va, Vlo, Vhi.
  unfold column_bounds in Hc. destruct c as [[l h] [ml mh]].
  apply in_combine_l in Hc. pose proof (in_combine_l _ _ _ _ Hc) as Hl.
  apply in_combine_r in Hc. cbn [fst snd].
  apply normalize_entry_within; auto.
Qed.

Lemma X15_witness :
  Forall (Forall within_0_100)
         (rows (full_stack (world_of 1 (column_of [0; 50; 100; 100; 0])))).
Proof.
  apply (X15_every_entry_written_back_lies_in_0_100
           (Some (ndarray1 [of_Z 0])) (Some (ndarray1 [of_Z 10]))
           (world_of 1 (column_of [0; 5; 10; 15; -5]))
           (world_of 1 (column_of [0; 50; 100; 100; 0]))
           (ndarray1 [of_Z 0], ndarray1 [of_Z 10])).
  - repeat constructor.
  - repeat constructor.
  - split; [reflexivity | repeat constructor].
  - split; [reflexivity | repeat constructor].
  - vm_compute. reflexivity.
Defined.

(** * Properties of [initialize_module] *)

Lemma fold_register (all_tasks : list ComputationTask) : forall g : globals,
  Transforms (fold_left register all_tasks g)
  = Transforms g
    ++ filter (fun t => type t =? ImageTransformTask t) all_tasks
  /\ Algorithms (fold_left register all_tasks g)
     = Algorithms g
       ++ filter (fun t => negb (type t =? ImageTransformTask t)
                           && (type t =? FeatureAlgorithmTask t)) all_tasks
  /\ np_errs (fold_left register all_tasks g) = np_errs g.
Proof.
  induction all_tasks as [|t ts IH]; intros g; cbn [fold_left filter].
  - now rewrite !app_nil_r.
  - destruct (IH (register g t)) as (HT & HA & HE).
    rewrite HT, HA, HE. unfold register.
    destruct (type t =? ImageTransformTask t); cbn [negb andb].
    + cbn [Transforms Algorithms np_errs]. now rewrite <- app_assoc.
    + destruct (type t =? FeatureAlgorithmTask t);
        cbn [Transforms Algorithms np_errs]; now rewrite <- ?app_assoc.
Qed.

(** X16: [initialize_module] appends to [Transforms] the tasks whose
    type is [ImageTransformTask] and to [Algorithms] those of the
    remaining tasks whose type is [FeatureAlgorithmTask], both in the
    order in which [getInstances] lists them; tasks of any other type
    are dropped; numpy's error settings are all set to ['raise'].  The
    lists are not emptied first: a second call appends the tasks a
    second time. *)
Theorem X16_initialize_module_sorts_the_tasks_by_type
  (all_tasks : list ComputationTask) (g : globals) :
  let g' := initialize_module all_tasks g in
  Transforms g'
  = Transforms g
    ++ filter (fun t => type t =? ImageTransformTask t) all_tasks
  /\ Algorithms g'
     = Algorithms g
       ++ filter (fun t => negb (type t =? ImageTransformTask t)
                           && (type t =? FeatureAlgorithmTask t)) all_tasks
  /\ np_errs g' = all_ err_raise
  /\ Transforms (initialize_module all_tasks g')
     = Transforms g'
       ++ filter (fun t => type t =? ImageTransformTask t) all_tasks.
Proof.
  cbv zeta. unfold initialize_module. cbn [Transforms Algorithms np_errs].
  destruct (fold_register all_tasks g) as (HT & HA & _).
  split; [exact HT|]. split; [exact HA|]. split; [reflexivity|].
  destruct (fold_register all_tasks
              {| Algorithms := Algorithms (fold_left register all_tasks g);
                 Transforms := Transforms (fold_left register all_tasks g);
                 np_errs := all_ err_raise |}) as (HT' & _).
  exact HT'.
Qed.

(** * Properties of [output_railroad_switch] *)

Lemma dict_get_del (k : string) (d : dict) :
  dict_get k (dict_del k d) = None.
Proof.
  induction d as [|[k' v] d IH]; cbn [dict_del dict_get]; [reflexivity|].
  destruct (String.eqb k k') eqn:E; [exact IH|].
  cbn [dict_get]. now rewrite E.
Qed.

Lemma dict_get_del_other (k k' : string) (d : dict) :
  k <> k' -> dict_get k (dict_del k' d) = dict_get k d.
Proof.
  intros Hne.
  induction d as [|[k0 v] d IH]; cbn [dict_del dict_get]; [reflexivity|].
  destruct (String.eqb_spec k' k0) as [->|Hk'].
  - destruct (String.eqb_spec k k0); [contradiction | exact IH].
  - cbn [dict_get]. now rewrite IH.
Qed.

(** X17: called with [output_stream] and without [output_filepath],
    the wrapper leaves [sys.stdout] bound to what it was bound to,
    whether the wrapped function returns or raises (the [try]/[finally]
    of lines 111-115).  If the announcement of line 107 is printed, the
    outcome is that of the wrapped function, run with [sys.stdout]
    bound to the stream and without the keyword [output_stream]. *)
Theorem X17_stream_mode_always_restores_stdout
  (OS : Type)
  (print_to : object -> string -> OS -> result unit * OS)
  (open_ : object -> object -> OS -> result object * OS)
  (close : object -> OS -> result unit * OS)
  (format_ : object -> string)
  (method_that_prints_output : list object -> dict -> IO OS object)
  (__name__ : string)
  (args : list object) (kwargs : dict) (w : interp OS)
  (output_stream : object) :
  dict_get "output_filepath" kwargs = None ->
  dict_get "output_stream" kwargs = Some output_stream ->
  let after :=
    output_railroad_switch OS print_to open_ close format_
      method_that_prints_output __name__ args kwargs w in
  sys_stdout (snd after) = sys_stdout w
  /\ forall o1,
       print_to (sys_stdout w) (saving_to_stream __name__) (os w)
       = (Return tt, o1) ->
       let run :=
         method_that_prints_output args (dict_del "output_stream" kwargs)
           {| sys_stdout := output_stream; os := o1 |} in
       fst after = fst run /\ os (snd after) = os (snd run).
Proof.
  intros Hf Hs. cbv zeta.
  unfold output_railroad_switch, print_method_wrapper. rewrite Hf, Hs.
  cbv [print_ io_bind get_stdout outside try_finally set_stdout io_ret].
  cbn [sys_stdout os].
  destruct (print_to (sys_stdout w) (saving_to_stream __name__) (os w))
    as [[[]|e] o1] eqn:Ep; cbn [sys_stdout os].
  - destruct (method_that_prints_output args
                (dict_del "output_stream" kwargs)
                {| sys_stdout := output_stream; os := o1 |})
      as [[v|e] w2] eqn:Em.
    + split; [reflexivity|]. intros o1' [= <-]. rewrite Em. now split.
    + split; [reflexivity|]. intros o1' [= <-]. rewrite Em. now split.
  - split; [reflexivity|]. intros o1' H. discriminate.
Qed.

Lemma X17_witness :
  sys_stdout
    (snd (output_railroad_switch (list event) log_print log_open log_close
            show failing "failing" [] kw_stream console))
  = sys_stdout console.
Proof.
  apply (X17_stream_mode_always_restores_stdout
           (list event) log_print log_open log_close show failing "failing"
           [] kw_stream console (Ref 7));
    reflexivity.
Defined.

Lemma dict_del_absent (k : string) (d : dict) :
  dict_get k d = None -> dict_del k d = d.
Proof.
  induction d as [|[k' v] d IH]; cbn [dict_del dict_get]; [reflexivity|].
  destruct (String.eqb k k'); [discriminate|].
  intros H. now rewrite IH.
Qed.

(** X18: called with [output_filepath], when the announcement is
    printed and the file opens, the wrapped function runs with
    [sys.stdout] bound to the file and with all keywords but
    [output_filepath] and [mode] (so [output_stream], if given too, is
    handed on and not used).  If it raises, the exception leaves the
    wrapper with [sys.stdout] as the function left it and the file not
    closed: lines 102-103 are not reached.  If it returns and [close]
    succeeds, [sys.stdout] is bound again to what it was and the
    function's value is returned. *)
Theorem X18_file_mode_restores_stdout_only_on_return
  (OS : Type)
  (print_to : object -> string -> OS -> result unit * OS)
  (open_ : object -> object -> OS -> result object * OS)
  (close : object -> OS -> result unit * OS)
  (format_ : object -> string)
  (method_that_prints_output : list object -> dict -> IO OS object)
  (__name__ : string)
  (args : list object) (kwargs : dict) (w : interp OS)
  (output_filepath f : object) (o1 o2 : OS) :
  dict_get "output_filepath" kwargs = Some output_filepath ->
  let mode :=
    match dict_get "mode" (dict_del "output_filepath" kwargs) with
    | Some mode => mode
    | None => Str "w"
    end in
  let kwargs' := dict_del "mode" (dict_del "output_filepath" kwargs) in
  print_to (sys_stdout w)
           (saving_to_file format_ __name__ output_filepath mode) (os w)
  = (Return tt, o1) ->
  open_ output_filepath mode o1 = (Return f, o2) ->
  let run :=
    method_that_prints_output args kwargs'
      {| sys_stdout := f; os := o2 |} in
  let after :=
    output_railroad_switch OS print_to open_ close format_
      method_that_prints_output __name__ args kwargs w in
  (forall k, k <> "output_filepath"%string -> k <> "mode"%string ->
     dict_get k kwargs' = dict_get k kwargs)
  /\ (forall e, fst run = Raise e -> after = (Raise e, snd run))
  /\ (forall v o3,
        fst run = Return v ->
        close (sys_stdout (snd run)) (os (snd run)) = (Return tt, o3) ->
        after = (Return v, {| sys_stdout := sys_stdout w; os := o3 |})).
Proof.
  intros Hf mode kwargs' Hp Ho run after.
  split.
  { intros k Hk1 Hk2. unfold kwargs'.
    now rewrite !dict_get_del_other. }
  assert (E : after
              = let '(r, w2) := run in
                match r with
                | Raise e => (Raise e, w2)
                | Return v =>
                    let '(c, o3) := close (sys_stdout w2) (os w2) in
                    match c with
                    | Return _ =>
                        (Return v, {| sys_stdout := sys_stdout w; os := o3 |})
                    | Raise e =>
                        (Raise e, {| sys_stdout := sys_stdout w2; os := o3 |})
                    end
                end).
  { unfold after, run, output_railroad_switch, print_method_wrapper.
    rewrite Hf.
    assert (Ek : (let '(mode0, kwargs0) :=
                    match dict_get "mode" (dict_del "output_filepath" kwargs)
                    with
                    | Some mode0 =>
                        (mode0,
                         dict_del "mode" (dict_del "output_filepath" kwargs))
                    | None => (Str "w", dict_del "output_filepath" kwargs)
                    end in (mode0, kwargs0)) = (mode, kwargs')).
    { unfold mode, kwargs'.
      destruct (dict_get "mode" (dict_del "output_filepath" kwargs)) eqn:Em;
        [reflexivity|].
      now rewrite (dict_del_absent "mode" _ Em). }
    destruct (match dict_get "mode" (dict_del "output_filepath" kwargs) with
              | Some mode0 =>
                  (mode0, dict_del "mode" (dict_del "output_filepath" kwargs))
              | None => (Str "w", dict_del "output_filepath" kwargs)
              end) as [mode0 kwargs0].
    injection Ek as -> ->.
    cbv [print_ io_bind get_stdout outside set_stdout io_ret].
    cbn [sys_stdout os]. rewrite Hp. cbn [sys_stdout os]. rewrite Ho.
    cbn [sys_stdout os].
    destruct (method_that_prints_output args kwargs'
                {| sys_stdout := f; os := o2 |}) as [[v|e] w2];
      [|reflexivity].
    destruct (close (sys_stdout w2) (os w2)) as [[[]|e] o3]; reflexivity. }
  rewrite E. destruct run as [r w2]. cbn [fst snd]. split.
  - intros e ->. reflexivity.
  - intros v o3 -> Hc. rewrite Hc. reflexivity.
Qed.

Lemma X18_witness :
  output_railroad_switch (list event) log_print log_open log_close
    show failing "failing" [] kw_file console
  = (Raise {| cls := ValueError; message := "no report" |},
     snd (failing [] kw_stream redirected)).
Proof.
  apply (X18_file_mode_restores_stdout_only_on_return
           (list event) log_print log_open log_close show failing "failing"
           [] kw_file console (Str "out.txt") (Ref 1)
           announced (os redirected));
    reflexivity.
Defined.

(** X19: the wrapped function is never called with the keyword
    [output_filepath]: two functions that agree on all calls without
    that keyword give the same wrapper. *)
Theorem X19_wrapped_function_never_gets_output_filepath
  (OS : Type)
  (print_to : object -> string -> OS -> result unit * OS)
  (open_ : object -> object -> OS -> result object * OS)
  (close : object -> OS -> result unit * OS)
  (format_ : object -> string)
  (method method' : list object -> dict -> IO OS object)
  (__name__ : string)
  (args : list object) (kwargs : dict) (w : interp OS) :
  (forall a k w0,
     dict_get "output_filepath" k = None -> method a k w0 = method' a k w0) ->
  output_railroad_switch OS print_to open_ close format_
    method __name__ args kwargs w
  = output_railroad_switch OS print_to open_ close format_
      method' __name__ args kwargs w.
Proof.
  intros Hsame.
  unfold output_railroad_switch, print_method_wrapper.
  destruct (dict_get "output_filepath" kwargs) as [output_filepath|] eqn:Hf.
  - assert (Hk : forall mk : object * dict,
              mk = (match dict_get "mode" (dict_del "output_filepath" kwargs)
                    with
                    | Some mode =>
                        (mode,
                         dict_del "mode" (dict_del "output_filepath" kwargs))
                    | None => (Str "w", dict_del "output_filepath" kwargs)
                    end) ->
              dict_get "output_filepath" (snd mk) = None).
    { intros mk ->.
      destruct (dict_get "mode" (dict_del "output_filepath" kwargs));
        cbn [snd].
      - rewrite dict_get_del_other by discriminate. apply dict_get_del.
      - apply dict_get_del. }
    destruct (match dict_get "mode" (dict_del "output_filepath" kwargs) with
              | Some mode =>
                  (mode, dict_del "mode" (dict_del "output_filepath" kwargs))
              | None => (Str "w", dict_del "output_filepath" kwargs)
              end) as [mode kwargs0].
    specialize (Hk (mode, kwargs0) eq_refl). cbn [snd] in Hk.
    cbv [print_ io_bind get_stdout outside set_stdout io_ret].
    destruct (print_to _ _ _) as [[[]|e] o1]; [|reflexivity].
    cbn [sys_stdout os].
    destruct (open_ _ _ _) as [[f|e] o2]; [|reflexivity].
    cbn [sys_stdout os].
    now rewrite (Hsame args kwargs0 _ Hk).
  - destruct (dict_get "output_stream" kwargs) as [output_stream|] eqn:Hs.
    + assert (Hk : dict_get "output_filepath"
                     (dict_del "output_stream" kwargs) = None).
      { rewrite dict_get_del_other by discriminate. exact Hf. }
      cbv [print_ io_bind get_stdout outside try_finally set_stdout io_ret].
      destruct (print_to _ _ _) as [[[]|e] o1]; [|reflexivity].
      cbn [sys_stdout os].
      now rewrite (Hsame args _ _ Hk).
    + cbv [io_bind io_ret]. now rewrite (Hsame args kwargs w Hf).
Qed.

Lemma X19_witness :
  output_railroad_switch (list event) log_print log_open log_close
    show report "report" [] kw_file console
  = output_railroad_switch (list event) log_print log_open log_close
      show picky "report" [] kw_file console.
Proof.
  apply (X19_wrapped_function_never_gets_output_filepath
           (list event) log_print log_open log_close show report picky).
  intros a k w0 H. unfold picky. now rewrite H.
Defined.

(** ** Normalising an array against itself *)

Lemma In_column (rs : list (list float64)) (i j : nat)
  (row : list float64) (v : float64) :
  nth_error rs i = Some row -> nth_error row j = Some v ->
  In v (column j rs).
Proof.
  intros Hrow Hv. unfold column.
  apply in_map_iff. exists row. split.
  - now apply nth_error_nth.
  - eapply nth_error_In; eassumption.
Qed.

(** The bound of a column that has a finite entry: it is not masked,
    and it is one of the finite entries of the column. *)
Lemma bound_of_finite_column (extreme : float64 -> float64 -> float64)
  (c : list float64) (v : float64) :
  (forall x y, extreme x y = x \/ extreme x y = y) ->
  In v c -> isfinite v = true ->
  snd (bound_skipping_invalid extreme c) = false
  /\ In (fst (bound_skipping_invalid extreme c)) c
  /\ isfinite (fst (bound_skipping_invalid extreme c)) = true.
Proof.
  intros Hsel Hin Hfin. unfold bound_skipping_invalid.
  assert (Hf : In v (filter isfinite c)) by (apply filter_In; now split).
  destruct (filter isfinite c) as [|x xs] eqn:E; [contradiction|].
  cbn [fst snd]. split; [reflexivity|].
  pose proof (fold_left_selects extreme xs Hsel x) as S.
  rewrite <- E in S. apply filter_In in S. exact S.
Qed.

(** X20: normalising an array against itself (no bounds given).  In a
    column that holds a finite entry, the derived minimum [lo] and the
    derived maximum [hi] are entries of that column; when they differ
    and [hi - lo] does not overflow, the call returns the derived
    bounds and writes exactly [100.0] where the entry was [hi] and
    exactly [+0.0] where it was [lo]. *)
Theorem X20_normalising_an_array_against_itself_attains_0_and_100
  (w : world) (i j : nat) (row : list float64) (v lo hi : float64) :
  well_formed (full_stack w) -> all_valid (full_stack w) ->
  nth_error (rows (full_stack w)) i = Some row ->
  nth_error row j = Some v -> isfinite v = true ->
  nth_error (getdata (derived_mins (full_stack w))) j = Some lo ->
  nth_error (getdata (derived_maxs (full_stack w))) j = Some hi ->
  le hi lo = false -> isfinite (fsub hi lo) = true ->
  In lo (column j (rows (full_stack w)))
  /\ In hi (column j (rows (full_stack w)))
  /\ exists w' row' v',
       normalize_by_columns None None w
       = (Return (derived_mins (full_stack w), derived_maxs (full_stack w)),
          w')
       /\ nth_error (rows (full_stack w')) i = Some row'
       /\ nth_error row' j = Some v'
       /\ (v = hi -> v' = hundred)
       /\ (v = lo -> v' = zero).
Proof.
  intros Wf Va Hrow Hv Fv Hlo Hhi Hlt Fr.
  set (a := full_stack w) in *.
  assert (Hne : rows a <> []).
  { intros E. rewrite E in Hrow. destruct i; discriminate. }
  assert (Hj : (j < ncols a)%nat).
  { unfold well_formed in Wf. rewrite Forall_forall in Wf.
    rewrite <- (Wf row (nth_error_In _ _ Hrow)).
    eapply nth_error_Some_lt; eassumption. }
  pose proof (In_column _ _ _ _ _ Hrow Hv) as Hin.
  destruct (derived_mins_column a j Wf Hne Hj) as [Dlo Mlo].
  destruct (derived_maxs_column a j Wf Hne Hj) as [Dhi Mhi].
  destruct (bound_of_finite_column minimum _ v minimum_selects Hin Fv)
    as (Mlo' & Ilo & Flo).
  destruct (bound_of_finite_column maximum _ v maximum_selects Hin Fv)
    as (Mhi' & Ihi & Fhi).
  rewrite Mlo' in Mlo. rewrite Mhi' in Mhi.
  rewrite Hlo in Dlo. injection Dlo as Elo.
  rewrite Hhi in Dhi. injection Dhi as Ehi.
  rewrite <- Elo in Ilo, Flo. rewrite <- Ehi in Ihi, Fhi.
  pose proof (column_valid a j Wf Va Hj) as Vc.
  rewrite Forall_forall in Vc.
  pose proof (Vc lo Ilo) as Vlo. pose proof (Vc hi Ihi) as Vhi.
  split; [exact Ilo|]. split; [exact Ihi|].
  destruct (normalize_entry_ends lo hi v Vlo Vhi Flo Fhi Hlt Fr)
    as [Hup Hdown].
  assert (Hb : le lo hi = true).
  { apply le_total; try assumption; now apply isfinite_not_nan. }
  eexists _, _, (normalize_entry lo hi false false v).
  split.
  { apply (normalize_derived_returns None None w (or_introl eq_refl));
      assumption. }
  split.
  { unfold set_rows. cbn [full_stack rows].
    rewrite nth_error_map. fold a. rewrite Hrow. reflexivity. }
  split.
  { unfold normalize_row, column_bounds. fold a.
    rewrite nth_error_zip_with, !nth_error_combine, Hv, Hlo, Hhi, Mlo, Mhi.
    reflexivity. }
  split.
  - intros E. apply Hup. apply clip_entry_above; [exact Hb | now left].
  - intros E. apply Hdown. apply clip_entry_below; try assumption.
    + apply Vc. exact Hin.
    + now left.
Qed.

Lemma X20_witness :
  In (of_Z 1) (column 1 (rows (full_stack nan_column)))
  /\ In (of_Z 3) (column 1 (rows (full_stack nan_column)))
  /\ exists w' row' v',
       normalize_by_columns None None nan_column
       = (Return (derived_mins (full_stack nan_column),
                  derived_maxs (full_stack nan_column)), w')
       /\ nth_error (rows (full_stack w')) 1 = Some row'
       /\ nth_error row' 1 = Some v'
       /\ (of_Z 3 = of_Z 3 -> v' = hundred)
       /\ (of_Z 3 = of_Z 1 -> v' = zero).
Proof.
  apply (X20_normalising_an_array_against_itself_attains_0_and_100
           nan_column 1%nat 1%nat [nan; of_Z 3] (of_Z 3) (of_Z 1) (of_Z 3));
    try reflexivity; repeat constructor.
Defined.
